(** * The DCT denoiser of libavfilter (vf_dctdnoiz.c), embedded in Rocq

    The development follows the source file top-down:

    - C integers and a small interface of C floating-point arithmetic
      ([CFloat]), with two instances given further below: IEEE-754
      binary32/binary64 on [spec_float] (what a C compiler with
      FLT_EVAL_METHOD = 0 and no contraction produces) and exact rational
      arithmetic;
    - the butterfly lines of [fdct8_1d], [idct8_1d], [fdct16_1d] and
      [idct16_1d], and the strided loops around them;
    - [filter_freq_8]/[filter_freq_16] and their four entry points;
    - [init], [config_input] (geometry, coverage counters, weights);
    - colour (de)correlation, [filter_plane], [filter_frame].

    Buffers are lists indexed from a base offset, as the C code indexes
    pointers.  Index arithmetic is done in [Z]: every index is below the
    allocation size, which the code itself computes in [int]. *)

From Stdlib Require Import ZArith Zpower QArith Qabs Qpower Lia Lqa List Bool.
From Stdlib Require Import String.
From Stdlib Require Import Floats.SpecFloat.
From stdpp Require Import base list.

Local Open Scope Z_scope.

(** ** C integers *)

Module CInt.

Definition INT_MAX : Z := 2147483647.
Definition INT_MIN : Z := -2147483648.

(** Two's complement wrap-around of a 32-bit [int]. *)
Definition wrap (z : Z) : Z := (z + 2 ^ 31) mod 2 ^ 32 - 2 ^ 31.

Definition add (a b : Z) : Z := wrap (a + b).
Definition sub (a b : Z) : Z := wrap (a - b).
Definition mul (a b : Z) : Z := wrap (a * b).
Definition neg (a : Z) : Z := wrap (- a).
(** [a % b] truncates toward zero, the sign follows the dividend. *)
Definition rem (a b : Z) : Z := Z.rem a b.
Definition shl (a n : Z) : Z := wrap (Z.shiftl a n).
(** [a >> n] on a negative [int] is the arithmetic shift. *)
Definition shr (a n : Z) : Z := Z.shiftr a n.

Definition in_range (z : Z) : Prop := INT_MIN <= z <= INT_MAX.

End CInt.

(** [FFALIGN(x, a)] of libavutil: round [x] up to a multiple of the power of
    two [a]. *)
Definition FFALIGN (x a : Z) : Z := Z.land (x + a - 1) (Z.lnot (a - 1)).

(** [av_clip_uint8(int a)] of libavutil:
    [if (a & ~0xFF) return (-a) >> 31; else return a;], the result being
    converted to [uint8_t]. *)
Definition av_clip_uint8 (a : Z) : Z :=
  if Z.land a (Z.lnot 255) =? 0 then a
  else (CInt.shr (CInt.neg a) 31) mod 256.

(** [AVERROR(EINVAL)] and [AVERROR(ENOMEM)]. *)
Definition EINVAL : Z := 22.
Definition ENOMEM : Z := 12.
Definition AVERROR (e : Z) : Z := - e.

(** ** C floating-point arithmetic

    The operations the source file uses on [float] and [double].  A decimal
    constant of the source is kept as the rational it denotes and turned into
    a [double] ([d_lit]) or, with the suffix [f], into a [float] ([f_lit]).
    [f_to_int] is the conversion of a [float] to [int], truncation toward
    zero; where C leaves the conversion undefined (a NaN, a value outside
    [int]) the instances below return [INT_MIN], as the x86 conversion
    instructions do. *)

Class CFloat := {
  float : Type;
  double : Type;
  f_lit : Q -> float;
  d_lit : Q -> double;
  f_of_int : Z -> float;
  d_of_int : Z -> double;
  d_of_f : float -> double;
  f_of_d : double -> float;
  f_to_int : float -> Z;
  f_add : float -> float -> float;
  f_sub : float -> float -> float;
  f_mul : float -> float -> float;
  f_neg : float -> float;
  f_ltb : float -> float -> bool;
  f_leb : float -> float -> bool;
  d_add : double -> double -> double;
  d_sub : double -> double -> double;
  d_mul : double -> double -> double;
  d_div : double -> double -> double
}.

Arguments f_lit {_} q%_Q.
Arguments d_lit {_} q%_Q.

Declare Scope cfloat_scope.
Delimit Scope cfloat_scope with cf.

(** [float] with [float], in single precision. *)
Notation "a +! b" := (f_add a b) (at level 50, left associativity) : cfloat_scope.
Notation "a -! b" := (f_sub a b) (at level 50, left associativity) : cfloat_scope.
Notation "a *! b" := (f_mul a b) (at level 40, left associativity) : cfloat_scope.
(** [double] with [double]. *)
Notation "a +^ b" := (d_add a b) (at level 50, left associativity) : cfloat_scope.
Notation "a -^ b" := (d_sub a b) (at level 50, left associativity) : cfloat_scope.
Notation "a *^ b" := (d_mul a b) (at level 40, left associativity) : cfloat_scope.
(** [dbl] is the usual arithmetic conversion of a [float] operand next to a
    [double] one, [flt] the conversion on assignment to a [float] object. *)
Abbreviation dbl := d_of_f (only parsing).
Abbreviation flt := f_of_d (only parsing).

(** [FFABS(a)] is [((a) >= 0 ? (a) : (-(a)))]. *)
Definition FFABS `{CFloat} (a : float) : float :=
  if f_leb (f_of_int 0) a then a else f_neg a.

(** ** The 1D transforms

    [fdct8_line] is one iteration of the loop of [fdct8_1d]: [s k] stands for
    [src[k*src_stridea]] and the result lists what is stored to
    [dst[0*dst_stridea]], [dst[1*dst_stridea]], ...  In the inverse
    transforms [d k] stands for [(add ? dst[k*dst_stridea] : 0)].  A constant
    written [-c*x] in the source is the product of the constant [-c]. *)

Section Transform1D.
Context `{CFloat}.
Local Open Scope cfloat_scope.

Definition fdct8_line (s : Z -> float) : list float :=
  let x00 := s 0 +! s 7 in
  let x01 := s 1 +! s 6 in
  let x02 := s 2 +! s 5 in
  let x03 := s 3 +! s 4 in
  let x04 := s 0 -! s 7 in
  let x05 := s 1 -! s 6 in
  let x06 := s 2 -! s 5 in
  let x07 := s 3 -! s 4 in
  let x08 := x00 +! x03 in
  let x09 := x01 +! x02 in
  let x0a := x00 -! x03 in
  let x0b := x01 -! x02 in
  let x0c := flt (d_lit 1.38703984532215 *^ dbl x04 +^ d_lit 0.275899379282943 *^ dbl x07) in
  let x0d := flt (d_lit 1.17587560241936 *^ dbl x05 +^ d_lit 0.785694958387102 *^ dbl x06) in
  let x0e := flt (d_lit (-0.785694958387102) *^ dbl x05 +^ d_lit 1.17587560241936 *^ dbl x06) in
  let x0f := flt (d_lit 0.275899379282943 *^ dbl x04 -^ d_lit 1.38703984532215 *^ dbl x07) in
  let x10 := flt (d_lit 0.353553390593274 *^ dbl (x0c -! x0d)) in
  let x11 := flt (d_lit 0.353553390593274 *^ dbl (x0e -! x0f)) in
  [ flt (d_lit 0.353553390593274 *^ dbl (x08 +! x09));
    flt (d_lit 0.353553390593274 *^ dbl (x0c +! x0d));
    flt (d_lit 0.461939766255643 *^ dbl x0a +^ d_lit 0.191341716182545 *^ dbl x0b);
    flt (d_lit 0.707106781186547 *^ dbl (x10 -! x11));
    flt (d_lit 0.353553390593274 *^ dbl (x08 -! x09));
    flt (d_lit 0.707106781186547 *^ dbl (x10 +! x11));
    flt (d_lit 0.191341716182545 *^ dbl x0a -^ d_lit 0.461939766255643 *^ dbl x0b);
    flt (d_lit 0.353553390593274 *^ dbl (x0e +! x0f)) ].

Definition idct8_line (d s : Z -> float) : list float :=
  let x00 := flt (d_lit 1.4142135623731 *^ dbl (s 0)) in
  let x01 := flt (d_lit 1.38703984532215 *^ dbl (s 1) +^ d_lit 0.275899379282943 *^ dbl (s 7)) in
  let x02 := flt (d_lit 1.30656296487638 *^ dbl (s 2) +^ d_lit 0.541196100146197 *^ dbl (s 6)) in
  let x03 := flt (d_lit 1.17587560241936 *^ dbl (s 3) +^ d_lit 0.785694958387102 *^ dbl (s 5)) in
  let x04 := flt (d_lit 1.4142135623731 *^ dbl (s 4)) in
  let x05 := flt (d_lit (-0.785694958387102) *^ dbl (s 3) +^ d_lit 1.17587560241936 *^ dbl (s 5)) in
  let x06 := flt (d_lit 0.541196100146197 *^ dbl (s 2) -^ d_lit 1.30656296487638 *^ dbl (s 6)) in
  let x07 := flt (d_lit (-0.275899379282943) *^ dbl (s 1) +^ d_lit 1.38703984532215 *^ dbl (s 7)) in
  let x09 := x00 +! x04 in
  let x0a := x01 +! x03 in
  let x0b := flt (d_lit 1.4142135623731 *^ dbl x02) in
  let x0c := x00 -! x04 in
  let x0d := x01 -! x03 in
  let x0e := flt (d_lit 0.353553390593274 *^ dbl (x09 -! x0b)) in
  let x0f := flt (d_lit 0.353553390593274 *^ dbl (x0c +! x0d)) in
  let x10 := flt (d_lit 0.353553390593274 *^ dbl (x0c -! x0d)) in
  let x11 := flt (d_lit 1.4142135623731 *^ dbl x06) in
  let x12 := x05 +! x07 in
  let x13 := x05 -! x07 in
  let x14 := flt (d_lit 0.353553390593274 *^ dbl (x11 +! x12)) in
  let x15 := flt (d_lit 0.353553390593274 *^ dbl (x11 -! x12)) in
  let x16 := flt (d_lit 0.5 *^ dbl x13) in
  let x08 := f_neg x15 in
  [ flt (dbl (d 0) +^ d_lit 0.25 *^ dbl (x09 +! x0b) +^ d_lit 0.353553390593274 *^ dbl x0a);
    flt (dbl (d 1) +^ d_lit 0.707106781186547 *^ dbl (x0f -! x08));
    flt (dbl (d 2) +^ d_lit 0.707106781186547 *^ dbl (x0f +! x08));
    flt (dbl (d 3) +^ d_lit 0.707106781186547 *^ dbl (x0e +! x16));
    flt (dbl (d 4) +^ d_lit 0.707106781186547 *^ dbl (x0e -! x16));
    flt (dbl (d 5) +^ d_lit 0.707106781186547 *^ dbl (x10 -! x14));
    flt (dbl (d 6) +^ d_lit 0.707106781186547 *^ dbl (x10 +! x14));
    flt (dbl (d 7) +^ d_lit 0.25 *^ dbl (x09 +! x0b) -^ d_lit 0.353553390593274 *^ dbl x0a) ].

Definition fdct16_line (s : Z -> float) : list float :=
  let x00 := s 0 +! s 15 in
  let x01 := s 1 +! s 14 in
  let x02 := s 2 +! s 13 in
  let x03 := s 3 +! s 12 in
  let x04 := s 4 +! s 11 in
  let x05 := s 5 +! s 10 in
  let x06 := s 6 +! s 9 in
  let x07 := s 7 +! s 8 in
  let x08 := s 0 -! s 15 in
  let x09 := s 1 -! s 14 in
  let x0a := s 2 -! s 13 in
  let x0b := s 3 -! s 12 in
  let x0c := s 4 -! s 11 in
  let x0d := s 5 -! s 10 in
  let x0e := s 6 -! s 9 in
  let x0f := s 7 -! s 8 in
  let x10 := x00 +! x07 in
  let x11 := x01 +! x06 in
  let x12 := x02 +! x05 in
  let x13 := x03 +! x04 in
  let x14 := x00 -! x07 in
  let x15 := x01 -! x06 in
  let x16 := x02 -! x05 in
  let x17 := x03 -! x04 in
  let x18 := x10 +! x13 in
  let x19 := x11 +! x12 in
  let x1a := x10 -! x13 in
  let x1b := x11 -! x12 in
  let x1c := flt (d_lit 1.38703984532215 *^ dbl x14 +^ d_lit 0.275899379282943 *^ dbl x17) in
  let x1d := flt (d_lit 1.17587560241936 *^ dbl x15 +^ d_lit 0.785694958387102 *^ dbl x16) in
  let x1e := flt (d_lit (-0.785694958387102) *^ dbl x15 +^ d_lit 1.17587560241936 *^ dbl x16) in
  let x1f := flt (d_lit 0.275899379282943 *^ dbl x14 -^ d_lit 1.38703984532215 *^ dbl x17) in
  let x20 := flt (d_lit 0.25 *^ dbl (x1c -! x1d)) in
  let x21 := flt (d_lit 0.25 *^ dbl (x1e -! x1f)) in
  let x22 := flt (d_lit 1.40740373752638 *^ dbl x08 +^ d_lit 0.138617169199091 *^ dbl x0f) in
  let x23 := flt (d_lit 1.35331800117435 *^ dbl x09 +^ d_lit 0.410524527522357 *^ dbl x0e) in
  let x24 := flt (d_lit 1.24722501298667 *^ dbl x0a +^ d_lit 0.666655658477747 *^ dbl x0d) in
  let x25 := flt (d_lit 1.09320186700176 *^ dbl x0b +^ d_lit 0.897167586342636 *^ dbl x0c) in
  let x26 := flt (d_lit (-0.897167586342636) *^ dbl x0b +^ d_lit 1.09320186700176 *^ dbl x0c) in
  let x27 := flt (d_lit 0.666655658477747 *^ dbl x0a -^ d_lit 1.24722501298667 *^ dbl x0d) in
  let x28 := flt (d_lit (-0.410524527522357) *^ dbl x09 +^ d_lit 1.35331800117435 *^ dbl x0e) in
  let x29 := flt (d_lit 0.138617169199091 *^ dbl x08 -^ d_lit 1.40740373752638 *^ dbl x0f) in
  let x2a := x22 +! x25 in
  let x2b := x23 +! x24 in
  let x2c := x22 -! x25 in
  let x2d := x23 -! x24 in
  let x2e := flt (d_lit 0.25 *^ dbl (x2a -! x2b)) in
  let x2f := flt (d_lit 0.326640741219094 *^ dbl x2c +^ d_lit 0.135299025036549 *^ dbl x2d) in
  let x30 := flt (d_lit 0.135299025036549 *^ dbl x2c -^ d_lit 0.326640741219094 *^ dbl x2d) in
  let x31 := x26 +! x29 in
  let x32 := x27 +! x28 in
  let x33 := x26 -! x29 in
  let x34 := x27 -! x28 in
  let x35 := flt (d_lit 0.25 *^ dbl (x31 -! x32)) in
  let x36 := flt (d_lit 0.326640741219094 *^ dbl x33 +^ d_lit 0.135299025036549 *^ dbl x34) in
  let x37 := flt (d_lit 0.135299025036549 *^ dbl x33 -^ d_lit 0.326640741219094 *^ dbl x34) in
  [ flt (d_lit 0.25 *^ dbl (x18 +! x19));
    flt (d_lit 0.25 *^ dbl (x2a +! x2b));
    flt (d_lit 0.25 *^ dbl (x1c +! x1d));
    flt (d_lit 0.707106781186547 *^ dbl (x2f -! x37));
    flt (d_lit 0.326640741219094 *^ dbl x1a +^ d_lit 0.135299025036549 *^ dbl x1b);
    flt (d_lit 0.707106781186547 *^ dbl (x2f +! x37));
    flt (d_lit 0.707106781186547 *^ dbl (x20 -! x21));
    flt (d_lit 0.707106781186547 *^ dbl (x2e +! x35));
    flt (d_lit 0.25 *^ dbl (x18 -! x19));
    flt (d_lit 0.707106781186547 *^ dbl (x2e -! x35));
    flt (d_lit 0.707106781186547 *^ dbl (x20 +! x21));
    flt (d_lit 0.707106781186547 *^ dbl (x30 -! x36));
    flt (d_lit 0.135299025036549 *^ dbl x1a -^ d_lit 0.326640741219094 *^ dbl x1b);
    flt (d_lit 0.707106781186547 *^ dbl (x30 +! x36));
    flt (d_lit 0.25 *^ dbl (x1e +! x1f));
    flt (d_lit 0.25 *^ dbl (x31 +! x32)) ].

Definition idct16_line (d s : Z -> float) : list float :=
  let x00 := flt (d_lit 1.4142135623731 *^ dbl (s 0)) in
  let x01 := flt (d_lit 1.40740373752638 *^ dbl (s 1) +^ d_lit 0.138617169199091 *^ dbl (s 15)) in
  let x02 := flt (d_lit 1.38703984532215 *^ dbl (s 2) +^ d_lit 0.275899379282943 *^ dbl (s 14)) in
  let x03 := flt (d_lit 1.35331800117435 *^ dbl (s 3) +^ d_lit 0.410524527522357 *^ dbl (s 13)) in
  let x04 := flt (d_lit 1.30656296487638 *^ dbl (s 4) +^ d_lit 0.541196100146197 *^ dbl (s 12)) in
  let x05 := flt (d_lit 1.24722501298667 *^ dbl (s 5) +^ d_lit 0.666655658477747 *^ dbl (s 11)) in
  let x06 := flt (d_lit 1.17587560241936 *^ dbl (s 6) +^ d_lit 0.785694958387102 *^ dbl (s 10)) in
  let x07 := flt (d_lit 1.09320186700176 *^ dbl (s 7) +^ d_lit 0.897167586342636 *^ dbl (s 9)) in
  let x08 := flt (d_lit 1.4142135623731 *^ dbl (s 8)) in
  let x09 := flt (d_lit (-0.897167586342636) *^ dbl (s 7) +^ d_lit 1.09320186700176 *^ dbl (s 9)) in
  let x0a := flt (d_lit 0.785694958387102 *^ dbl (s 6) -^ d_lit 1.17587560241936 *^ dbl (s 10)) in
  let x0b := flt (d_lit (-0.666655658477747) *^ dbl (s 5) +^ d_lit 1.24722501298667 *^ dbl (s 11)) in
  let x0c := flt (d_lit 0.541196100146197 *^ dbl (s 4) -^ d_lit 1.30656296487638 *^ dbl (s 12)) in
  let x0d := flt (d_lit (-0.410524527522357) *^ dbl (s 3) +^ d_lit 1.35331800117435 *^ dbl (s 13)) in
  let x0e := flt (d_lit 0.275899379282943 *^ dbl (s 2) -^ d_lit 1.38703984532215 *^ dbl (s 14)) in
  let x0f := flt (d_lit (-0.138617169199091) *^ dbl (s 1) +^ d_lit 1.40740373752638 *^ dbl (s 15)) in
  let x12 := x00 +! x08 in
  let x13 := x01 +! x07 in
  let x14 := x02 +! x06 in
  let x15 := x03 +! x05 in
  let x16 := flt (d_lit 1.4142135623731 *^ dbl x04) in
  let x17 := x00 -! x08 in
  let x18 := x01 -! x07 in
  let x19 := x02 -! x06 in
  let x1a := x03 -! x05 in
  let x1d := x12 +! x16 in
  let x1e := x13 +! x15 in
  let x1f := flt (d_lit 1.4142135623731 *^ dbl x14) in
  let x20 := x12 -! x16 in
  let x21 := x13 -! x15 in
  let x22 := flt (d_lit 0.25 *^ dbl (x1d -! x1f)) in
  let x23 := flt (d_lit 0.25 *^ dbl (x20 +! x21)) in
  let x24 := flt (d_lit 0.25 *^ dbl (x20 -! x21)) in
  let x25 := flt (d_lit 1.4142135623731 *^ dbl x17) in
  let x26 := flt (d_lit 1.30656296487638 *^ dbl x18 +^ d_lit 0.541196100146197 *^ dbl x1a) in
  let x27 := flt (d_lit 1.4142135623731 *^ dbl x19) in
  let x28 := flt (d_lit (-0.541196100146197) *^ dbl x18 +^ d_lit 1.30656296487638 *^ dbl x1a) in
  let x29 := flt (d_lit 0.176776695296637 *^ dbl (x25 +! x27) +^ d_lit 0.25 *^ dbl x26) in
  let x2a := flt (d_lit 0.25 *^ dbl (x25 -! x27)) in
  let x2b := flt (d_lit 0.176776695296637 *^ dbl (x25 +! x27) -^ d_lit 0.25 *^ dbl x26) in
  let x2c := flt (d_lit 0.353553390593274 *^ dbl x28) in
  let x1b := flt (d_lit 0.707106781186547 *^ dbl (x2a -! x2c)) in
  let x1c := flt (d_lit 0.707106781186547 *^ dbl (x2a +! x2c)) in
  let x2d := flt (d_lit 1.4142135623731 *^ dbl x0c) in
  let x2e := x0b +! x0d in
  let x2f := x0a +! x0e in
  let x30 := x09 +! x0f in
  let x31 := x09 -! x0f in
  let x32 := x0a -! x0e in
  let x33 := x0b -! x0d in
  let x37 := flt (d_lit 1.4142135623731 *^ dbl x2d) in
  let x38 := flt (d_lit 1.30656296487638 *^ dbl x2e +^ d_lit 0.541196100146197 *^ dbl x30) in
  let x39 := flt (d_lit 1.4142135623731 *^ dbl x2f) in
  let x3a := flt (d_lit (-0.541196100146197) *^ dbl x2e +^ d_lit 1.30656296487638 *^ dbl x30) in
  let x3b := flt (d_lit 0.176776695296637 *^ dbl (x37 +! x39) +^ d_lit 0.25 *^ dbl x38) in
  let x3c := flt (d_lit 0.25 *^ dbl (x37 -! x39)) in
  let x3d := flt (d_lit 0.176776695296637 *^ dbl (x37 +! x39) -^ d_lit 0.25 *^ dbl x38) in
  let x3e := flt (d_lit 0.353553390593274 *^ dbl x3a) in
  let x34 := flt (d_lit 0.707106781186547 *^ dbl (x3c -! x3e)) in
  let x35 := flt (d_lit 0.707106781186547 *^ dbl (x3c +! x3e)) in
  let x3f := flt (d_lit 1.4142135623731 *^ dbl x32) in
  let x40 := x31 +! x33 in
  let x41 := x31 -! x33 in
  let x42 := flt (d_lit 0.25 *^ dbl (x3f +! x40)) in
  let x43 := flt (d_lit 0.25 *^ dbl (x3f -! x40)) in
  let x44 := flt (d_lit 0.353553390593274 *^ dbl x41) in
  let x36 := f_neg x43 in
  let x10 := f_neg x34 in
  let x11 := f_neg x3d in
  [ flt (dbl (d 0) +^ d_lit 0.176776695296637 *^ dbl (x1d +! x1f) +^ d_lit 0.25 *^ dbl x1e);
    flt (dbl (d 1) +^ d_lit 0.707106781186547 *^ dbl (x29 -! x11));
    flt (dbl (d 2) +^ d_lit 0.707106781186547 *^ dbl (x29 +! x11));
    flt (dbl (d 3) +^ d_lit 0.707106781186547 *^ dbl (x23 +! x36));
    flt (dbl (d 4) +^ d_lit 0.707106781186547 *^ dbl (x23 -! x36));
    flt (dbl (d 5) +^ d_lit 0.707106781186547 *^ dbl (x1b -! x35));
    flt (dbl (d 6) +^ d_lit 0.707106781186547 *^ dbl (x1b +! x35));
    flt (dbl (d 7) +^ d_lit 0.707106781186547 *^ dbl (x22 +! x44));
    flt (dbl (d 8) +^ d_lit 0.707106781186547 *^ dbl (x22 -! x44));
    flt (dbl (d 9) +^ d_lit 0.707106781186547 *^ dbl (x1c -! x10));
    flt (dbl (d 10) +^ d_lit 0.707106781186547 *^ dbl (x1c +! x10));
    flt (dbl (d 11) +^ d_lit 0.707106781186547 *^ dbl (x24 +! x42));
    flt (dbl (d 12) +^ d_lit 0.707106781186547 *^ dbl (x24 -! x42));
    flt (dbl (d 13) +^ d_lit 0.707106781186547 *^ dbl (x2b -! x3b));
    flt (dbl (d 14) +^ d_lit 0.707106781186547 *^ dbl (x2b +! x3b));
    flt (dbl (d 15) +^ d_lit 0.176776695296637 *^ dbl (x1d +! x1f) -^ d_lit 0.25 *^ dbl x1e) ].

End Transform1D.


(** ** Buffers and loops

    A C pointer is a buffer together with an offset.  A read outside the
    buffer yields the default value and a write outside it is dropped (both
    are undefined in C). *)

Definition rd {A : Type} (dflt : A) (buf : list A) (i : Z) : A :=
  if i <? 0 then dflt else default dflt (buf !! Z.to_nat i).

Definition wr {A : Type} (buf : list A) (i : Z) (v : A) : list A :=
  if i <? 0 then buf else <[Z.to_nat i := v]> buf.

(** The values [i] taken by [for (i = start; i < limit; i += step)]. *)
Fixpoint for_steps (fuel : nat) (i limit step : Z) : list Z :=
  match fuel with
  | O => []
  | S fuel' => if i <? limit then i :: for_steps fuel' (i + step) limit step else []
  end.

(** The block origins [0, step, 2*step, ...] below [limit]; with [step >= 1]
    the loop ends within [limit] iterations. *)
Definition block_positions (limit step : Z) : list Z :=
  for_steps (Z.to_nat limit) 0 limit step.

(** [for (i = 0; i < n; i++)]. *)
Definition upto (n : Z) : list Z := seqZ 0 n.

Definition for_each {S : Type} (l : list Z) (body : Z -> S -> S) (st : S) : S :=
  fold_left (fun st i => body i st) l st.

(** [memcpy(dst + doff, src + soff, n)]: the length is a [size_t], so a
    negative [int] length asks for more bytes than any object has. *)
Definition memcpy (dst : list Z) (doff : Z) (src : list Z) (soff : Z) (n : Z)
  : option (list Z) :=
  if n <? 0 then None
  else Some (for_each (upto n) (fun k d => wr d (doff + k) (rd 0 src (soff + k))) dst).

(** The sweep of [filter_plane] over the block origins: the routine [block]
    is called with [src + x] and [dst + x] after [src] and [dst] have
    advanced by [y] lines. *)
Definition block_sums {S D : Type} (bsize step : Z)
    (block : list S -> Z -> Z -> list D -> Z -> Z -> list D)
    (dst : list D) (dst_linesize : Z) (src : list S) (src_linesize : Z)
    (w h : Z) : list D :=
  for_each (block_positions (h - bsize + 1) step) (fun y =>
    for_each (block_positions (w - bsize + 1) step) (fun x dst =>
      block src (y * src_linesize + x) src_linesize
            dst (y * dst_linesize + x) dst_linesize))
    dst.

(** ** Strided transforms and the frequency filter *)

Inductive block_size := BS8 | BS16.

Definition bsize_of (b : block_size) : Z :=
  match b with BS8 => 8 | BS16 => 16 end.

Section Engine.
Context `{CFloat}.
(** The expression evaluator of libavutil is outside this file:
    [av_expr_parse] gives the return code and the expression it stores,
    [av_expr_eval] evaluates it on the array [var_values]. *)
Context {AVExpr : Type}.
Variable av_expr_parse : string -> Z * option AVExpr.
Variable av_expr_eval : AVExpr -> list double -> double.
Local Open Scope cfloat_scope.

Definition fzero : float := f_of_int 0.

(** Stores [vals] to [dst[off + k*stridea]] for [k = 0, 1, ...]. *)
Fixpoint store_line (dst : list float) (off stridea k : Z) (vals : list float)
  : list float :=
  match vals with
  | [] => dst
  | v :: vals' => store_line (wr dst (off + k * stridea) v) off stridea (k + 1) vals'
  end.

Definition fdct_line (b : block_size) : (Z -> float) -> list float :=
  match b with BS8 => fdct8_line | BS16 => fdct16_line end.

Definition idct_line (b : block_size) : (Z -> float) -> (Z -> float) -> list float :=
  match b with BS8 => idct8_line | BS16 => idct16_line end.

(** [fdct8_1d] and [fdct16_1d]: line [i] starts at [src + i*src_strideb] and
    goes to [dst + i*dst_strideb]. *)
Definition fdct_1d (b : block_size) (dst : list float) (doff : Z)
    (src : list float) (soff : Z)
    (dst_stridea dst_strideb src_stridea src_strideb : Z) : list float :=
  for_each (upto (bsize_of b))
    (fun i dst =>
       store_line dst (doff + i * dst_strideb) dst_stridea 0
         (fdct_line b (fun k => rd fzero src (soff + i * src_strideb + k * src_stridea))))
    dst.

(** [idct8_1d] and [idct16_1d]; with [add] the line is accumulated into the
    destination. *)
Definition idct_1d (b : block_size) (dst : list float) (doff : Z)
    (src : list float) (soff : Z)
    (dst_stridea dst_strideb src_stridea src_strideb : Z) (add : bool) : list float :=
  for_each (upto (bsize_of b))
    (fun i dst =>
       store_line dst (doff + i * dst_strideb) dst_stridea 0
         (idct_line b
            (fun k => if add then rd fzero dst (doff + i * dst_strideb + k * dst_stridea)
                      else f_of_int 0)
            (fun k => rd fzero src (soff + i * src_strideb + k * src_stridea))))
    dst.

(** The frequency filtering of one coefficient [*b]: with an expression,
    [var_values[VAR_C] = FFABS( *b ); *b *= av_expr_eval(...)]; without,
    [if (FFABS( *b ) < sigma_th) *b = 0], where [sigma_th] is an [int]. *)
Definition filter_coeff (expr : option AVExpr) (sigma_th : Z) (c : float) : float :=
  match expr with
  | Some e => flt (dbl c *^ av_expr_eval e [dbl (FFABS c)])
  | None => if f_ltb (FFABS c) (f_of_int sigma_th) then f_of_int 0 else c
  end.

(** [filter_freq_8] and [filter_freq_16], the two expansions of
    [DEF_FILTER_FREQ_FUNCS]. *)
Definition filter_freq (b : block_size) (src : list float) (soff src_linesize : Z)
    (dst : list float) (doff dst_linesize : Z)
    (expr : option AVExpr) (sigma_th : Z) : list float :=
  let bsize := bsize_of b in
  let tmp_block1 := replicate (Z.to_nat (bsize * bsize)) fzero in
  let tmp_block2 := replicate (Z.to_nat (bsize * bsize)) fzero in
  (* forward DCT *)
  let tmp_block1 := fdct_1d b tmp_block1 0 src soff 1 bsize 1 src_linesize in
  let tmp_block2 := fdct_1d b tmp_block2 0 tmp_block1 0 bsize 1 bsize 1 in
  (* frequency filtering *)
  let tmp_block2 := map (filter_coeff expr sigma_th) tmp_block2 in
  (* inverse DCT *)
  let tmp_block1 := idct_1d b tmp_block1 0 tmp_block2 0 1 bsize 1 bsize false in
  idct_1d b dst doff tmp_block1 0 dst_linesize 1 bsize 1 true.

(** ** The filter context *)

Inductive filter_freq_ptr :=
  | filter_freq_sigma_8 | filter_freq_sigma_16
  | filter_freq_expr_8 | filter_freq_expr_16.

(** The two expansions of [DECLARE_COLOR_FUNCS]. *)
Inductive color_ptr := color_rgb | color_bgr.

Record DCTdnoizContext := {
  expr_str : option string;
  expr : option AVExpr;
  pr_width : Z;
  pr_height : Z;
  sigma : float;
  th : float;
  cbuf : list (list (list float));
  weights : list float;
  p_linesize : Z;
  overlap : Z;
  step : Z;
  n : Z;
  bsize : Z;
  filter_freq_func : option filter_freq_ptr;
  color_decorrelation : option color_ptr;
  color_correlation : option color_ptr
}.

Definition set_expr (v : option AVExpr) (s : DCTdnoizContext) :=
  {| expr_str := expr_str s; expr := v; pr_width := pr_width s;
     pr_height := pr_height s; sigma := sigma s; th := th s; cbuf := cbuf s;
     weights := weights s; p_linesize := p_linesize s; overlap := overlap s;
     step := step s; n := n s; bsize := bsize s;
     filter_freq_func := filter_freq_func s;
     color_decorrelation := color_decorrelation s;
     color_correlation := color_correlation s |}.

Definition set_geometry (w h linesize : Z) (s : DCTdnoizContext) :=
  {| expr_str := expr_str s; expr := expr s; pr_width := w;
     pr_height := h; sigma := sigma s; th := th s; cbuf := cbuf s;
     weights := weights s; p_linesize := linesize; overlap := overlap s;
     step := step s; n := n s; bsize := bsize s;
     filter_freq_func := filter_freq_func s;
     color_decorrelation := color_decorrelation s;
     color_correlation := color_correlation s |}.

Definition set_th (v : float) (s : DCTdnoizContext) :=
  {| expr_str := expr_str s; expr := expr s; pr_width := pr_width s;
     pr_height := pr_height s; sigma := sigma s; th := v; cbuf := cbuf s;
     weights := weights s; p_linesize := p_linesize s; overlap := overlap s;
     step := step s; n := n s; bsize := bsize s;
     filter_freq_func := filter_freq_func s;
     color_decorrelation := color_decorrelation s;
     color_correlation := color_correlation s |}.

Definition set_cbuf (v : list (list (list float))) (s : DCTdnoizContext) :=
  {| expr_str := expr_str s; expr := expr s; pr_width := pr_width s;
     pr_height := pr_height s; sigma := sigma s; th := th s; cbuf := v;
     weights := weights s; p_linesize := p_linesize s; overlap := overlap s;
     step := step s; n := n s; bsize := bsize s;
     filter_freq_func := filter_freq_func s;
     color_decorrelation := color_decorrelation s;
     color_correlation := color_correlation s |}.

Definition set_weights (v : list float) (s : DCTdnoizContext) :=
  {| expr_str := expr_str s; expr := expr s; pr_width := pr_width s;
     pr_height := pr_height s; sigma := sigma s; th := th s; cbuf := cbuf s;
     weights := v; p_linesize := p_linesize s; overlap := overlap s;
     step := step s; n := n s; bsize := bsize s;
     filter_freq_func := filter_freq_func s;
     color_decorrelation := color_decorrelation s;
     color_correlation := color_correlation s |}.

Definition set_overlap (v : Z) (s : DCTdnoizContext) :=
  {| expr_str := expr_str s; expr := expr s; pr_width := pr_width s;
     pr_height := pr_height s; sigma := sigma s; th := th s; cbuf := cbuf s;
     weights := weights s; p_linesize := p_linesize s; overlap := v;
     step := step s; n := n s; bsize := bsize s;
     filter_freq_func := filter_freq_func s;
     color_decorrelation := color_decorrelation s;
     color_correlation := color_correlation s |}.

Definition set_step (v : Z) (s : DCTdnoizContext) :=
  {| expr_str := expr_str s; expr := expr s; pr_width := pr_width s;
     pr_height := pr_height s; sigma := sigma s; th := th s; cbuf := cbuf s;
     weights := weights s; p_linesize := p_linesize s; overlap := overlap s;
     step := v; n := n s; bsize := bsize s;
     filter_freq_func := filter_freq_func s;
     color_decorrelation := color_decorrelation s;
     color_correlation := color_correlation s |}.

Definition set_bsize (v : Z) (s : DCTdnoizContext) :=
  {| expr_str := expr_str s; expr := expr s; pr_width := pr_width s;
     pr_height := pr_height s; sigma := sigma s; th := th s; cbuf := cbuf s;
     weights := weights s; p_linesize := p_linesize s; overlap := overlap s;
     step := step s; n := n s; bsize := v;
     filter_freq_func := filter_freq_func s;
     color_decorrelation := color_decorrelation s;
     color_correlation := color_correlation s |}.

Definition set_filter_freq_func (v : filter_freq_ptr) (s : DCTdnoizContext) :=
  {| expr_str := expr_str s; expr := expr s; pr_width := pr_width s;
     pr_height := pr_height s; sigma := sigma s; th := th s; cbuf := cbuf s;
     weights := weights s; p_linesize := p_linesize s; overlap := overlap s;
     step := step s; n := n s; bsize := bsize s;
     filter_freq_func := Some v;
     color_decorrelation := color_decorrelation s;
     color_correlation := color_correlation s |}.

Definition set_color_funcs (v : color_ptr) (s : DCTdnoizContext) :=
  {| expr_str := expr_str s; expr := expr s; pr_width := pr_width s;
     pr_height := pr_height s; sigma := sigma s; th := th s; cbuf := cbuf s;
     weights := weights s; p_linesize := p_linesize s; overlap := overlap s;
     step := step s; n := n s; bsize := bsize s;
     filter_freq_func := filter_freq_func s;
     color_decorrelation := Some v;
     color_correlation := Some v |}.

(** The context that [init] receives: zeroed by libavfilter, then the
    options [sigma], [overlap], [expr] and [n] set from [dctdnoiz_options]
    (defaults 0, -1, NULL and 3). *)
Definition with_options (sigma_opt : float) (overlap_opt : Z)
    (expr_opt : option string) (n_opt : Z) : DCTdnoizContext :=
  {| expr_str := expr_opt; expr := None; pr_width := 0; pr_height := 0;
     sigma := sigma_opt; th := f_of_int 0; cbuf := []; weights := [];
     p_linesize := 0; overlap := overlap_opt; step := 0; n := n_opt; bsize := 0;
     filter_freq_func := None; color_decorrelation := None;
     color_correlation := None |}.

(** What a callback of the filter does: it returns an [int] and leaves the
    context in some state, or it stops the process in [av_assert0]. *)
Inductive result :=
  | Ret (code : Z) (s : DCTdnoizContext)
  | Abort.

(** The four entry points that [filter_freq_func] can point to.  The
    threshold [s->th] is a [float]; the parameter [sigma_th] that receives
    it is declared [int]. *)
Definition filter_freq_sigma (b : block_size) (s : DCTdnoizContext)
    (src : list float) (soff src_linesize : Z)
    (dst : list float) (doff dst_linesize : Z) : list float :=
  filter_freq b src soff src_linesize dst doff dst_linesize None (f_to_int (th s)).

Definition filter_freq_expr (b : block_size) (s : DCTdnoizContext)
    (src : list float) (soff src_linesize : Z)
    (dst : list float) (doff dst_linesize : Z) : list float :=
  filter_freq b src soff src_linesize dst doff dst_linesize (expr s) 0.

Definition call_filter_freq_func (f : filter_freq_ptr) :=
  match f with
  | filter_freq_sigma_8 => filter_freq_sigma BS8
  | filter_freq_sigma_16 => filter_freq_sigma BS16
  | filter_freq_expr_8 => filter_freq_expr BS8
  | filter_freq_expr_16 => filter_freq_expr BS16
  end.

(** ** [init] *)

(** [s->bsize = 1 << s->n; if (s->overlap == -1) s->overlap = s->bsize - 1;] *)
Definition init_block (s : DCTdnoizContext) : DCTdnoizContext :=
  let s := set_bsize (CInt.shl 1 (n s)) s in
  if overlap s =? -1 then set_overlap (CInt.sub (bsize s) 1) s else s.

(** [s->th = s->sigma * 3.; s->step = s->bsize - s->overlap; return 0;] *)
Definition init_tail (s : DCTdnoizContext) : result :=
  let s := set_th (flt (dbl (sigma s) *^ d_lit 3)) s in
  let s := set_step (CInt.sub (bsize s) (overlap s)) s in
  Ret 0 s.

(** Each of the two [switch (s->n)], followed by the end of the function. *)
Definition init_select (f8 f16 : filter_freq_ptr) (s : DCTdnoizContext) : result :=
  if n s =? 3 then init_tail (set_filter_freq_func f8 s)
  else if n s =? 4 then init_tail (set_filter_freq_func f16 s)
  else Abort.

Definition init (s : DCTdnoizContext) : result :=
  let s := init_block s in
  if overlap s >? CInt.sub (bsize s) 1 then Ret (AVERROR EINVAL) s
  else
    match expr_str s with
    | Some str =>
        let (ret, e) := av_expr_parse str in
        let s := set_expr e s in
        if ret <? 0 then Ret ret s
        else init_select filter_freq_expr_8 filter_freq_expr_16 s
    | None => init_select filter_freq_sigma_8 filter_freq_sigma_16 s
    end.

(** ** [config_input] *)

Inductive AVPixelFormat := AV_PIX_FMT_BGR24 | AV_PIX_FMT_RGB24 | AV_PIX_FMT_other.

Record AVFilterLink := { format : AVPixelFormat; w : Z; h : Z }.

(** [av_malloc] of [count] elements; the content is indeterminate in C, and
    the allocation is taken to succeed. *)
Definition av_malloc {A : Type} (fill : A) (count : Z) : list A :=
  replicate (Z.to_nat count) fill.

(** [iweights[i]++]; a counter never exceeds [bsize*bsize]. *)
Definition incr (iweights : list Z) (i : Z) : list Z :=
  wr iweights i (rd 0 iweights i + 1).

(** The four nested loops that count, for every pixel, the blocks covering
    it. *)
Definition count_blocks (bsize step pr_width pr_height linesize : Z)
    (iweights : list Z) : list Z :=
  for_each (block_positions (pr_height - bsize + 1) step) (fun y =>
    for_each (block_positions (pr_width - bsize + 1) step) (fun x =>
      for_each (upto bsize) (fun by_ =>
        for_each (upto bsize) (fun bx iw =>
          incr iw ((y + by_) * linesize + x + bx)))))
    iweights.

(** [s->weights[y*linesize + x] = 1. / iweights[y*linesize + x]]. *)
Definition reciprocals (pr_width pr_height linesize : Z) (iweights : list Z)
    (weights : list float) : list float :=
  for_each (upto pr_height) (fun y =>
    for_each (upto pr_width) (fun x wt =>
      wr wt (y * linesize + x)
         (flt (d_div (d_lit 1) (d_of_int (rd 0 iweights (y * linesize + x)))))))
    weights.

Definition processable (dim bsize step : Z) : Z :=
  CInt.sub dim (CInt.rem (CInt.sub dim bsize) step).

Definition config_input (inlink : AVFilterLink) (s : DCTdnoizContext) : result :=
  let bsize := CInt.shl 1 (n s) in
  let color :=
    match format inlink with
    | AV_PIX_FMT_BGR24 => Some color_bgr
    | AV_PIX_FMT_RGB24 => Some color_rgb
    | AV_PIX_FMT_other => None
    end in
  match color with
  | None => Abort
  | Some c =>
      let s := set_color_funcs c s in
      let prw := processable (w inlink) bsize (step s) in
      let prh := processable (h inlink) bsize (step s) in
      let linesize := FFALIGN prw 32 in
      let s := set_geometry prw prh linesize s in
      let plane := av_malloc fzero (linesize * prh) in
      let s := set_cbuf [[plane; plane; plane]; [plane; plane; plane]] s in
      let wt := av_malloc fzero (prh * linesize) in
      let iweights := av_malloc 0 (prh * linesize) in
      let iweights := count_blocks bsize (step s) prw prh linesize iweights in
      let s := set_weights (reciprocals prw prh linesize iweights wt) s in
      Ret 0 s
  end.

(** ** Colour decorrelation and correlation *)

Definition DCT3X3_0_0 : float := f_lit 0.5773502691896258.
Definition DCT3X3_0_1 : float := f_lit 0.5773502691896258.
Definition DCT3X3_0_2 : float := f_lit 0.5773502691896258.
Definition DCT3X3_1_0 : float := f_lit 0.7071067811865475.
Definition DCT3X3_1_2 : float := f_lit (-0.7071067811865475).
Definition DCT3X3_2_0 : float := f_lit 0.4082482904638631.
Definition DCT3X3_2_1 : float := f_lit (-0.8164965809277261).
Definition DCT3X3_2_2 : float := f_lit 0.4082482904638631.

(** The three values computed for one pixel, from the bytes [srcp[r]],
    [srcp[g]] and [srcp[b]]. *)
Definition decorrelate_pixel (pr pg pb : Z) : float * float * float :=
  (f_of_int pr *! DCT3X3_0_0 +! f_of_int pg *! DCT3X3_0_1 +! f_of_int pb *! DCT3X3_0_2,
   f_of_int pr *! DCT3X3_1_0 +! f_of_int pb *! DCT3X3_1_2,
   f_of_int pr *! DCT3X3_2_0 +! f_of_int pg *! DCT3X3_2_1 +! f_of_int pb *! DCT3X3_2_2).

(** The bytes stored to [dstp[r]], [dstp[g]] and [dstp[b]]: the [float]
    argument is converted to the [int] parameter of [av_clip_uint8]. *)
Definition correlate_pixel (sr sg sb : float) : Z * Z * Z :=
  (av_clip_uint8 (f_to_int (sr *! DCT3X3_0_0 +! sg *! DCT3X3_1_0 +! sb *! DCT3X3_2_0)),
   av_clip_uint8 (f_to_int (sr *! DCT3X3_0_1 +! sb *! DCT3X3_2_1)),
   av_clip_uint8 (f_to_int (sr *! DCT3X3_0_2 +! sg *! DCT3X3_1_2 +! sb *! DCT3X3_2_2))).

Definition plane_of (planes : list (list float)) (p : Z) : list float := rd [] planes p.

Definition color_decorrelation_ (dst : list (list float)) (dst_linesize : Z)
    (src : list Z) (src_linesize : Z) (w h : Z) (r g b : Z) : list (list float) :=
  for_each (upto h) (fun y =>
    for_each (upto w) (fun x dst =>
      let srcp := y * src_linesize + 3 * x in
      let '(vr, vg, vb) :=
        decorrelate_pixel (rd 0 src (srcp + r)) (rd 0 src (srcp + g)) (rd 0 src (srcp + b)) in
      let i := y * dst_linesize + x in
      [wr (plane_of dst 0) i vr; wr (plane_of dst 1) i vg; wr (plane_of dst 2) i vb]))
    dst.

Definition color_correlation_ (dst : list Z) (dst_linesize : Z)
    (src : list (list float)) (src_linesize : Z) (w h : Z) (r g b : Z) : list Z :=
  for_each (upto h) (fun y =>
    for_each (upto w) (fun x dst =>
      let dstp := y * dst_linesize + 3 * x in
      let i := y * src_linesize + x in
      let '(vr, vg, vb) :=
        correlate_pixel (rd fzero (plane_of src 0) i) (rd fzero (plane_of src 1) i)
                        (rd fzero (plane_of src 2) i) in
      wr (wr (wr dst (dstp + r) vr) (dstp + g) vg) (dstp + b) vb))
    dst.

(** [DECLARE_COLOR_FUNCS(rgb, 0, 1, 2)] and [DECLARE_COLOR_FUNCS(bgr, 2, 1, 0)]. *)
Definition call_color_decorrelation (c : color_ptr) dst dst_linesize src src_linesize w h :=
  match c with
  | color_rgb => color_decorrelation_ dst dst_linesize src src_linesize w h 0 1 2
  | color_bgr => color_decorrelation_ dst dst_linesize src src_linesize w h 2 1 0
  end.

Definition call_color_correlation (c : color_ptr) dst dst_linesize src src_linesize w h :=
  match c with
  | color_rgb => color_correlation_ dst dst_linesize src src_linesize w h 0 1 2
  | color_bgr => color_correlation_ dst dst_linesize src src_linesize w h 2 1 0
  end.

(** ** [filter_plane] *)

(** [dst[x] *= weights[x]] over the [w] by [h] plane. *)
Definition average_blocks (weights : list float) (dst : list float)
    (dst_linesize w h : Z) : list float :=
  for_each (upto h) (fun y =>
    for_each (upto w) (fun x dst =>
      let i := y * dst_linesize + x in
      wr dst i (rd fzero dst i *! rd fzero weights i)))
    dst.

(** [memset(dst, 0, count * sizeof( *dst ))]. *)
Definition memset_zero (dst : list float) (count : Z) : list float :=
  for_each (upto count) (fun i dst => wr dst i fzero) dst.

Definition filter_plane_with
    (block : list float -> Z -> Z -> list float -> Z -> Z -> list float)
    (s : DCTdnoizContext) (dst : list float) (dst_linesize : Z)
    (src : list float) (src_linesize : Z) (w h : Z) : list float :=
  (* reset block sums *)
  let dst := memset_zero dst (h * dst_linesize) in
  (* block dct sums *)
  let dst := block_sums (bsize s) (step s) block dst dst_linesize src src_linesize w h in
  (* average blocks *)
  average_blocks (weights s) dst dst_linesize w h.

(** [None] when [s->filter_freq_func] is a null pointer. *)
Definition filter_plane (s : DCTdnoizContext) (dst : list float) (dst_linesize : Z)
    (src : list float) (src_linesize : Z) (w h : Z) : option (list float) :=
  match filter_freq_func s with
  | Some f =>
      Some (filter_plane_with (call_filter_freq_func f s) s
              dst dst_linesize src src_linesize w h)
  | None => None
  end.

(** ** [filter_frame] *)

Record AVFrame := { data : list Z; linesize : Z; writable : bool }.

(** A frame goes to the next filter, or the callback fails with an error
    code, or the C program has no defined behaviour. *)
Inductive frame_result :=
  | Output (out : AVFrame) (s : DCTdnoizContext)
  | Failed (code : Z)
  | Undefined.

Definition set_data (d : list Z) (f : AVFrame) : AVFrame :=
  {| data := d; linesize := linesize f; writable := writable f |}.

(** [memcpy] of [len] bytes on each of [rows] consecutive lines. *)
Fixpoint copy_rows (rows : list Z) (dst : list Z) (doff dst_linesize : Z)
    (src : list Z) (soff src_linesize len : Z) : option (list Z) :=
  match rows with
  | [] => Some dst
  | y :: rows' =>
      match memcpy dst (doff + y * dst_linesize) src (soff + y * src_linesize) len with
      | Some dst' => copy_rows rows' dst' doff dst_linesize src soff src_linesize len
      | None => None
      end
  end.

(** The copy of the pixels that are not denoised, done when the output is
    not the input frame. *)
Definition copy_padding (inlink : AVFilterLink) (s : DCTdnoizContext)
    (dst : list Z) (dst_linesize : Z) (src : list Z) (src_linesize : Z)
  : option (list Z) :=
  let hpad := CInt.mul (CInt.sub (w inlink) (pr_width s)) 3 in
  let vpad := CInt.sub (h inlink) (pr_height s) in
  let after_h :=
    if hpad =? 0 then Some dst
    else copy_rows (upto (pr_height s)) dst (pr_width s * 3) dst_linesize
                   src (pr_width s * 3) src_linesize hpad in
  match after_h with
  | None => None
  | Some dst =>
      if vpad =? 0 then Some dst
      else copy_rows (upto vpad) dst (pr_height s * dst_linesize) dst_linesize
                     src (pr_height s * src_linesize) src_linesize (w inlink * 3)
  end.

(** [fresh] is what [ff_get_video_buffer] returns when the input frame is
    not writable. *)
Definition filter_frame (inlink : AVFilterLink) (s : DCTdnoizContext)
    (in_ : AVFrame) (fresh : option AVFrame) : frame_result :=
  let direct := writable in_ in
  match (if direct then Some in_ else fresh) with
  | None => Failed (AVERROR ENOMEM)
  | Some out =>
      match color_decorrelation s, color_correlation s with
      | Some decor, Some cor =>
          let lz := p_linesize s in
          let cbuf0 :=
            call_color_decorrelation decor (rd [] (cbuf s) 0) lz
              (data in_) (linesize in_) (pr_width s) (pr_height s) in
          let cbuf1 := rd [] (cbuf s) 1 in
          let plane p :=
            filter_plane s (plane_of cbuf1 p) lz (plane_of cbuf0 p) lz
                         (pr_width s) (pr_height s) in
          match plane 0, plane 1, plane 2 with
          | Some p0, Some p1, Some p2 =>
              let cbuf1 := [p0; p1; p2] in
              let s := set_cbuf [cbuf0; cbuf1] s in
              let d :=
                call_color_correlation cor (data out) (linesize out) cbuf1 lz
                  (pr_width s) (pr_height s) in
              if direct then Output (set_data d out) s
              else
                match copy_padding inlink s d (linesize out) (data in_) (linesize in_) with
                | Some d' => Output (set_data d' out) s
                | None => Undefined
                end
          | _, _, _ => Undefined
          end
      | _, _ => Undefined
      end
  end.

(** ** One frame through a new instance *)

(** What libavfilter does with the first frame: [init], then [config_input]
    on the input link, then [filter_frame]; a negative return code stops the
    sequence. *)
Inductive run_result :=
  | Frame (out : AVFrame)
  | Error (code : Z)
  | Crash.

Definition process (s : DCTdnoizContext) (inlink : AVFilterLink) (in_ : AVFrame)
    (fresh : option AVFrame) : run_result :=
  match init s with
  | Abort => Crash
  | Ret r s =>
      if r <? 0 then Error r
      else
        match config_input inlink s with
        | Abort => Crash
        | Ret r s =>
            if r <? 0 then Error r
            else
              match filter_frame inlink s in_ fresh with
              | Output out _ => Frame out
              | Failed code => Error code
              | Undefined => Crash
              end
        end
  end.

End Engine.

Arguments DCTdnoizContext {_} AVExpr.
Arguments result {_} AVExpr.
Arguments frame_result {_} AVExpr.

(** ** IEEE-754 arithmetic: [float] is binary32, [double] is binary64

    Every operation rounds to nearest, ties to even, in the format of its
    type (FLT_EVAL_METHOD = 0, no contraction of products and sums). *)

Module IEEE.

Definition prec32 : Z := 24.
Definition emax32 : Z := 128.
Definition prec64 : Z := 53.
Definition emax64 : Z := 1024.

(** The canonical representation of a finite number in a format; it is
    exact on a number of the format, and rounds any other. *)
Definition canon (prec emax : Z) (x : spec_float) : spec_float :=
  match x with
  | S754_finite s m e => binary_round prec emax s m e
  | _ => x
  end.

Definition of_Z (prec emax : Z) (z : Z) : spec_float :=
  binary_normalize prec emax z 0 false.

(** A decimal constant is rounded once, from its exact value. *)
Definition of_Q (prec emax : Z) (q : Q) : spec_float :=
  let num :=
    match Qnum q with
    | Z0 => S754_zero false
    | Zpos p => S754_finite false p 0
    | Zneg p => S754_finite true p 0
    end in
  SFdiv prec emax num (S754_finite false (Qden q) 0).

(** Truncation toward zero. *)
Definition to_int (x : spec_float) : Z :=
  match x with
  | S754_zero _ => 0
  | S754_finite s m e =>
      let z := cond_Zopp s (Z.shiftl (Zpos m) e) in
      if (CInt.INT_MIN <=? z) && (z <=? CInt.INT_MAX) then z else CInt.INT_MIN
  | _ => CInt.INT_MIN
  end.

Definition arith : CFloat := {|
  float := spec_float;
  double := spec_float;
  f_lit := of_Q prec32 emax32;
  d_lit := of_Q prec64 emax64;
  f_of_int := of_Z prec32 emax32;
  d_of_int := of_Z prec64 emax64;
  d_of_f := canon prec64 emax64;
  f_of_d := canon prec32 emax32;
  f_to_int := to_int;
  f_add := SFadd prec32 emax32;
  f_sub := SFsub prec32 emax32;
  f_mul := SFmul prec32 emax32;
  f_neg := SFopp;
  f_ltb := SFltb;
  f_leb := SFleb;
  d_add := SFadd prec64 emax64;
  d_sub := SFsub prec64 emax64;
  d_mul := SFmul prec64 emax64;
  d_div := SFdiv prec64 emax64
|}.

End IEEE.

(** ** Exact arithmetic: [float] and [double] are the rationals

    No rounding and no range: what the formulas of the source compute over
    the reals on the decimal constants as written. *)

Module Exact.

Definition to_int (q : Q) : Z :=
  let z := Z.quot (Qnum q) (Zpos (Qden q)) in
  if (CInt.INT_MIN <=? z) && (z <=? CInt.INT_MAX) then z else CInt.INT_MIN.

Definition arith : CFloat := {|
  float := Q;
  double := Q;
  f_lit := fun q => q;
  d_lit := fun q => q;
  f_of_int := inject_Z;
  d_of_int := inject_Z;
  d_of_f := fun q => q;
  f_of_d := fun q => q;
  f_to_int := to_int;
  f_add := Qplus;
  f_sub := Qminus;
  f_mul := Qmult;
  f_neg := Qopp;
  f_ltb := fun a b => negb (Qle_bool b a);
  f_leb := Qle_bool;
  d_add := Qplus;
  d_sub := Qminus;
  d_mul := Qmult;
  d_div := Qdiv
|}.

End Exact.
(** ** Notions used to state the properties *)

(** The routine that adds one to every cell of the footprint of a block:
    run by the sweep of [filter_plane] in place of [filter_freq_func], it
    leaves in every cell the number of blocks that accumulate into it. *)
Definition unit_footprint {S : Type} (bsize : Z)
    (src : list S) (soff src_linesize : Z)
    (dst : list Z) (doff dst_linesize : Z) : list Z :=
  for_each (upto bsize) (fun by_ =>
    for_each (upto bsize) (fun bx d => incr d (doff + by_ * dst_linesize + bx)))
    dst.

Definition sumZ (l : list Z) : Z := fold_right Z.add 0 l.

Definition indicator (b : bool) : Z := if b then 1 else 0.

(** How many of the indices [idxs] are [j]. *)
Definition hits (idxs : list Z) (j : Z) : Z :=
  sumZ (map (fun i => indicator (i =? j)) idxs).

(** How many of the block origins [ps] have [X] within [bsize] of them. *)
Definition covering (ps : list Z) (bsize X : Z) : Z :=
  sumZ (map (fun p => indicator ((p <=? X) && (X <? p + bsize))) ps).

(** [iweights[i]++] for each [i] of [idxs] in turn. *)
Definition touch (idxs : list Z) (iw : list Z) : list Z := fold_left incr idxs iw.

(** The indices that the loops of [config_input] increment. *)
Definition footprint_indices (bsize linesize y x : Z) : list Z :=
  flat_map (fun by_ => map (fun bx => (y + by_) * linesize + x + bx) (upto bsize))
           (upto bsize).

Definition coverage_indices (bsize step pr_width pr_height linesize : Z) : list Z :=
  flat_map (fun y =>
    flat_map (fun x => footprint_indices bsize linesize y x)
             (block_positions (pr_width - bsize + 1) step))
    (block_positions (pr_height - bsize + 1) step).

(** The overlap that the check of [init] looks at. *)
Definition effective_overlap `{CFloat} {AVExpr : Type} (s : DCTdnoizContext AVExpr) : Z :=
  if overlap s =? -1 then CInt.sub (CInt.shl 1 (n s)) 1 else overlap s.

(** Writes of a value that depends on the index only. *)
Definition store {A : Type} (f : Z -> A) (idxs : list Z) (buf : list A) : list A :=
  fold_left (fun b i => wr b i (f i)) idxs buf.

(** The indices of the [w] by [h] region of a plane. *)
Definition region_indices (w h linesize : Z) : list Z :=
  flat_map (fun y => map (fun x => y * linesize + x) (upto w)) (upto h).

(** The source byte that a row copy brings to the index [i]. *)
Definition copied_from (src : list Z) (doff dl soff sl : Z) (i : Z) : Z :=
  rd 0 src (soff + (i - doff) / dl * sl + (i - doff) mod dl).

Definition row_indices (rows : list Z) (doff dl len : Z) : list Z :=
  flat_map (fun y => map (fun k => doff + y * dl + k) (upto len)) rows.

Section Notions.
Context `{CFloat} {AVExpr : Type}.
#[local] Abbreviation ctx := (DCTdnoizContext AVExpr).

(** The weight that [config_input] stores for a counter. *)
Definition reciprocal (c : Z) : float := f_of_d (d_div (d_lit 1) (d_of_int c)).

(** Two contexts that differ in [sigma], and in the threshold [th] that
    [init] derives from it, at most. *)
Definition agree_but_sigma (s1 s2 : ctx) : Prop :=
  expr_str s1 = expr_str s2 /\ expr s1 = expr s2 /\
  pr_width s1 = pr_width s2 /\ pr_height s1 = pr_height s2 /\
  cbuf s1 = cbuf s2 /\ weights s1 = weights s2 /\
  p_linesize s1 = p_linesize s2 /\ overlap s1 = overlap s2 /\
  step s1 = step s2 /\ n s1 = n s2 /\ bsize s1 = bsize s2 /\
  filter_freq_func s1 = filter_freq_func s2 /\
  color_decorrelation s1 = color_decorrelation s2 /\
  color_correlation s1 = color_correlation s2.

Definition expr_installed (s : ctx) : Prop :=
  filter_freq_func s = Some filter_freq_expr_8 \/
  filter_freq_func s = Some filter_freq_expr_16.

(** A frame buffer that holds the [w] by [h] picture of the link. *)
Definition frame_fits (inlink : AVFilterLink) (f : AVFrame) : Prop :=
  3 * w inlink <= linesize f <= CInt.INT_MAX /\
  h inlink * linesize f <= Z.of_nat (length (data f)).

(** A context on which [init] and [config_input] have installed their
    functions. *)
Definition configured (s : ctx) : Prop :=
  is_Some (filter_freq_func s) /\ is_Some (color_decorrelation s) /\
  is_Some (color_correlation s).

End Notions.
(** ** Notions for the rounding analysis *)

Definition pow2 (e : Z) : Q := (2 ^ e)%Q.

(** The real number a [spec_float] stands for, as a rational; zero for
    infinities and NaN, which [valid] excludes. *)
Definition B2Q (x : spec_float) : Q :=
  match x with
  | S754_finite s m e => (inject_Z (cond_Zopp s (Zpos m)) * pow2 e)%Q
  | _ => 0%Q
  end.

Definition sign_Q (s : bool) : Q := if s then (-1)%Q else 1%Q.

Section RoundingNotions.
Variables prec emax : Z.

(** A finite number in canonical form and in range. *)
Definition valid (x : spec_float) : Prop :=
  match x with
  | S754_zero _ => True
  | S754_finite _ m e => bounded prec emax m e = true
  | _ => False
  end.

Definition validb (x : spec_float) : bool :=
  match x with
  | S754_zero _ => true
  | S754_finite _ m e => bounded prec emax m e
  | _ => false
  end.

(** What a rounded result stands for: the sign [s] and the integer [m2]
    counted in units of [2 ^ E]; it is in canonical form and in range. *)
Definition represents (r : spec_float) (s : bool) (m2 E : Z) : Prop :=
  match r with
  | S754_zero s' => s' = s /\ m2 = 0
  | S754_finite s' m' e' =>
      s' = s /\ E <= e' /\ Zpos m' * 2 ^ (e' - E) = m2 /\
      canonical_mantissa prec emax m' e' = true /\ e' <= emax - prec
  | _ => False
  end.

(** The second half of [binary_round_aux]. *)
Definition finish (s : bool) (m2 E : Z) : spec_float :=
  let '(mrs, e) := shr_fexp prec emax m2 E loc_Exact in
  match shr_m mrs with
  | Z0 => S754_zero s
  | Zpos m => if e <=? emax - prec then S754_finite s m e else S754_infinity s
  | Zneg _ => S754_nan
  end.

(** The unit in the last place of the numbers below [2 ^ k]. *)
Definition ulp_at (k : Z) : Q :=
  pow2 (Z.max (k + 1 - prec) (SpecFloat.emin prec emax)).

End RoundingNotions.

Definition valid32 := valid IEEE.prec32 IEEE.emax32.
Definition valid64 := valid IEEE.prec64 IEEE.emax64.
Definition ulp32 := ulp_at IEEE.prec32 IEEE.emax32.
Definition ulp64 := ulp_at IEEE.prec64 IEEE.emax64.

(** ** Concrete configurations

    The IEEE instance with a parser that accepts every string, or rejects
    every string as [av_expr_parse] rejects a malformed one, and a parsed
    expression that evaluates to one half. *)

Module Example.

Definition ctx : Type := @DCTdnoizContext IEEE.arith unit.

Definition accept (str : string) : Z * option unit := (0, Some tt).

Definition reject (str : string) : Z * option unit := (AVERROR EINVAL, None).

Definition half (e : unit) (var_values : list (@double IEEE.arith)) :
    @double IEEE.arith :=
  IEEE.of_Q IEEE.prec64 IEEE.emax64 0.5.

Definition f32 (q : Q) : @float IEEE.arith := IEEE.of_Q IEEE.prec32 IEEE.emax32 q.

(** The context after the options have been set. *)
Definition options (sigma : Q) (overlap : Z) (expr : option string) (n : Z) : ctx :=
  @with_options IEEE.arith unit (f32 sigma) overlap expr n.

Definition rgb (w h : Z) : AVFilterLink :=
  {| format := AV_PIX_FMT_RGB24; w := w; h := h |}.

(** A frame of [h] lines of [linesize] bytes, every byte [v]. *)
Definition flat (h linesize v : Z) (writable : bool) : AVFrame :=
  {| data := replicate (Z.to_nat (h * linesize)) v; linesize := linesize;
     writable := writable |}.

(** The context that a callback leaves, [d] if it stops the process. *)
Definition after (r : @result IEEE.arith unit) (d : ctx) : ctx :=
  match r with Ret _ s => s | Abort => d end.

(** [init] and [config_input] in turn. *)
Definition setup (parse : string -> Z * option unit) (inlink : AVFilterLink)
    (s0 : ctx) : ctx :=
  let s := after (init parse s0) s0 in
  after (config_input inlink s) s.

End Example.

(** ** Terms of the arithmetic

    The free instance of [CFloat]: every operation builds the term that
    names it.  A routine of the source run on this instance yields the
    expressions it computes, which are then evaluated in IEEE arithmetic
    ([evalF]) and in exact arithmetic ([evalQ]), and analysed ([bound],
    [linear]).  The comparisons and the conversion to [int] are not part of
    the term language. *)

Inductive term :=
  | TVar (i : Z)
  | TLitF (q : Q) | TLitD (q : Q)
  | TIntF (z : Z) | TIntD (z : Z)
  | TWiden (a : term) | TNarrow (a : term)
  | TAddF (a b : term) | TSubF (a b : term) | TMulF (a b : term)
  | TNegF (a : term)
  | TAddD (a b : term) | TSubD (a b : term) | TMulD (a b : term)
  | TDivD (a b : term).

Module Sym.

Definition arith : CFloat := {|
  float := term;
  double := term;
  f_lit := TLitF;
  d_lit := TLitD;
  f_of_int := TIntF;
  d_of_int := TIntD;
  d_of_f := TWiden;
  f_of_d := TNarrow;
  f_to_int := fun _ => 0;
  f_add := TAddF;
  f_sub := TSubF;
  f_mul := TMulF;
  f_neg := TNegF;
  f_ltb := fun _ _ => false;
  f_leb := fun _ _ => false;
  d_add := TAddD;
  d_sub := TSubD;
  d_mul := TMulD;
  d_div := TDivD
|}.

End Sym.

(** The value of a term in IEEE arithmetic, the variables being [float]s. *)
Fixpoint evalF (env : Z -> spec_float) (t : term) : spec_float :=
  match t with
  | TVar i => env i
  | TLitF q => IEEE.of_Q IEEE.prec32 IEEE.emax32 q
  | TLitD q => IEEE.of_Q IEEE.prec64 IEEE.emax64 q
  | TIntF z => IEEE.of_Z IEEE.prec32 IEEE.emax32 z
  | TIntD z => IEEE.of_Z IEEE.prec64 IEEE.emax64 z
  | TWiden a => IEEE.canon IEEE.prec64 IEEE.emax64 (evalF env a)
  | TNarrow a => IEEE.canon IEEE.prec32 IEEE.emax32 (evalF env a)
  | TAddF a b => SFadd IEEE.prec32 IEEE.emax32 (evalF env a) (evalF env b)
  | TSubF a b => SFsub IEEE.prec32 IEEE.emax32 (evalF env a) (evalF env b)
  | TMulF a b => SFmul IEEE.prec32 IEEE.emax32 (evalF env a) (evalF env b)
  | TNegF a => SFopp (evalF env a)
  | TAddD a b => SFadd IEEE.prec64 IEEE.emax64 (evalF env a) (evalF env b)
  | TSubD a b => SFsub IEEE.prec64 IEEE.emax64 (evalF env a) (evalF env b)
  | TMulD a b => SFmul IEEE.prec64 IEEE.emax64 (evalF env a) (evalF env b)
  | TDivD a b => SFdiv IEEE.prec64 IEEE.emax64 (evalF env a) (evalF env b)
  end.

(** The value of a term in exact arithmetic. *)
Fixpoint evalQ (env : Z -> Q) (t : term) : Q :=
  match t with
  | TVar i => env i
  | TLitF q | TLitD q => q
  | TIntF z | TIntD z => inject_Z z
  | TWiden a | TNarrow a => evalQ env a
  | TAddF a b | TAddD a b => evalQ env a + evalQ env b
  | TSubF a b | TSubD a b => evalQ env a - evalQ env b
  | TMulF a b | TMulD a b => evalQ env a * evalQ env b
  | TNegF a => - evalQ env a
  | TDivD a b => evalQ env a / evalQ env b
  end.

(** *** Bounds on magnitude and rounding error

    An abstract value bounds the exact value of a term by [mag] and the
    distance of its IEEE value from the exact one by [err], both counted in
    units of [2 ^ -64], and in units of [2 ^ s] when [scaled] (the term is
    linear in the variables, which are bounded by [2 ^ s]): a constant is
    not scaled. *)

Record absval := { fmt64 : bool; scaled : bool; mag : Z; err : Z }.

Definition prec_of (d : bool) : Z := if d then IEEE.prec64 else IEEE.prec32.
Definition emax_of (d : bool) : Z := if d then IEEE.emax64 else IEEE.emax32.

Definition scale_of (sc : bool) (s : Z) : Q := if sc then pow2 s else 1%Q.

(** The number that the count [z] of units stands for. *)
Definition fx (z : Z) : Q := inject_Z z * pow2 (-64).

(** [f] is a number of the format of [a] within the bounds of [a] of the
    exact value [q]. *)
Definition approx (s : Z) (a : absval) (f : spec_float) (q : Q) : Prop :=
  valid (prec_of (fmt64 a)) (emax_of (fmt64 a)) f /\
  (Qabs (B2Q f - q) <= fx (err a) * scale_of (scaled a) s)%Q /\
  (Qabs q <= fx (mag a) * scale_of (scaled a) s)%Q.

(** Counts of units above [q], above a product and above [2 ^ e], and
    below [q]. *)
Definition fix_up (q : Q) : Z :=
  if Qnum q <=? 0 then 0
  else (Qnum q * 18446744073709551616) / Zpos (Qden q) + 1.

Definition fix_down (q : Q) : Z := (Qnum q * 18446744073709551616) / Zpos (Qden q).

Definition mulfx (a b : Z) : Z := Z.shiftr (a * b) 64 + 1.

Definition pow2fx (e : Z) : Z := if 0 <=? e + 64 then 2 ^ (e + 64) else 1.

(** The error of one rounding to the format [prec], [emax] of a value
    bounded by [M] (times [2 ^ s] for some [s] from [slo] to [shi] when
    [sc]); [None] when the value may overflow or, scaled, fall among the
    subnormal numbers. *)
Definition rounded (prec emax slo shi : Z) (sc : bool) (M : Z) : option Z :=
  let k := Z.log2_up M - 64 in
  if sc then
    if (k + shi + 2 <=? emax) && (SpecFloat.emin prec emax <=? k + slo + 1 - prec)
    then Some (pow2fx (k + 1 - prec)) else None
  else
    if k + 2 <=? emax
    then Some (pow2fx (Z.max (k + 1 - prec) (SpecFloat.emin prec emax)))
    else None.

Definition abs_const (d : bool) (f : spec_float) (q : Q) : option absval :=
  if validb (prec_of d) (emax_of d) f
  then Some {| fmt64 := d; scaled := false; mag := fix_up (Qabs q);
               err := fix_up (Qabs (B2Q f - q)) |}
  else None.

(** The scale of a sum: that of its operands, a constant zero taking the
    scale of the other operand. *)
Definition join_scale (a b : absval) : option bool :=
  if Bool.eqb (scaled a) (scaled b) then Some (scaled a)
  else if mag a + err a =? 0 then Some (scaled b)
  else if mag b + err b =? 0 then Some (scaled a)
  else None.

Definition abs_add (d : bool) (slo shi : Z) (a b : absval) : option absval :=
  if Bool.eqb (fmt64 a) d && Bool.eqb (fmt64 b) d then
    match join_scale a b with
    | Some sc =>
        match rounded (prec_of d) (emax_of d) slo shi sc
                      (mag a + err a + (mag b + err b)) with
        | Some u => Some {| fmt64 := d; scaled := sc;
                            mag := mag a + mag b;
                            err := u + err a + err b |}
        | None => None
        end
    | None => None
    end
  else None.

Definition abs_mul (d : bool) (slo shi : Z) (a b : absval) : option absval :=
  if Bool.eqb (fmt64 a) d && Bool.eqb (fmt64 b) d && negb (scaled a && scaled b) then
    let sc := scaled a || scaled b in
    match rounded (prec_of d) (emax_of d) slo shi sc
                  (mulfx (mag a + err a) (mag b + err b)) with
    | Some u => Some {| fmt64 := d; scaled := sc;
                        mag := mulfx (mag a) (mag b);
                        err := u + mulfx (err a) (mag b + err b)
                                 + mulfx (mag a) (err b) |}
    | None => None
    end
  else None.

Definition abs_widen (a : absval) : option absval :=
  if fmt64 a then None
  else Some {| fmt64 := true; scaled := scaled a; mag := mag a; err := err a |}.

Definition abs_narrow (slo shi : Z) (a : absval) : option absval :=
  if fmt64 a then
    match rounded IEEE.prec32 IEEE.emax32 slo shi (scaled a) (mag a + err a) with
    | Some u => Some {| fmt64 := false; scaled := scaled a; mag := mag a;
                        err := u + err a |}
    | None => None
    end
  else None.

Definition abs_neg (a : absval) : option absval :=
  if fmt64 a then None else Some a.

Definition bind2 (x y : option absval) (f : absval -> absval -> option absval)
  : option absval :=
  match x, y with
  | Some a, Some b => f a b
  | _, _ => None
  end.

Definition on_abs (x : option absval) (f : absval -> option absval)
  : option absval :=
  match x with
  | Some a => f a
  | None => None
  end.

(** The analysis of a term whose variable [i] has the bounds [benv i]. *)
Fixpoint bound (slo shi : Z) (benv : Z -> option absval) (t : term) : option absval :=
  match t with
  | TVar i => benv i
  | TLitF q => abs_const false (IEEE.of_Q IEEE.prec32 IEEE.emax32 q) q
  | TLitD q => abs_const true (IEEE.of_Q IEEE.prec64 IEEE.emax64 q) q
  | TIntF z => abs_const false (IEEE.of_Z IEEE.prec32 IEEE.emax32 z) (inject_Z z)
  | TIntD z => abs_const true (IEEE.of_Z IEEE.prec64 IEEE.emax64 z) (inject_Z z)
  | TWiden a => on_abs (bound slo shi benv a) abs_widen
  | TNarrow a => on_abs (bound slo shi benv a) (abs_narrow slo shi)
  | TAddF a b | TSubF a b =>
      bind2 (bound slo shi benv a) (bound slo shi benv b) (abs_add false slo shi)
  | TMulF a b =>
      bind2 (bound slo shi benv a) (bound slo shi benv b) (abs_mul false slo shi)
  | TNegF a => on_abs (bound slo shi benv a) abs_neg
  | TAddD a b | TSubD a b =>
      bind2 (bound slo shi benv a) (bound slo shi benv b) (abs_add true slo shi)
  | TMulD a b =>
      bind2 (bound slo shi benv a) (bound slo shi benv b) (abs_mul true slo shi)
  | TDivD _ _ => None
  end.

(** The instance of [CFloat] on which a routine computes the bounds of
    its results from those of its inputs: each operation is the case of
    [bound] for it. *)
Module Abs.

Definition arith (slo shi : Z) : CFloat := {|
  float := option absval;
  double := option absval;
  f_lit := fun q => abs_const false (IEEE.of_Q IEEE.prec32 IEEE.emax32 q) q;
  d_lit := fun q => abs_const true (IEEE.of_Q IEEE.prec64 IEEE.emax64 q) q;
  f_of_int := fun z => abs_const false (IEEE.of_Z IEEE.prec32 IEEE.emax32 z) (inject_Z z);
  d_of_int := fun z => abs_const true (IEEE.of_Z IEEE.prec64 IEEE.emax64 z) (inject_Z z);
  d_of_f := fun x => on_abs x abs_widen;
  f_of_d := fun x => on_abs x (abs_narrow slo shi);
  f_to_int := fun _ => 0;
  f_add := fun x y => bind2 x y (abs_add false slo shi);
  f_sub := fun x y => bind2 x y (abs_add false slo shi);
  f_mul := fun x y => bind2 x y (abs_mul false slo shi);
  f_neg := fun x => on_abs x abs_neg;
  f_ltb := fun _ _ => false;
  f_leb := fun _ _ => false;
  d_add := fun x y => bind2 x y (abs_add true slo shi);
  d_sub := fun x y => bind2 x y (abs_add true slo shi);
  d_mul := fun x y => bind2 x y (abs_mul true slo shi);
  d_div := fun _ _ => None
|}.

End Abs.

(** *** Linear forms

    In exact arithmetic a term that multiplies variables by decimal
    constants only is an affine form of the variables: a constant and one
    coefficient for each of them, integers counted in units of
    [10 ^ - dexp]. *)

Record dform := { dexp : Z; dconst : Z; dcoef : list Z }.

Fixpoint dot (l : list Z) (xs : list Q) : Q :=
  match l, xs with
  | a :: l', x :: xs' => (inject_Z a * x + dot l' xs')%Q
  | _, _ => 0%Q
  end.

Definition dvalue (a : dform) (xs : list Q) : Q :=
  ((inject_Z (dconst a) + dot (dcoef a) xs) / inject_Z (10 ^ dexp a))%Q.

Fixpoint vadd (l1 l2 : list Z) : list Z :=
  match l1, l2 with
  | a :: l1', b :: l2' => (a + b) :: vadd l1' l2'
  | [], _ => l2
  | _, [] => l1
  end.

Definition vscale (c : Z) (l : list Z) : list Z := map (Z.mul c) l.

Definition vzero (l : list Z) : bool := forallb (Z.eqb 0) l.

Definition norm1 (l : list Z) : Z := fold_right (fun a acc => Z.abs a + acc) 0 l.

(** The unit vector of the variable [i] among those from [k] on. *)
Fixpoint basis_from (k : Z) (len : nat) (i : Z) : list Z :=
  match len with
  | O => []
  | S len' => (if k =? i then 1 else 0) :: basis_from (k + 1) len' i
  end.

(** The same form in units of [10 ^ - e], for [e] not below [dexp a]. *)
Definition align (e : Z) (a : dform) : dform :=
  let k := 10 ^ (e - dexp a) in
  {| dexp := e; dconst := k * dconst a; dcoef := vscale k (dcoef a) |}.

Definition dadd (a b : dform) : dform :=
  let e := Z.max (dexp a) (dexp b) in
  {| dexp := e; dconst := dconst (align e a) + dconst (align e b);
     dcoef := vadd (dcoef (align e a)) (dcoef (align e b)) |}.

Definition dneg (a : dform) : dform :=
  {| dexp := dexp a; dconst := - dconst a; dcoef := vscale (-1) (dcoef a) |}.

Definition dplus (a b : dform) : option dform :=
  if (0 <=? dexp a) && (0 <=? dexp b) then Some (dadd a b) else None.

Definition dminus (a b : dform) : option dform :=
  if (0 <=? dexp a) && (0 <=? dexp b) then Some (dadd a (dneg b)) else None.

Definition dmul (a b : dform) : option dform :=
  if (0 <=? dexp a) && (0 <=? dexp b) then
    if vzero (dcoef a)
    then Some {| dexp := dexp a + dexp b; dconst := dconst a * dconst b;
                 dcoef := vscale (dconst a) (dcoef b) |}
    else if vzero (dcoef b)
    then Some {| dexp := dexp a + dexp b; dconst := dconst a * dconst b;
                 dcoef := vscale (dconst b) (dcoef a) |}
    else None
  else None.

(** The exponent [k] with [10 ^ k = d], searched from [p = 10 ^ k]. *)
Fixpoint dec_exp (fuel : nat) (k p d : Z) : option Z :=
  match fuel with
  | O => None
  | S fuel' => if p =? d then Some k else dec_exp fuel' (k + 1) (p * 10) d
  end.

(** A constant written in decimal. *)
Definition dlit (q : Q) : option dform :=
  match dec_exp 40 0 1 (Zpos (Qden q)) with
  | Some k => Some {| dexp := k; dconst := Qnum q; dcoef := [] |}
  | None => None
  end.

Definition dint (z : Z) : option dform :=
  Some {| dexp := 0; dconst := z; dcoef := [] |}.

Definition lift1 (x : option dform) (f : dform -> dform) : option dform :=
  match x with
  | Some a => Some (f a)
  | None => None
  end.

Definition lift2 (x y : option dform) (f : dform -> dform -> option dform)
  : option dform :=
  match x, y with
  | Some a, Some b => f a b
  | _, _ => None
  end.

Fixpoint linear (envL : Z -> option dform) (t : term) : option dform :=
  match t with
  | TVar i => envL i
  | TLitF q | TLitD q => dlit q
  | TIntF z | TIntD z => dint z
  | TWiden a | TNarrow a => linear envL a
  | TAddF a b | TAddD a b => lift2 (linear envL a) (linear envL b) dplus
  | TSubF a b | TSubD a b => lift2 (linear envL a) (linear envL b) dminus
  | TMulF a b | TMulD a b => lift2 (linear envL a) (linear envL b) dmul
  | TNegF a => lift1 (linear envL a) dneg
  | TDivD _ _ => None
  end.

(** The instance of [CFloat] on which a routine computes the affine forms
    of its results from those of its inputs: each operation is the case of
    [linear] for it. *)
Module Lin.

Definition arith : CFloat := {|
  float := option dform;
  double := option dform;
  f_lit := dlit;
  d_lit := dlit;
  f_of_int := dint;
  d_of_int := dint;
  d_of_f := fun x => x;
  f_of_d := fun x => x;
  f_to_int := fun _ => 0;
  f_add := fun x y => lift2 x y dplus;
  f_sub := fun x y => lift2 x y dminus;
  f_mul := fun x y => lift2 x y dmul;
  f_neg := fun x => lift1 x dneg;
  f_ltb := fun _ _ => false;
  f_leb := fun _ _ => false;
  d_add := fun x y => lift2 x y dplus;
  d_sub := fun x y => lift2 x y dminus;
  d_mul := fun x y => lift2 x y dmul;
  d_div := fun _ _ => None
|}.

End Lin.

(** *** Two routines in sequence

    The routine [outer] takes for inputs the results of the routine
    [inner], whose inputs are [n] [float]s within [2 ^ s] of zero. *)

Definition input_bounds (n : Z) : Z -> option absval :=
  fun i => if (0 <=? i) && (i <? n)
           then Some {| fmt64 := false; scaled := true;
                        mag := 18446744073709551616; err := 0 |}
           else None.

Definition input_forms (n : Z) : Z -> option dform :=
  fun i => if (0 <=? i) && (i <? n)
           then Some {| dexp := 0; dconst := 0;
                        dcoef := basis_from 0 (Z.to_nat n) i |}
           else None.

(** The output [i], of affine form [l2 i] in exact arithmetic, is within
    [tol] of the input [i], for inputs within 1 of zero. *)
Definition deviates (n : Z) (tol : Q) (l2 : list (option dform)) (i : Z) : bool :=
  match rd None l2 i with
  | Some a =>
      (dconst a =? 0) && (0 <=? dexp a) &&
      Qle_bool
        (inject_Z (norm1 (vadd (dcoef a)
                               (vscale (- 10 ^ dexp a) (basis_from 0 (Z.to_nat n) i)))))
        (tol * inject_Z (10 ^ dexp a))
  | None => false
  end.

(** The IEEE value of the output [i], of bounds [b2 i], is a [float]
    within [tol], in units of [2 ^ s], of its exact value. *)
Definition strays (tol : Q) (b2 : list (option absval)) (i : Z) : bool :=
  match rd None b2 i with
  | Some a => negb (fmt64 a) && scaled a && (err a <=? fix_down tol)
  | None => false
  end.

(** The analysis of [outer] after [inner], each given by what it computes
    from the forms, or the bounds, of its inputs. *)
Definition exact_round_trip (n : Z) (tol : Q)
    (innerL outerL : (Z -> option dform) -> list (option dform)) : bool :=
  let l1 := innerL (input_forms n) in
  let l2 := outerL (fun j => rd None l1 j) in
  forallb (deviates n tol l2) (upto n).

Definition rounded_round_trip (n : Z) (tol : Q)
    (innerA outerA : (Z -> option absval) -> list (option absval)) : bool :=
  let b1 := innerA (input_bounds n) in
  let b2 := outerA (fun j => rd None b1 j) in
  forallb (strays tol b2) (upto n).


(** [f] is within [E * sigma] of [q], which is within [B * sigma] of 0. *)
Definition within (sigma B E x q : Q) : Prop :=
  (Qabs (x - q) <= E * sigma)%Q /\ (Qabs q <= B * sigma)%Q.


(** *** The routines of the source as terms *)

Definition fdct8_terms : list term := @fdct8_line Sym.arith TVar.
Definition idct8_terms : list term := @idct8_line Sym.arith (fun _ => TIntF 0) TVar.
Definition fdct16_terms : list term := @fdct16_line Sym.arith TVar.
Definition idct16_terms : list term := @idct16_line Sym.arith (fun _ => TIntF 0) TVar.
(** *** The colour transforms as terms *)

Section ColourFloats.
Context `{CFloat}.

(** The three [float] expressions that [color_correlation] passes to
    [av_clip_uint8]. *)
Definition correlate_floats (sr sg sb : float) : list float :=
  [ f_add (f_add (f_mul sr DCT3X3_0_0) (f_mul sg DCT3X3_1_0)) (f_mul sb DCT3X3_2_0);
    f_add (f_mul sr DCT3X3_0_1) (f_mul sb DCT3X3_2_1);
    f_add (f_add (f_mul sr DCT3X3_0_2) (f_mul sg DCT3X3_1_2)) (f_mul sb DCT3X3_2_2) ].

End ColourFloats.

(** The integers that a routine converts name its inputs. *)
Fixpoint inputs_of_ints (t : term) : term :=
  match t with
  | TIntF z => TVar z
  | TWiden a => TWiden (inputs_of_ints a)
  | TNarrow a => TNarrow (inputs_of_ints a)
  | TAddF a b => TAddF (inputs_of_ints a) (inputs_of_ints b)
  | TSubF a b => TSubF (inputs_of_ints a) (inputs_of_ints b)
  | TMulF a b => TMulF (inputs_of_ints a) (inputs_of_ints b)
  | TNegF a => TNegF (inputs_of_ints a)
  | TAddD a b => TAddD (inputs_of_ints a) (inputs_of_ints b)
  | TSubD a b => TSubD (inputs_of_ints a) (inputs_of_ints b)
  | TMulD a b => TMulD (inputs_of_ints a) (inputs_of_ints b)
  | TDivD a b => TDivD (inputs_of_ints a) (inputs_of_ints b)
  | _ => t
  end.

Definition decorrelate_terms : list term :=
  let '(a, b, c) := @decorrelate_pixel Sym.arith 0 1 2 in
  map inputs_of_ints [a; b; c].

Definition correlate_terms : list term :=
  @correlate_floats Sym.arith (TVar 0) (TVar 1) (TVar 2).

(** * Properties *)

(** ** C integers and the cropping formula *)

Module CIntFacts.
Import CInt.

Lemma wrap_id z : in_range z -> wrap z = z.
Proof.
  unfold in_range, wrap, INT_MIN, INT_MAX. intros Hz.
  rewrite Z.mod_small; lia.
Qed.

Lemma wrap_range z : in_range (wrap z).
Proof.
  unfold in_range, wrap, INT_MIN, INT_MAX.
  pose proof (Z.mod_pos_bound (z + 2 ^ 31) (2 ^ 32)). lia.
Qed.

Lemma sub_id a b : in_range (a - b) -> sub a b = a - b.
Proof. apply wrap_id. Qed.

Lemma shl_1_3 : shl 1 3 = 8.
Proof. reflexivity. Qed.

Lemma shl_1_4 : shl 1 4 = 16.
Proof. reflexivity. Qed.

End CIntFacts.

Lemma processable_rem dim bsize step :
  1 <= step <= bsize -> bsize <= 2 ^ 30 \/ bsize <= dim -> 1 <= dim <= CInt.INT_MAX ->
  processable dim bsize step = dim - Z.rem (dim - bsize) step.
Proof.
  intros Hs Hb Hd. unfold processable, CInt.rem, CInt.INT_MAX in *.
  rewrite (CIntFacts.sub_id dim bsize)
    by (unfold CInt.in_range, CInt.INT_MIN, CInt.INT_MAX; lia).
  apply CIntFacts.sub_id.
  unfold CInt.in_range, CInt.INT_MIN, CInt.INT_MAX.
  destruct (Z_le_gt_dec bsize dim) as [Hge | Hlt].
  - pose proof (Z.rem_bound_pos (dim - bsize) step ltac:(lia) ltac:(lia)). lia.
  - pose proof (Z.rem_bound_pos_neg (dim - bsize) step ltac:(lia) ltac:(lia)). lia.
Qed.

(** When the frame holds at least one block, the remainder of C is the
    mathematical one. *)
Lemma processable_mod dim bsize step :
  1 <= step <= bsize -> bsize <= dim <= CInt.INT_MAX ->
  processable dim bsize step = dim - (dim - bsize) mod step.
Proof.
  intros Hs Hd. rewrite processable_rem by lia.
  now rewrite Z.rem_mod_nonneg by lia.
Qed.

Lemma processable_bounds dim bsize step :
  1 <= step <= bsize -> bsize <= dim <= CInt.INT_MAX ->
  bsize <= processable dim bsize step <= dim /\
  (step | processable dim bsize step - bsize).
Proof.
  intros Hs Hd. rewrite processable_mod by assumption.
  pose proof (Z.mod_pos_bound (dim - bsize) step ltac:(lia)) as Hm.
  pose proof (Z.mod_le (dim - bsize) step ltac:(lia) ltac:(lia)) as Hle.
  split; [lia |].
  exists ((dim - bsize) / step).
  pose proof (Z.div_mod (dim - bsize) step ltac:(lia)). lia.
Qed.

Section InitFacts.
Context `{CFloat} {AVExpr : Type}.
Variable av_expr_parse : string -> Z * option AVExpr.

#[local] Abbreviation ctx := (DCTdnoizContext AVExpr).


Lemma init_block_fields (s : ctx) :
  let s' := init_block s in
  n s' = n s /\ bsize s' = CInt.shl 1 (n s) /\ overlap s' = effective_overlap s /\
  expr_str s' = expr_str s /\ expr s' = expr s /\ sigma s' = sigma s /\
  th s' = th s /\ step s' = step s /\
  filter_freq_func s' = filter_freq_func s /\
  cbuf s' = cbuf s /\ weights s' = weights s /\
  pr_width s' = pr_width s /\ pr_height s' = pr_height s /\
  p_linesize s' = p_linesize s /\
  color_decorrelation s' = color_decorrelation s /\
  color_correlation s' = color_correlation s.
Proof.
  unfold init_block, effective_overlap. cbn.
  destruct (overlap s =? -1); cbn; repeat split; reflexivity.
Qed.

Lemma init_select_success f8 f16 (s s' : ctx) r :
  init_select f8 f16 s = Ret r s' ->
  r = 0 /\ (n s = 3 \/ n s = 4) /\ n s' = n s /\ bsize s' = bsize s /\
  overlap s' = overlap s /\ step s' = CInt.sub (bsize s) (overlap s) /\
  sigma s' = sigma s /\ expr s' = expr s /\
  filter_freq_func s' = Some (if n s =? 3 then f8 else f16).
Proof.
  unfold init_select, init_tail.
  destruct (Z.eqb_spec (n s) 3) as [E3 | N3].
  - intros [= <- <-]. cbn. repeat split; auto.
  - destruct (Z.eqb_spec (n s) 4) as [E4 | N4]; [| discriminate].
    intros [= <- <-]. cbn. repeat split; auto.
Qed.

Lemma init_success (s0 s : ctx) :
  init av_expr_parse s0 = Ret 0 s -> -1 <= overlap s0 ->
  (n s0 = 3 \/ n s0 = 4) /\ n s = n s0 /\
  bsize s = 2 ^ n s0 /\
  overlap s = effective_overlap s0 /\
  0 <= overlap s <= bsize s - 1 /\
  step s = bsize s - overlap s /\
  1 <= step s <= bsize s /\
  sigma s = sigma s0 /\
  is_Some (filter_freq_func s).
Proof.
  unfold init. intros Hi Hov.
  destruct (init_block_fields s0) as (Hn & Hb & Ho & Hes & _ & Hsg & _).
  set (s1 := init_block s0) in *.
  destruct (Z.gtb_spec (overlap s1) (CInt.sub (bsize s1) 1)) as [Hgt | Hle];
    [discriminate |].
  assert (Hsel : exists f8 f16 s2, init_select f8 f16 s2 = Ret 0 s /\
            n s2 = n s1 /\ bsize s2 = bsize s1 /\ overlap s2 = overlap s1 /\
            sigma s2 = sigma s1).
  { destruct (expr_str s1).
    - destruct (av_expr_parse s2) as [ret e].
      destruct (ret <? 0) eqn:Hret.
      + injection Hi as -> _. discriminate.
      + eexists _, _, _. split; [exact Hi |]. cbn. auto.
    - eexists _, _, _. split; [exact Hi |]. auto. }
  destruct Hsel as (f8 & f16 & s2 & Hs & Hn2 & Hb2 & Ho2 & Hsg2).
  apply init_select_success in Hs.
  destruct Hs as (_ & H34 & Hn' & Hb' & Ho' & Hst & Hsg' & _ & Hf).
  rewrite Hn2, Hn in H34.
  assert (Hp : 2 ^ n s0 = 8 \/ 2 ^ n s0 = 16)
    by (destruct H34 as [-> | ->]; auto).
  assert (Hbs : bsize s1 = 2 ^ n s0).
  { rewrite Hb. destruct H34 as [-> | ->]; reflexivity. }
  assert (Heo : 0 <= effective_overlap s0 <= 2 ^ n s0 - 1).
  { rewrite Ho, Hbs in Hle. rewrite CIntFacts.sub_id in Hle
      by (unfold CInt.in_range, CInt.INT_MIN, CInt.INT_MAX; lia).
    split; [| lia]. unfold effective_overlap in *.
    destruct (Z.eqb_spec (overlap s0) (-1)); [| lia].
    destruct H34 as [-> | ->]; cbv; discriminate. }
  rewrite Hb', Ho', Hb2, Ho2, Hbs, Ho in *.
  rewrite CIntFacts.sub_id in Hst
    by (unfold CInt.in_range, CInt.INT_MIN, CInt.INT_MAX; lia).
  repeat split; try lia; try congruence.
  rewrite Hf. eauto.
Qed.

(** ** The rejection of [init] *)

Lemma init_block_large_overlap (s0 : ctx) :
  (n s0 = 3 \/ n s0 = 4) ->
  effective_overlap s0 > 2 ^ n s0 - 1 ->
  init_block s0 = set_bsize (2 ^ n s0) s0.
Proof.
  intros Hn. unfold effective_overlap, init_block. cbn.
  destruct (Z.eqb_spec (overlap s0) (-1)).
  - destruct Hn as [-> | ->]; cbv; discriminate.
  - intros _. destruct Hn as [-> | ->]; reflexivity.
Qed.

(** C9, as the code has it.  [init] returns [AVERROR(EINVAL)] from its own
    check exactly when the overlap, after the default -1 has been replaced
    by [bsize - 1], exceeds [bsize - 1]; the context then differs from the
    one received in the field [bsize] only, so no filter function is
    installed and no expression is parsed.  With an overlap in range, [init]
    fails only when an expression is given and [av_expr_parse] returns a
    negative code, which [init] returns, again without installing a filter
    function; otherwise it returns 0 with a filter function installed and
    [step = bsize - overlap >= 1]. *)
Theorem init_overlap_check (s0 : ctx) :
  (n s0 = 3 \/ n s0 = 4) -> -1 <= overlap s0 ->
  let b := 2 ^ n s0 in
  let ov := effective_overlap s0 in
  (ov > b - 1 ->
     init av_expr_parse s0 = Ret (AVERROR EINVAL) (set_bsize b s0)) /\
  (ov <= b - 1 ->
     match expr_str s0 with
     | Some str =>
         let (ret, e) := av_expr_parse str in
         if ret <? 0 then
           exists s, init av_expr_parse s0 = Ret ret s /\
                     filter_freq_func s = filter_freq_func s0
         else
           exists s, init av_expr_parse s0 = Ret 0 s /\
                     is_Some (filter_freq_func s) /\
                     step s = b - ov /\ 1 <= step s
     | None =>
         exists s, init av_expr_parse s0 = Ret 0 s /\
                   is_Some (filter_freq_func s) /\
                   step s = b - ov /\ 1 <= step s
     end).
Proof.
  intros Hn Hov b ov.
  assert (Hp : b = 8 \/ b = 16) by (subst b; destruct Hn as [-> | ->]; auto).
  destruct (init_block_fields s0)
    as (Hn1 & Hb1 & Ho1 & Hes1 & _ & _ & _ & _ & Hf1 & _).
  assert (Hb : bsize (init_block s0) = b)
    by (rewrite Hb1; subst b; destruct Hn as [-> | ->]; reflexivity).
  assert (Hsub : CInt.sub (bsize (init_block s0)) 1 = b - 1).
  { rewrite Hb. apply CIntFacts.sub_id.
    unfold CInt.in_range, CInt.INT_MIN, CInt.INT_MAX. lia. }
  split; intros Hcmp.
  - unfold init. rewrite Hsub, Ho1. fold ov.
    destruct (Z.gtb_spec ov (b - 1)); [| lia].
    now rewrite init_block_large_overlap.
  - assert (Hsel : forall f8 f16 (s1 : ctx),
              n s1 = n s0 -> bsize s1 = b -> overlap s1 = ov ->
              exists s, init_select f8 f16 s1 = Ret 0 s /\
                        is_Some (filter_freq_func s) /\
                        step s = b - ov /\ 1 <= step s).
    { intros f8 f16 s1 En Eb Eo. unfold init_select, init_tail.
      assert (Hge : 0 <= ov).
      { subst ov. unfold effective_overlap.
        destruct (Z.eqb_spec (overlap s0) (-1)); [| lia].
        destruct Hn as [-> | ->]; cbv; discriminate. }
      assert (Hst : CInt.sub b ov = b - ov).
      { apply CIntFacts.sub_id.
        unfold CInt.in_range, CInt.INT_MIN, CInt.INT_MAX. lia. }
      rewrite En.
      destruct Hn as [E | E]; rewrite E; cbn [Z.eqb Pos.eqb];
        eexists; (split; [reflexivity |]); cbn; rewrite Eb, Eo, Hst;
        (split; [eauto |]); lia. }
    unfold init. rewrite Hsub, Ho1, Hes1. fold ov.
    destruct (Z.gtb_spec ov (b - 1)); [lia |].
    destruct (expr_str s0) as [str |].
    + destruct (av_expr_parse str) as [ret e].
      destruct (ret <? 0).
      * eexists. split; [reflexivity |]. cbn. exact Hf1.
      * apply Hsel; cbn; auto.
    + apply Hsel; auto.
Qed.


End InitFacts.

(** C10.  With at least one block in the dimension the cropped size lies
    between the block size and the dimension and leaves a whole number of
    steps after the first block; below the block size the remainder of C
    can be negative, and the cropped size then exceeds the dimension. *)
Theorem processable_needs_one_block :
  (forall dim bsize step,
      1 <= step <= bsize -> bsize <= dim <= CInt.INT_MAX ->
      processable dim bsize step = dim - (dim - bsize) mod step /\
      bsize <= processable dim bsize step <= dim /\
      (step | processable dim bsize step - bsize)) /\
  (exists dim bsize step,
      0 < dim < bsize /\ 1 < step <= bsize /\
      processable dim bsize step = dim - Z.rem (dim - bsize) step /\
      processable dim bsize step > dim).
Proof.
  split.
  - intros dim bsize step Hs Hd. split; [now apply processable_mod |].
    now apply processable_bounds.
  - exists 5, 8, 2. repeat split; try lia; reflexivity.
Qed.

(** ** Buffers *)

Section BufferFacts.
Context {A : Type}.

Lemma length_wr (buf : list A) (i : Z) v : length (wr buf i v) = length buf.
Proof. unfold wr. destruct (i <? 0); [reflexivity | apply length_insert]. Qed.

Lemma rd_wr_same d (buf : list A) (i : Z) v :
  0 <= i < Z.of_nat (length buf) -> rd d (wr buf i v) i = v.
Proof.
  intros Hi. unfold rd, wr. destruct (Z.ltb_spec i 0); [lia |].
  rewrite list_lookup_insert_eq by lia. reflexivity.
Qed.

Lemma rd_wr_other d (buf : list A) (i j : Z) v : i <> j -> rd d (wr buf i v) j = rd d buf j.
Proof.
  intros Hij. unfold rd, wr.
  destruct (Z.ltb_spec j 0); [reflexivity |].
  destruct (Z.ltb_spec i 0); [reflexivity |].
  rewrite list_lookup_insert_ne by lia. reflexivity.
Qed.

Lemma rd_replicate (d : A) k (i : Z) : rd d (replicate k d) i = d.
Proof.
  unfold rd. destruct (i <? 0); [reflexivity |].
  destruct (replicate k d !! Z.to_nat i) eqn:E; [| reflexivity].
  apply lookup_replicate in E. simpl. tauto.
Qed.

End BufferFacts.

Lemma for_each_nil {S} (body : Z -> S -> S) st : for_each [] body st = st.
Proof. reflexivity. Qed.

Lemma for_each_cons {S} a l (body : Z -> S -> S) st :
  for_each (a :: l) body st = for_each l body (body a st).
Proof. reflexivity. Qed.

Lemma for_each_app {S} l1 l2 (body : Z -> S -> S) st :
  for_each (l1 ++ l2) body st = for_each l2 body (for_each l1 body st).
Proof. unfold for_each. apply fold_left_app. Qed.

Lemma for_each_ext {S} l (body body' : Z -> S -> S) st :
  (forall a st, In a l -> body a st = body' a st) ->
  for_each l body st = for_each l body' st.
Proof.
  revert st. induction l as [| a l IH]; intros st Hb; [reflexivity |].
  rewrite !for_each_cons, Hb by apply in_eq.
  apply IH. intros b st' Hin. apply Hb. now apply in_cons.
Qed.

(** ** The block origins *)

Lemma for_steps_elem fuel i limit step p :
  1 <= step -> limit - i <= Z.of_nat fuel ->
  In p (for_steps fuel i limit step) <->
  i <= p < limit /\ (step | p - i).
Proof.
  intros Hs. revert i. induction fuel as [| fuel IH]; intros i Hf; simpl.
  - split; [intros [] | lia].
  - destruct (Z.ltb_spec i limit) as [Hlt | Hge].
    + simpl. rewrite IH by lia. split.
      * intros [<- | [Hr [k Hk]]].
        -- split; [lia |]. exists 0. lia.
        -- split; [lia |]. exists (k + 1). lia.
      * intros [Hr [k Hk]].
        destruct (Z.eq_dec i p) as [-> | Hne]; [now left | right].
        assert (1 <= k) by nia. split; [nia |]. exists (k - 1). lia.
    + split; [intros [] | lia].
Qed.

Lemma block_positions_elem limit step p :
  1 <= step ->
  In p (block_positions limit step) <-> 0 <= p < limit /\ (step | p).
Proof.
  intros Hs. unfold block_positions.
  rewrite for_steps_elem by lia. now rewrite Z.sub_0_r.
Qed.

(** ** Counting *)





Lemma sumZ_app l1 l2 : sumZ (l1 ++ l2) = sumZ l1 + sumZ l2.
Proof. induction l1; simpl; lia. Qed.

Lemma sumZ_nonneg l : Forall (fun z => 0 <= z) l -> 0 <= sumZ l.
Proof. induction 1; simpl; lia. Qed.

Lemma sumZ_map_ext {A} (f g : A -> Z) l :
  (forall a, In a l -> f a = g a) -> sumZ (map f l) = sumZ (map g l).
Proof.
  induction l as [| a l IH]; intros Hfg; [reflexivity |]. simpl.
  rewrite Hfg by apply in_eq.
  rewrite IH; [reflexivity |]. intros b Hb. apply Hfg. now apply in_cons.
Qed.

Lemma sumZ_map_scale {A} (f : A -> Z) c l :
  sumZ (map (fun a => f a * c) l) = sumZ (map f l) * c.
Proof. induction l; simpl; lia. Qed.

Lemma hits_app l1 l2 j : hits (l1 ++ l2) j = hits l1 j + hits l2 j.
Proof. unfold hits. now rewrite map_app, sumZ_app. Qed.

Lemma hits_flat_map {A} (g : A -> list Z) l j :
  hits (flat_map g l) j = sumZ (map (fun a => hits (g a) j) l).
Proof.
  induction l as [| a l IH]; [reflexivity |]. simpl.
  now rewrite hits_app, IH.
Qed.

Lemma length_touch idxs iw : length (touch idxs iw) = length iw.
Proof.
  unfold touch. revert iw. induction idxs as [| i idxs IH]; intros iw; simpl;
    [reflexivity |].
  rewrite IH. apply length_wr.
Qed.

Lemma rd_touch idxs iw j :
  Forall (fun i => 0 <= i < Z.of_nat (length iw)) idxs ->
  rd 0 (touch idxs iw) j = rd 0 iw j + hits idxs j.
Proof.
  unfold touch, hits. revert iw.
  induction idxs as [| i idxs IH]; intros iw Hr; simpl; [lia |].
  inversion Hr as [| ? ? Hi Hr']; subst.
  rewrite IH by (unfold incr; rewrite length_wr; exact Hr').
  unfold incr, indicator. destruct (Z.eqb_spec i j) as [-> | Hne].
  - rewrite rd_wr_same by exact Hi. lia.
  - rewrite rd_wr_other by exact Hne. lia.
Qed.

Lemma for_each_touch (l : list Z) (g : Z -> list Z) (body : Z -> list Z -> list Z) iw :
  (forall a st, body a st = touch (g a) st) ->
  for_each l body iw = touch (flat_map g l) iw.
Proof.
  intros Hb. revert iw. induction l as [| a l IH]; intros iw; [reflexivity |].
  rewrite for_each_cons, IH, Hb. simpl. unfold touch. now rewrite fold_left_app.
Qed.

Lemma for_each_incr (l : list Z) (g : Z -> Z) iw :
  for_each l (fun a st => incr st (g a)) iw = touch (map g l) iw.
Proof.
  revert iw. induction l as [| a l IH]; intros iw; [reflexivity |].
  rewrite for_each_cons, IH. reflexivity.
Qed.



Lemma count_blocks_touch bsize step pr_width pr_height linesize iw :
  count_blocks bsize step pr_width pr_height linesize iw =
  touch (coverage_indices bsize step pr_width pr_height linesize) iw.
Proof.
  unfold count_blocks, coverage_indices, footprint_indices.
  apply for_each_touch. intros y st.
  apply for_each_touch. intros x st'.
  apply for_each_touch. intros by_ st''.
  apply for_each_incr.
Qed.

(** One line of a footprint hits [j] at most once. *)
Lemma hits_row base bsize j :
  hits (map (fun bx => base + bx) (upto bsize)) j =
  indicator ((base <=? j) && (j <? base + bsize)).
Proof.
  unfold upto, hits, indicator. rewrite map_map.
  destruct (Z_le_gt_dec bsize 0) as [Hle | Hgt].
  - rewrite seqZ_nil by lia. simpl.
    destruct (Z.leb_spec base j), (Z.ltb_spec j (base + bsize)); simpl; lia.
  - rewrite <- (Z2Nat.id bsize) by lia.
    generalize (Z.to_nat bsize) as k. clear. intros k.
    induction k as [| k IH].
    + change (Z.of_nat 0) with 0. rewrite seqZ_nil by lia. simpl.
      destruct (Z.leb_spec base j), (Z.ltb_spec j (base + 0)); simpl; lia.
    + rewrite seqZ_S, map_app, sumZ_app, IH. simpl.
      destruct (Z.eqb_spec (base + (0 + Z.of_nat k)) j),
               (Z.leb_spec base j), (Z.ltb_spec j (base + Z.of_nat k)),
               (Z.ltb_spec j (base + Z.of_nat (S k))); simpl; lia.
Qed.

(** A whole footprint hits the pixel [(X, Y)] of a line of [linesize]
    elements once if the block at [(x, y)] covers it, and never otherwise. *)
Lemma hits_footprint bsize linesize y x X Y :
  0 <= x -> x + bsize <= linesize -> 0 <= X < linesize ->
  hits (footprint_indices bsize linesize y x) (Y * linesize + X) =
  indicator ((x <=? X) && (X <? x + bsize)) *
  indicator ((y <=? Y) && (Y <? y + bsize)).
Proof.
  intros Hx Hxb HX. unfold footprint_indices. rewrite hits_flat_map.
  rewrite (sumZ_map_ext _
             (fun by_ => indicator (y + by_ =? Y) *
                         indicator ((x <=? X) && (X <? x + bsize)))).
  2:{ intros by_ _.
      rewrite (hits_row ((y + by_) * linesize + x) bsize). unfold indicator.
      destruct (Z.eqb_spec (y + by_) Y) as [-> | Hne].
      - destruct (Z.leb_spec x X), (Z.ltb_spec X (x + bsize)),
          (Z.leb_spec (Y * linesize + x) (Y * linesize + X)),
          (Z.ltb_spec (Y * linesize + X) (Y * linesize + x + bsize));
          simpl; lia.
      - destruct (Z.leb_spec ((y + by_) * linesize + x) (Y * linesize + X)),
          (Z.ltb_spec (Y * linesize + X) ((y + by_) * linesize + x + bsize));
          simpl; try lia.
        exfalso. nia. }
  rewrite sumZ_map_scale. rewrite Z.mul_comm. f_equal.
  pose proof (hits_row y bsize Y) as Hr. unfold hits in Hr.
  rewrite map_map in Hr. exact Hr.
Qed.

Lemma covering_nonneg ps bsize X : 0 <= covering ps bsize X.
Proof.
  unfold covering. apply sumZ_nonneg. rewrite List.Forall_map. apply List.Forall_forall.
  intros p _. unfold indicator. destruct (_ && _); lia.
Qed.

(** The count at a pixel is the product of the counts along the two axes. *)
Lemma hits_coverage bsize step pr_width pr_height linesize X Y :
  1 <= step -> pr_width <= linesize -> 0 <= X < linesize ->
  hits (coverage_indices bsize step pr_width pr_height linesize) (Y * linesize + X) =
  covering (block_positions (pr_width - bsize + 1) step) bsize X *
  covering (block_positions (pr_height - bsize + 1) step) bsize Y.
Proof.
  intros Hs Hl HX. unfold coverage_indices. rewrite hits_flat_map.
  set (cx := covering (block_positions (pr_width - bsize + 1) step) bsize X).
  rewrite (sumZ_map_ext _
             (fun y => indicator ((y <=? Y) && (Y <? y + bsize)) * cx)).
  - rewrite sumZ_map_scale. unfold covering. lia.
  - intros y _. rewrite hits_flat_map.
    rewrite (sumZ_map_ext _
               (fun x => indicator ((x <=? X) && (X <? x + bsize)) *
                         indicator ((y <=? Y) && (Y <? y + bsize)))).
    + rewrite sumZ_map_scale. unfold cx, covering. lia.
    + intros x Hx. apply block_positions_elem in Hx; [| exact Hs].
      apply hits_footprint; lia.
Qed.

Lemma coverage_indices_range bsize step pr_width pr_height linesize :
  1 <= step -> 0 <= pr_width <= linesize ->
  Forall (fun i => 0 <= i < pr_height * linesize)
         (coverage_indices bsize step pr_width pr_height linesize).
Proof.
  intros Hs Hl. apply List.Forall_forall. intros i Hi.
  unfold coverage_indices, footprint_indices, upto in Hi.
  apply in_flat_map in Hi. destruct Hi as (y & Hy & Hi).
  apply in_flat_map in Hi. destruct Hi as (x & Hx & Hi).
  apply in_flat_map in Hi. destruct Hi as (by_ & Hby & Hi).
  apply in_map_iff in Hi. destruct Hi as (bx & <- & Hbx).
  apply block_positions_elem in Hy, Hx; try exact Hs.
  apply list_elem_of_In, elem_of_seqZ in Hby, Hbx. nia.
Qed.

(** What [config_input] leaves in [iweights]: at the pixel [(X, Y)] of the
    processed region, the number of blocks covering [X] times the number of
    blocks covering [Y]. *)
Lemma count_blocks_spec bsize step pr_width pr_height linesize X Y :
  1 <= step -> 0 <= pr_width <= linesize ->
  0 <= X < pr_width -> 0 <= Y < pr_height ->
  rd 0 (count_blocks bsize step pr_width pr_height linesize
          (av_malloc 0 (pr_height * linesize)))
       (Y * linesize + X) =
  covering (block_positions (pr_width - bsize + 1) step) bsize X *
  covering (block_positions (pr_height - bsize + 1) step) bsize Y.
Proof.
  intros Hs Hl HX HY. rewrite count_blocks_touch, rd_touch.
  - unfold av_malloc. rewrite rd_replicate, hits_coverage by lia. lia.
  - unfold av_malloc. rewrite length_replicate, Z2Nat.id by nia.
    now apply coverage_indices_range.
Qed.

(** Along one axis a pixel is covered by at least one block when the frame
    holds a block and the cropped size leaves whole steps after it. *)
Lemma covering_pos bsize step pr X :
  1 <= step <= bsize -> bsize <= pr -> (step | pr - bsize) -> 0 <= X < pr ->
  1 <= covering (block_positions (pr - bsize + 1) step) bsize X.
Proof.
  intros Hs Hb Hd HX.
  set (p := Z.min (step * (X / step)) (pr - bsize)).
  assert (Hp : In p (block_positions (pr - bsize + 1) step)).
  { apply block_positions_elem; [lia |]. subst p.
    pose proof (Z.div_pos X step ltac:(lia) ltac:(lia)).
    split; [nia |].
    destruct (Z.min_spec (step * (X / step)) (pr - bsize)) as [[_ ->] | [_ ->]].
    - now exists (X / step); lia.
    - destruct Hd as [k Hk]. exists k. lia. }
  assert (Hc : (p <=? X) && (X <? p + bsize) = true).
  { pose proof (Z.mul_div_le X step ltac:(lia)).
    pose proof (Z.mod_pos_bound X step ltac:(lia)).
    pose proof (Z.div_mod X step ltac:(lia)).
    apply andb_true_iff. split; [apply Z.leb_le | apply Z.ltb_lt]; subst p; lia. }
  unfold covering.
  apply in_split in Hp. destruct Hp as (l1 & l2 & ->).
  rewrite map_app, sumZ_app. simpl. rewrite Hc. simpl.
  pose proof (covering_nonneg l1 bsize X). pose proof (covering_nonneg l2 bsize X).
  unfold covering in *. lia.
Qed.

Lemma covering_for_steps fuel i limit step lo hi :
  1 <= step ->
  sumZ (map (fun p => indicator ((lo <=? p) && (p <? hi)))
            (for_steps fuel i limit step)) <= Z.max 0 (hi - Z.max lo i).
Proof.
  intros Hs. revert i. induction fuel as [| fuel IH]; intros i; simpl; [lia |].
  destruct (i <? limit); simpl; [| lia].
  specialize (IH (i + step)). unfold indicator in *.
  destruct (Z.leb_spec lo i), (Z.ltb_spec i hi); simpl; lia.
Qed.

(** Along one axis at most [bsize] blocks cover a pixel. *)
Lemma covering_le bsize step limit X :
  1 <= step -> 0 <= bsize ->
  covering (block_positions limit step) bsize X <= bsize.
Proof.
  intros Hs Hb. unfold covering, block_positions.
  pose proof (covering_for_steps (Z.to_nat limit) 0 limit step (X - bsize + 1) (X + 1) Hs)
    as Hc.
  erewrite sumZ_map_ext; [etransitivity; [exact Hc |]; lia |].
  intros p _. unfold indicator.
  destruct (Z.leb_spec p X), (Z.ltb_spec X (p + bsize)),
    (Z.leb_spec (X - bsize + 1) p), (Z.ltb_spec p (X + 1)); simpl; lia.
Qed.

(** The counter of every pixel of the processed region, when the frame
    holds at least one block in each direction. *)
Lemma count_blocks_bounds bsize step pr_width pr_height linesize X Y :
  1 <= step <= bsize ->
  bsize <= pr_width <= linesize -> bsize <= pr_height ->
  (step | pr_width - bsize) -> (step | pr_height - bsize) ->
  0 <= X < pr_width -> 0 <= Y < pr_height ->
  1 <= rd 0 (count_blocks bsize step pr_width pr_height linesize
               (av_malloc 0 (pr_height * linesize)))
            (Y * linesize + X) <= bsize * bsize.
Proof.
  intros Hs Hw Hh Hdw Hdh HX HY.
  rewrite count_blocks_spec by lia.
  pose proof (covering_pos bsize step pr_width X Hs ltac:(lia) Hdw HX).
  pose proof (covering_pos bsize step pr_height Y Hs ltac:(lia) Hdh HY).
  pose proof (covering_le bsize step (pr_width - bsize + 1) X ltac:(lia) ltac:(lia)).
  pose proof (covering_le bsize step (pr_height - bsize + 1) Y ltac:(lia) ltac:(lia)).
  nia.
Qed.
(** ** The sweep, the alignment and the stored weights *)

(** The sweep of [filter_plane] visits the blocks that [config_input]
    counted: with the unit footprint in place of the filter it rebuilds the
    counters. *)
Lemma block_sums_unit_footprint {S : Type} bsize step w h linesize
    (src : list S) src_linesize iw :
  block_sums bsize step (unit_footprint bsize) iw linesize src src_linesize w h =
  count_blocks bsize step w h linesize iw.
Proof.
  unfold block_sums, count_blocks, unit_footprint.
  apply for_each_ext. intros y st _.
  apply for_each_ext. intros x st' _.
  apply for_each_ext. intros by_ st'' _.
  apply for_each_ext. intros bx d _. f_equal. ring.
Qed.

Lemma FFALIGN_32 x : 0 <= x -> x <= FFALIGN x 32 /\ FFALIGN x 32 mod 32 = 0.
Proof.
  intros Hx. unfold FFALIGN.
  change (32 - 1) with (Z.ones 5).
  rewrite <- Z.ldiff_land, Z.ldiff_ones_r by lia.
  rewrite Z.shiftr_div_pow2, Z.shiftl_mul_pow2 by lia.
  change (2 ^ 5) with 32.
  pose proof (Z.div_mod (x + 32 - 1) 32 ltac:(lia)) as Hd.
  pose proof (Z.mod_pos_bound (x + 32 - 1) 32 ltac:(lia)) as Hm.
  split; [lia |]. apply Z.mod_mul. lia.
Qed.


Lemma length_store {A} (f : Z -> A) idxs buf : length (store f idxs buf) = length buf.
Proof.
  unfold store. revert buf. induction idxs as [| i idxs IH]; intros buf; simpl;
    [reflexivity |].
  rewrite IH. apply length_wr.
Qed.

Lemma rd_store {A} (d : A) (f : Z -> A) idxs buf j :
  Forall (fun i => 0 <= i < Z.of_nat (length buf)) idxs ->
  In j idxs -> rd d (store f idxs buf) j = f j.
Proof.
  unfold store. revert buf.
  induction idxs as [| i idxs IH]; intros buf Hr Hj; [destruct Hj |].
  inversion Hr as [| ? ? Hi Hr']; subst. simpl.
  destruct (in_dec Z.eq_dec j idxs) as [Hin | Hnin].
  - apply IH; [| exact Hin]. now rewrite length_wr.
  - destruct Hj as [-> | Hj]; [| contradiction].
    clear IH Hr. revert buf Hi Hr'.
    induction idxs as [| k idxs IH]; intros buf Hi Hr'; simpl.
    + now apply rd_wr_same.
    + inversion Hr' as [| ? ? Hk Hr'']; subst.
      assert (Hkj : k <> j) by (intros ->; apply Hnin; now left).
      assert (Hnin' : ~ In j idxs) by (intros Hc; apply Hnin; now right).
      specialize (IH Hnin').
      (* the write at [k] commutes past the one at [j] as far as [j] goes *)
      transitivity (rd d (fold_left (fun b i => wr b i (f i)) idxs (wr buf j (f j))) j).
      2:{ apply IH; assumption. }
      clear IH. generalize (wr buf j (f j)) as b1. intros b1.
      assert (Hgen : forall b2 b3 : list A, rd d b2 j = rd d b3 j ->
                 rd d (fold_left (fun b i => wr b i (f i)) idxs b2) j =
                 rd d (fold_left (fun b i => wr b i (f i)) idxs b3) j).
      { clear - Hnin'. induction idxs as [| m idxs IH]; intros b2 b3 Hb; simpl;
          [exact Hb |].
        apply IH; [intros Hc; apply Hnin'; now right |].
        assert (m <> j) by (intros ->; apply Hnin'; now left).
        now rewrite !rd_wr_other. }
      apply Hgen. now rewrite rd_wr_other.
Qed.

Lemma for_each_fold {A} (F : list A -> Z -> list A) (l : list Z) (g : Z -> list Z)
    (body : Z -> list A -> list A) buf :
  (forall a st, body a st = fold_left F (g a) st) ->
  for_each l body buf = fold_left F (flat_map g l) buf.
Proof.
  intros Hb. revert buf. induction l as [| a l IH]; intros buf; [reflexivity |].
  rewrite for_each_cons, IH, Hb. simpl. now rewrite fold_left_app.
Qed.

Lemma for_each_map_fold {A} (F : list A -> Z -> list A) (l : list Z) (g : Z -> Z) buf :
  for_each l (fun a st => F st (g a)) buf = fold_left F (map g l) buf.
Proof.
  revert buf. induction l as [| a l IH]; intros buf; [reflexivity |].
  rewrite for_each_cons, IH. reflexivity.
Qed.


Lemma region_indices_elem w h linesize X Y :
  0 <= X < w -> 0 <= Y < h -> In (Y * linesize + X) (region_indices w h linesize).
Proof.
  intros HX HY. unfold region_indices, upto. apply in_flat_map.
  exists Y. split; [apply list_elem_of_In, elem_of_seqZ; lia |].
  apply in_map_iff. exists X. split; [reflexivity |].
  apply list_elem_of_In, elem_of_seqZ. lia.
Qed.

Lemma region_indices_range w h linesize :
  0 <= w <= linesize ->
  Forall (fun i => 0 <= i < h * linesize) (region_indices w h linesize).
Proof.
  intros Hw. apply List.Forall_forall. intros i Hi.
  unfold region_indices, upto in Hi.
  apply in_flat_map in Hi. destruct Hi as (y & Hy & Hi).
  apply in_map_iff in Hi. destruct Hi as (x & <- & Hx).
  apply list_elem_of_In, elem_of_seqZ in Hy, Hx. nia.
Qed.

Section WeightFacts.
Context `{CFloat}.


Lemma reciprocals_store pr_width pr_height linesize iweights wt :
  reciprocals pr_width pr_height linesize iweights wt =
  store (fun i => reciprocal (rd 0 iweights i))
        (region_indices pr_width pr_height linesize) wt.
Proof.
  unfold reciprocals, store, region_indices.
  apply for_each_fold. intros y st.
  apply (for_each_map_fold
           (fun b i => wr b i (reciprocal (rd 0 iweights i)))).
Qed.

Lemma rd_reciprocals pr_width pr_height linesize iweights X Y :
  0 <= pr_width <= linesize -> 0 <= X < pr_width -> 0 <= Y < pr_height ->
  rd fzero (reciprocals pr_width pr_height linesize iweights
              (av_malloc fzero (pr_height * linesize)))
     (Y * linesize + X) =
  reciprocal (rd 0 iweights (Y * linesize + X)).
Proof.
  intros Hw HX HY. rewrite reciprocals_store.
  apply (rd_store fzero (fun i => reciprocal (rd 0 iweights i))).
  - unfold av_malloc. rewrite length_replicate, Z2Nat.id by nia.
    apply region_indices_range. lia.
  - now apply region_indices_elem.
Qed.

End WeightFacts.

Section GeometryFacts.
Context `{CFloat} {AVExpr : Type}.
Variable av_expr_parse : string -> Z * option AVExpr.
#[local] Abbreviation ctx := (DCTdnoizContext AVExpr).

(** What [config_input] leaves in the context. *)
Lemma config_input_fields (inlink : AVFilterLink) (s s' : ctx) r :
  config_input inlink s = Ret r s' ->
  let b := CInt.shl 1 (n s) in
  let prw := processable (w inlink) b (step s) in
  let prh := processable (h inlink) b (step s) in
  let lz := FFALIGN prw 32 in
  r = 0 /\ pr_width s' = prw /\ pr_height s' = prh /\ p_linesize s' = lz /\
  bsize s' = bsize s /\ step s' = step s /\ n s' = n s /\
  filter_freq_func s' = filter_freq_func s /\ expr s' = expr s /\
  weights s' =
    reciprocals prw prh lz
      (count_blocks b (step s) prw prh lz (av_malloc 0 (prh * lz)))
      (av_malloc fzero (prh * lz)).
Proof.
  unfold config_input.
  destruct (format inlink); intros [= <- <-] || intros [=]; cbn;
    repeat split; reflexivity.
Qed.

End GeometryFacts.
(** ** An expression overrides [sigma] *)

Section SigmaIndependence.
Context `{CFloat} {AVExpr : Type}.
Variable av_expr_parse : string -> Z * option AVExpr.
Variable av_expr_eval : AVExpr -> list double -> double.
#[local] Abbreviation ctx := (DCTdnoizContext AVExpr).


Ltac same_fields s1 s2 H :=
  destruct s1 as [es1 ex1 pw1 ph1 sg1 th1 cb1 wt1 pl1 ov1 st1 n1 bs1 ff1 cd1 cc1];
  destruct s2 as [es ex pw ph sg2 th2 cb wt pl ov st nb bs ff cd cc];
  unfold agree_but_sigma in H; cbn in H;
  destruct H as (-> & -> & -> & -> & -> & -> & -> & -> & -> & -> & -> & -> & -> & ->).

Lemma init_agree (s1 s2 : ctx) :
  agree_but_sigma s1 s2 -> expr_str s1 <> None ->
  match init av_expr_parse s1, init av_expr_parse s2 with
  | Ret r1 t1, Ret r2 t2 =>
      r1 = r2 /\ agree_but_sigma t1 t2 /\ (0 <= r1 -> expr_installed t1)
  | Abort, Abort => True
  | _, _ => False
  end.
Proof.
  intros Ha He. same_fields s1 s2 Ha. cbn in He.
  destruct es as [str |]; [| congruence].
  unfold init, init_block, init_select, init_tail, agree_but_sigma, expr_installed.
  cbn -[CInt.shl CInt.sub].
  destruct (_ =? -1); cbn -[CInt.shl CInt.sub];
    (destruct (_ >? _); cbn -[CInt.shl CInt.sub];
     [ unfold AVERROR, EINVAL; intuition lia |]);
    destruct (av_expr_parse str) as [ret e]; cbn -[CInt.shl CInt.sub];
    (destruct (Z.ltb_spec ret 0); cbn -[CInt.shl CInt.sub]; [intuition lia |]);
    (destruct (_ =? 3); cbn -[CInt.shl CInt.sub]; [intuition auto |]);
    (destruct (_ =? 4); cbn -[CInt.shl CInt.sub]; intuition auto).
Qed.

Lemma config_input_agree inlink (s1 s2 : ctx) :
  agree_but_sigma s1 s2 ->
  match config_input inlink s1, config_input inlink s2 with
  | Ret r1 t1, Ret r2 t2 =>
      r1 = r2 /\ agree_but_sigma t1 t2 /\
      filter_freq_func t1 = filter_freq_func s1
  | Abort, Abort => True
  | _, _ => False
  end.
Proof.
  intros Ha. same_fields s1 s2 Ha. unfold config_input. cbn.
  destruct (format inlink); cbn; auto; repeat split; reflexivity.
Qed.

Lemma filter_plane_agree (s1 s2 : ctx) dst dl src sl w h :
  agree_but_sigma s1 s2 -> expr_installed s1 ->
  filter_plane av_expr_eval s1 dst dl src sl w h =
  filter_plane av_expr_eval s2 dst dl src sl w h.
Proof.
  intros Ha Hi. same_fields s1 s2 Ha. unfold expr_installed in Hi. cbn in Hi.
  unfold filter_plane, filter_plane_with.
  cbn [filter_freq_func weights bsize step].
  destruct Hi as [-> | ->]; cbn [call_filter_freq_func];
    unfold filter_freq_expr; cbn [expr]; reflexivity.
Qed.

Lemma copy_padding_agree inlink (s1 s2 : ctx) dst dl src sl :
  pr_width s1 = pr_width s2 -> pr_height s1 = pr_height s2 ->
  copy_padding inlink s1 dst dl src sl = copy_padding inlink s2 dst dl src sl.
Proof. unfold copy_padding. now intros -> ->. Qed.

Lemma filter_frame_agree inlink (s1 s2 : ctx) in_ fresh :
  agree_but_sigma s1 s2 -> expr_installed s1 ->
  match filter_frame av_expr_eval inlink s1 in_ fresh,
        filter_frame av_expr_eval inlink s2 in_ fresh with
  | Output o1 _, Output o2 _ => o1 = o2
  | Failed c1, Failed c2 => c1 = c2
  | Undefined, Undefined => True
  | _, _ => False
  end.
Proof.
  intros Ha Hi. unfold filter_frame. cbv beta zeta.
  pose proof (fun dst dl src sl w h =>
                filter_plane_agree s1 s2 dst dl src sl w h Ha Hi) as Hfp.
  destruct Ha as (_ & _ & Hpw & Hph & Hcb & _ & Hpl & _ & _ & _ & _ & _ & Hcd & Hcc).
  rewrite Hcd, Hcc, Hpl, Hcb, Hpw, Hph.
  destruct (if writable in_ then Some in_ else fresh) as [out |]; [| reflexivity].
  destruct (color_decorrelation s2), (color_correlation s2); auto.
  rewrite !Hfp.
  repeat match goal with
         | |- context [filter_plane ?e ?s ?a ?b ?c ?d ?f ?g] =>
             destruct (filter_plane e s a b c d f g); auto
         end.
  cbn [pr_width pr_height set_cbuf]. rewrite Hpw, Hph.
  destruct (writable in_); [reflexivity |].
  erewrite copy_padding_agree by (cbn; eassumption).
  destruct (copy_padding _ _ _ _ _ _); reflexivity.
Qed.

(** C8.  With an expression given, two configurations that differ in
    [sigma] only take every frame to the same result: the same output
    frame, the same error code, or the same failure. *)
Theorem expr_output_independent_of_sigma (s1 s2 : ctx) inlink in_ fresh :
  agree_but_sigma s1 s2 -> expr_str s1 <> None ->
  process av_expr_parse av_expr_eval s1 inlink in_ fresh =
  process av_expr_parse av_expr_eval s2 inlink in_ fresh.
Proof.
  intros Ha He. unfold process.
  pose proof (init_agree s1 s2 Ha He) as Hi.
  destruct (init av_expr_parse s1) as [r1 t1 |],
           (init av_expr_parse s2) as [r2 t2 |]; try contradiction; [| reflexivity].
  destruct Hi as (<- & Ht & Hx).
  destruct (Z.ltb_spec r1 0) as [Hneg | Hpos]; [reflexivity |].
  pose proof (config_input_agree inlink t1 t2 Ht) as Hc.
  destruct (config_input inlink t1) as [c1 u1 |],
           (config_input inlink t2) as [c2 u2 |]; try contradiction; [| reflexivity].
  destruct Hc as (<- & Hu & Hf).
  destruct (c1 <? 0); [reflexivity |].
  assert (Hxu : expr_installed u1).
  { unfold expr_installed. rewrite Hf. apply Hx. lia. }
  pose proof (filter_frame_agree inlink u1 u2 in_ fresh Hu Hxu) as Hff.
  destruct (filter_frame av_expr_eval inlink u1 in_ fresh),
           (filter_frame av_expr_eval inlink u2 in_ fresh);
    try contradiction; congruence.
Qed.

End SigmaIndependence.
(** ** The pixels outside the processed region *)

Lemma for_each_inv {S} (P : S -> Prop) (l : list Z) (body : Z -> S -> S) st :
  P st -> (forall a st, In a l -> P st -> P (body a st)) -> P (for_each l body st).
Proof.
  revert st. induction l as [| a l IH]; intros st H0 Hb; [exact H0 |].
  rewrite for_each_cons. apply IH.
  - apply Hb; [apply in_eq | exact H0].
  - intros b st' Hin. apply Hb. now apply in_cons.
Qed.

Lemma In_upto k n : In k (upto n) <-> 0 <= k < n.
Proof. unfold upto. rewrite <- list_elem_of_In, elem_of_seqZ. lia. Qed.

Lemma rd_store_other {A} (d : A) (f : Z -> A) idxs buf j :
  ~ In j idxs -> rd d (store f idxs buf) j = rd d buf j.
Proof.
  unfold store. revert buf. induction idxs as [| i idxs IH]; intros buf Hj;
    [reflexivity |].
  simpl. rewrite IH by (intros Hc; apply Hj; now right).
  apply rd_wr_other. intros ->. apply Hj. now left.
Qed.

Section FrameFacts.
Context `{CFloat} {AVExpr : Type}.
Variable av_expr_eval : AVExpr -> list double -> double.
#[local] Abbreviation ctx := (DCTdnoizContext AVExpr).

(** [color_correlation] writes the three bytes of the pixels of the
    [w] by [h] region and nothing else. *)
Lemma color_correlation_outside dst dl (src : list (list float)) sl w h r g b o :
  0 <= r < 3 -> 0 <= g < 3 -> 0 <= b < 3 ->
  (forall x y k, 0 <= x < w -> 0 <= y < h -> 0 <= k < 3 -> o <> y * dl + 3 * x + k) ->
  rd 0 (color_correlation_ dst dl src sl w h r g b) o = rd 0 dst o.
Proof.
  intros Hr Hg Hb Ho. unfold color_correlation_.
  apply (for_each_inv (fun st => rd 0 st o = rd 0 dst o)); [reflexivity |].
  intros y st Hy Hst.
  apply (for_each_inv (fun st => rd 0 st o = rd 0 dst o)); [exact Hst |].
  intros x st' Hx Hst'. apply In_upto in Hy, Hx.
  destruct (correlate_pixel _ _ _) as [[vr vg] vb].
  rewrite !rd_wr_other; [exact Hst' | | |]; intros E;
    [apply (Ho x y r) | apply (Ho x y g) | apply (Ho x y b)]; lia.
Qed.

Lemma call_color_correlation_outside c dst dl (src : list (list float)) sl w h o :
  (forall x y k, 0 <= x < w -> 0 <= y < h -> 0 <= k < 3 -> o <> y * dl + 3 * x + k) ->
  rd 0 (call_color_correlation c dst dl src sl w h) o = rd 0 dst o.
Proof.
  intros Ho. destruct c; apply color_correlation_outside; (lia || exact Ho).
Qed.

Lemma length_color_correlation c dst dl (src : list (list float)) sl w h :
  length (call_color_correlation c dst dl src sl w h) = length dst.
Proof.
  destruct c; unfold call_color_correlation, color_correlation_;
    (apply (for_each_inv (fun st => length st = length dst)); [reflexivity |];
     intros y st _ Hst;
     apply (for_each_inv (fun st => length st = length dst)); [exact Hst |];
     intros x st' _ Hst'; destruct (correlate_pixel _ _ _) as [[vr vg] vb];
     now rewrite !length_wr).
Qed.

End FrameFacts.


Lemma copy_rows_store rows dst doff dl src soff sl len :
  0 <= len <= dl -> Forall (fun y => 0 <= y) rows ->
  copy_rows rows dst doff dl src soff sl len =
  Some (store (copied_from src doff dl soff sl) (row_indices rows doff dl len) dst).
Proof.
  intros Hl Hrows. revert dst.
  induction Hrows as [| y rows Hy Hrows IH]; intros dst; [reflexivity |].
  simpl. unfold memcpy. destruct (Z.ltb_spec len 0); [lia |].
  rewrite IH. f_equal. unfold row_indices, store. simpl.
  rewrite fold_left_app. f_equal.
  rewrite <- (for_each_map_fold
                (fun b i => wr b i (copied_from src doff dl soff sl i))).
  apply for_each_ext. intros k d Hk. apply In_upto in Hk.
  f_equal. unfold copied_from.
  replace (doff + y * dl + k - doff) with (k + y * dl) by lia.
  rewrite Z.div_add, Z.mod_add, Z.div_small, Z.mod_small by lia.
  f_equal; lia.
Qed.

Lemma row_indices_elem rows doff dl len i :
  In i (row_indices rows doff dl len) <->
  exists y k, In y rows /\ 0 <= k < len /\ i = doff + y * dl + k.
Proof.
  unfold row_indices. rewrite in_flat_map. split.
  - intros (y & Hy & Hi). apply in_map_iff in Hi. destruct Hi as (k & <- & Hk).
    apply In_upto in Hk. eauto.
  - intros (y & k & Hy & Hk & ->). exists y. split; [exact Hy |].
    apply in_map_iff. exists k. split; [reflexivity | now apply In_upto].
Qed.

Lemma row_indices_empty rows doff dl : row_indices rows doff dl 0 = [].
Proof. unfold row_indices. induction rows; simpl; auto. Qed.

Lemma Forall_upto_nonneg n : Forall (fun y => 0 <= y) (upto n).
Proof. apply List.Forall_forall. intros y Hy. apply In_upto in Hy. lia. Qed.

Section PaddingFacts.
Context `{CFloat} {AVExpr : Type}.
Variable av_expr_eval : AVExpr -> list double -> double.
#[local] Abbreviation ctx := (DCTdnoizContext AVExpr).

(** The padding copy, when the processed region lies within the frame: it
    is defined, and it brings every pixel outside the region from the input
    frame. *)
Lemma copy_padding_margin (inlink : AVFilterLink) (s : ctx) dst dl src sl :
  0 <= pr_width s <= w inlink -> 0 <= pr_height s <= h inlink ->
  3 * w inlink <= dl <= CInt.INT_MAX -> h inlink <= CInt.INT_MAX ->
  h inlink * dl <= Z.of_nat (length dst) ->
  exists d', copy_padding inlink s dst dl src sl = Some d' /\
    length d' = length dst /\
    forall X Y k, 0 <= X < w inlink -> 0 <= Y < h inlink ->
      pr_width s <= X \/ pr_height s <= Y -> 0 <= k < 3 ->
      rd 0 d' (Y * dl + 3 * X + k) = rd 0 src (Y * sl + 3 * X + k).
Proof.
  intros Hw Hh Hdl Hhm Hlen. unfold copy_padding, CInt.INT_MAX in *.
  set (prw := pr_width s) in *. set (prh := pr_height s) in *.
  assert (Hhpad : CInt.mul (CInt.sub (w inlink) prw) 3 = 3 * (w inlink - prw)).
  { unfold CInt.mul. rewrite CIntFacts.sub_id, CIntFacts.wrap_id;
      unfold CInt.in_range, CInt.INT_MIN, CInt.INT_MAX; lia. }
  assert (Hvpad : CInt.sub (h inlink) prh = h inlink - prh).
  { apply CIntFacts.sub_id. unfold CInt.in_range, CInt.INT_MIN, CInt.INT_MAX. lia. }
  rewrite Hhpad, Hvpad.
  set (hpad := 3 * (w inlink - prw)). set (vpad := h inlink - prh).
  set (f1 := copied_from src (prw * 3) dl (prw * 3) sl).
  set (f2 := copied_from src (prh * dl) dl (prh * sl) sl).
  set (idx1 := row_indices (upto prh) (prw * 3) dl hpad).
  set (idx2 := row_indices (upto vpad) (prh * dl) dl (w inlink * 3)).
  assert (H1 : (if hpad =? 0 then Some dst
                else copy_rows (upto prh) dst (prw * 3) dl src (prw * 3) sl hpad)
               = Some (store f1 idx1 dst)).
  { destruct (Z.eqb_spec hpad 0) as [E | _].
    - subst idx1. rewrite E, row_indices_empty. reflexivity.
    - apply copy_rows_store; [subst hpad; lia | apply Forall_upto_nonneg]. }
  rewrite H1.
  assert (H2 : (if vpad =? 0 then Some (store f1 idx1 dst)
                else copy_rows (upto vpad) (store f1 idx1 dst) (prh * dl) dl
                       src (prh * sl) sl (w inlink * 3))
               = Some (store f2 idx2 (store f1 idx1 dst))).
  { destruct (Z.eqb_spec vpad 0) as [E | _].
    - subst idx2. rewrite E. reflexivity.
    - apply copy_rows_store; [lia | apply Forall_upto_nonneg]. }
  rewrite H2. eexists. split; [reflexivity |].
  split; [now rewrite !length_store |].
  intros X Y k HX HY Hout Hk.
  assert (Hr1 : Forall (fun i => 0 <= i < Z.of_nat (length dst)) idx1).
  { apply List.Forall_forall. intros i Hi. apply row_indices_elem in Hi.
    destruct Hi as (y & j & Hy & Hj & ->). apply In_upto in Hy.
    subst hpad. nia. }
  assert (Hr2 : Forall (fun i => 0 <= i < Z.of_nat (length (store f1 idx1 dst))) idx2).
  { rewrite length_store. apply List.Forall_forall. intros i Hi.
    apply row_indices_elem in Hi.
    destruct Hi as (y & j & Hy & Hj & ->). apply In_upto in Hy.
    subst vpad. nia. }
  destruct (Z_le_gt_dec prh Y) as [HYp | HYp].
  - (* a line below the region: copied whole by the second loop *)
    rewrite (rd_store 0 f2); [| exact Hr2 |].
    2:{ apply row_indices_elem. exists (Y - prh), (3 * X + k).
        split; [apply In_upto; subst vpad; lia | split; [lia | ring]]. }
    subst f2. unfold copied_from.
    replace (Y * dl + 3 * X + k - prh * dl) with (3 * X + k + (Y - prh) * dl) by ring.
    rewrite Z.div_add, Z.mod_add, Z.div_small, Z.mod_small by lia.
    f_equal. lia.
  - (* a line of the region, right of it: copied by the first loop *)
    assert (HXp : prw <= X) by lia.
    rewrite rd_store_other.
    2:{ intros Hi. apply row_indices_elem in Hi.
        destruct Hi as (y & j & Hy & Hj & E). apply In_upto in Hy. nia. }
    rewrite (rd_store 0 f1); [| exact Hr1 |].
    2:{ apply row_indices_elem. exists Y, (3 * (X - prw) + k).
        split; [apply In_upto; lia | split; [subst hpad; lia | ring]]. }
    subst f1. unfold copied_from.
    replace (Y * dl + 3 * X + k - prw * 3) with (3 * (X - prw) + k + Y * dl) by ring.
    rewrite Z.div_add, Z.mod_add, Z.div_small, Z.mod_small by lia.
    f_equal. lia.
Qed.

End PaddingFacts.

(** Two pixels of a frame have different byte offsets. *)
Lemma pixel_offset_inj ls w x y k X Y j :
  3 * w <= ls -> 0 <= x < w -> 0 <= X < w -> 0 <= k < 3 -> 0 <= j < 3 ->
  y * ls + 3 * x + k = Y * ls + 3 * X + j -> x = X /\ y = Y.
Proof.
  intros Hls Hx HX Hk Hj E.
  assert (y = Y).
  { destruct (Z.lt_trichotomy y Y) as [Hlt | [Heq | Hgt]]; [| exact Heq |].
    - assert (1 <= Y - y) by lia. nia.
    - assert (1 <= y - Y) by lia. nia. }
  subst. split; [lia | reflexivity].
Qed.

Section FrameTheorem.
Context `{CFloat} {AVExpr : Type}.
Variable av_expr_eval : AVExpr -> list double -> double.
#[local] Abbreviation ctx := (DCTdnoizContext AVExpr).


(** When the processed region lies within the frame, [filter_frame] sends a
    frame on, and every pixel of it outside the region is the pixel of the
    input, on the in-place path as on the path through a new buffer. *)
Lemma filter_frame_margin (inlink : AVFilterLink) (s : ctx) in_ fresh :
  configured s ->
  0 <= pr_width s <= w inlink -> 0 <= pr_height s <= h inlink ->
  h inlink <= CInt.INT_MAX ->
  frame_fits inlink in_ ->
  (writable in_ = false -> exists fr, fresh = Some fr /\ frame_fits inlink fr) ->
  exists out s', filter_frame av_expr_eval inlink s in_ fresh = Output out s' /\
    forall X Y k, 0 <= X < w inlink -> 0 <= Y < h inlink ->
      pr_width s <= X \/ pr_height s <= Y -> 0 <= k < 3 ->
      rd 0 (data out) (Y * linesize out + 3 * X + k) =
      rd 0 (data in_) (Y * linesize in_ + 3 * X + k).
Proof.
  intros (Hff & Hcd & Hcc) Hw Hh Hhm Hin Hfresh.
  unfold filter_frame, filter_plane. cbv beta zeta.
  destruct Hff as [ff ->], Hcd as [cd ->], Hcc as [cc ->].
  cbn [pr_width pr_height set_cbuf].
  destruct (writable in_) eqn:Hwr.
  - (* direct *)
    eexists _, _. split; [reflexivity |].
    intros X Y k HX HY Hout Hk. cbn [data linesize set_data].
    apply call_color_correlation_outside.
    destruct Hin as [[Hl _] _].
    intros x y j Hx Hy Hj E.
    destruct (pixel_offset_inj (linesize in_) (w inlink) X Y k x y j)
      as [-> ->]; try lia.
  - destruct (Hfresh eq_refl) as (fr & -> & Hfr).
    match goal with
    | |- context [copy_padding inlink ?s' ?d ?dl ?src ?sl] =>
        destruct (copy_padding_margin inlink s' d dl src sl)
          as (d' & Hcp & _ & Hd'); cbn [pr_width pr_height set_cbuf];
          try assumption; try apply Hfr
    end.
    { rewrite length_color_correlation. apply Hfr. }
    rewrite Hcp. eexists _, _. split; [reflexivity |].
    intros X Y k HX HY Hout Hk. cbn [data linesize set_data].
    now apply Hd'.
Qed.

End FrameTheorem.
(** ** Rounding: from [binary_round_aux] to error bounds *)

Lemma digits2_pos_bounds (p : positive) :
  2 ^ (Zpos (digits2_pos p) - 1) <= Zpos p < 2 ^ Zpos (digits2_pos p).
Proof.
  induction p as [p IH | p IH |]; simpl digits2_pos.
  - rewrite Pos2Z.inj_succ. replace (Z.succ (Zpos (digits2_pos p)) - 1)
      with (Zpos (digits2_pos p) - 1 + 1) by lia.
    rewrite Z.pow_succ_r by lia.
    rewrite Z.pow_add_r, Z.pow_1_r by lia. lia.
  - rewrite Pos2Z.inj_succ. replace (Z.succ (Zpos (digits2_pos p)) - 1)
      with (Zpos (digits2_pos p) - 1 + 1) by lia.
    rewrite Z.pow_succ_r by lia.
    rewrite Z.pow_add_r, Z.pow_1_r by lia. lia.
  - simpl. lia.
Qed.

(** A positive number below a power of two has no more digits than it. *)
Lemma digits2_pos_le (p : positive) (k : Z) :
  0 <= k -> Zpos p < 2 ^ k -> Zpos (digits2_pos p) <= k.
Proof.
  intros Hk Hp. pose proof (digits2_pos_bounds p) as [Hlo _].
  destruct (Z_le_gt_dec (Zpos (digits2_pos p)) k) as [| Hgt]; [assumption |].
  assert (2 ^ k <= 2 ^ (Zpos (digits2_pos p) - 1))
    by (apply Z.pow_le_mono_r; lia).
  lia.
Qed.

Lemma digits2_pos_ge (p : positive) (k : Z) :
  2 ^ k <= Zpos p -> k + 1 <= Zpos (digits2_pos p).
Proof.
  intros Hp. pose proof (digits2_pos_bounds p) as [_ Hhi].
  destruct (Z_le_gt_dec (k + 1) (Zpos (digits2_pos p))) as [| Hgt]; [assumption |].
  assert (2 ^ Zpos (digits2_pos p) <= 2 ^ k)
    by (apply Z.pow_le_mono_r; lia).
  lia.
Qed.

Lemma shr_1_m (r : shr_record) : 0 <= shr_m r -> shr_m (shr_1 r) = shr_m r / 2.
Proof.
  destruct r as [m rb sb]. cbn [shr_m]. intros Hm.
  destruct m as [| [p | p |] | p]; cbn [shr_1 shr_m]; try lia; try reflexivity.
  - pose proof (Z.div_mod (Zpos p~1) 2 ltac:(lia)).
    pose proof (Z.mod_pos_bound (Zpos p~1) 2 ltac:(lia)). lia.
  - pose proof (Z.div_mod (Zpos p~0) 2 ltac:(lia)).
    pose proof (Z.mod_pos_bound (Zpos p~0) 2 ltac:(lia)). lia.
Qed.

Lemma iter_shr_1_m (n : positive) (r : shr_record) :
  0 <= shr_m r -> shr_m (SpecFloat.iter_pos shr_1 n r) = shr_m r / 2 ^ Zpos n.
Proof.
  revert r. induction n as [n IH | n IH |]; intros r Hr; simpl SpecFloat.iter_pos.
  - assert (H1 : 0 <= shr_m (shr_1 r))
      by (rewrite shr_1_m by lia; apply Z.div_pos; lia).
    assert (H2 : 0 <= shr_m (SpecFloat.iter_pos shr_1 n (shr_1 r)))
      by (rewrite IH by lia; apply Z.div_pos; [lia | apply Z.pow_pos_nonneg; lia]).
    rewrite IH, IH, shr_1_m by lia.
    rewrite !Z.div_div by (try apply Z.pow_pos_nonneg; lia).
    f_equal.
    replace (2 ^ Zpos n~1) with (2 ^ (1 + (Zpos n + Zpos n))) by (f_equal; lia).
    rewrite !Z.pow_add_r by lia. lia.
  - assert (H2 : 0 <= shr_m (SpecFloat.iter_pos shr_1 n r))
      by (rewrite IH by lia; apply Z.div_pos; [lia | apply Z.pow_pos_nonneg; lia]).
    rewrite IH, IH by lia.
    rewrite !Z.div_div by (try apply Z.pow_pos_nonneg; lia).
    f_equal.
    replace (2 ^ Zpos n~0) with (2 ^ (Zpos n + Zpos n)) by (f_equal; lia).
    rewrite !Z.pow_add_r by lia. lia.
  - now apply shr_1_m.
Qed.

Lemma round_nearest_even_bounds m l :
  m <= round_nearest_even m l <= m + 1.
Proof.
  unfold round_nearest_even. destruct l as [| []]; try lia.
  destruct (Z.even m); lia.
Qed.

Lemma shr_nonpos mrs e n : n <= 0 -> shr mrs e n = (mrs, e).
Proof. destruct n; simpl; intros; (reflexivity || lia). Qed.

Lemma shr_pos mrs e n :
  0 < n -> 0 <= shr_m mrs ->
  exists mrs', shr mrs e n = (mrs', e + n) /\ shr_m mrs' = shr_m mrs / 2 ^ n.
Proof.
  destruct n as [| p | p]; try lia. intros _ Hm. simpl.
  eexists. split; [reflexivity |]. now apply iter_shr_1_m.
Qed.

Section RoundAux.
Variables prec emax : Z.
Hypothesis Hprec : 0 < prec.

#[local] Abbreviation fexp := (SpecFloat.fexp prec emax).
#[local] Abbreviation emin := (SpecFloat.emin prec emax).
#[local] Abbreviation represents := (represents prec emax).
#[local] Abbreviation finish := (finish prec emax).

Lemma fexp_ge_emin x : emin <= fexp x.
Proof. unfold SpecFloat.fexp. lia. Qed.

Lemma finish_spec s m2 E :
  0 <= m2 <= 2 ^ prec -> emin <= E -> (emin < E -> 2 ^ (prec - 1) <= m2) ->
  E + 1 <= emax - prec ->
  represents (finish s m2 E) s m2 E.
Proof.
  intros Hm HE Hnorm Hmax. unfold finish, shr_fexp.
  destruct m2 as [| q | q]; [| | lia].
  - (* zero *)
    cbn [Zdigits2]. rewrite shr_nonpos by (unfold SpecFloat.fexp; lia).
    cbn. auto.
  - cbn [Zdigits2 shr_record_of_loc].
    set (d2 := Zpos (digits2_pos q)).
    destruct (Z_lt_ge_dec (Zpos q) (2 ^ prec)) as [Hlt | Hge].
    + (* no carry *)
      assert (Hd2 : d2 <= prec) by (apply digits2_pos_le; lia).
      assert (Hfe : fexp (d2 + E) = E).
      { unfold SpecFloat.fexp. destruct (Z_le_gt_dec E emin) as [Hle | Hgt].
        - lia.
        - assert (prec <= d2).
          { pose proof (digits2_pos_ge q (prec - 1) (Hnorm ltac:(lia))). subst d2. lia. }
          lia. }
      rewrite shr_nonpos by lia. cbn [shr_m].
      destruct (Z.leb_spec E (emax - prec)); [| lia].
      cbn. repeat split; try lia.
      * rewrite Z.sub_diag. simpl. lia.
      * unfold canonical_mantissa. fold d2. rewrite Hfe. apply Z.eqb_refl.
    + (* the significand reached [2 ^ prec] *)
      assert (Hq : Zpos q = 2 ^ prec) by lia.
      assert (Hd2 : d2 = prec + 1).
      { subst d2. apply Z.le_antisymm.
        - apply digits2_pos_le; [lia |]. rewrite Hq.
          apply Z.pow_lt_mono_r; lia.
        - apply digits2_pos_ge. lia. }
      assert (Hfe : fexp (d2 + E) = E + 1) by (unfold SpecFloat.fexp; lia).
      destruct (shr_pos {| shr_m := Zpos q; shr_r := false; shr_s := false |}
                  E (fexp (d2 + E) - E)) as (mrs & -> & Hmrs);
        [lia | cbn; lia |].
      cbn [shr_m] in Hmrs. rewrite Hfe in Hmrs.
      replace (E + 1 - E) with 1 in Hmrs by lia.
      rewrite Hq, Z.pow_1_r in Hmrs.
      assert (Hhalf : 2 ^ prec / 2 = 2 ^ (prec - 1)).
      { replace prec with (prec - 1 + 1) at 1 by lia.
        rewrite Z.pow_add_r, Z.pow_1_r by lia. apply Z.div_mul. lia. }
      rewrite Hhalf in Hmrs.
      assert (Hpos : 0 < 2 ^ (prec - 1)) by (apply Z.pow_pos_nonneg; lia).
      destruct (shr_m mrs) as [| q' | q'] eqn:Eq'; try lia.
      replace (E + (fexp (d2 + E) - E)) with (E + 1) by lia.
      destruct (Z.leb_spec (E + 1) (emax - prec)); [| lia].
      cbn. repeat split; try lia.
      * replace (E + 1 - E) with 1 by lia. rewrite Z.pow_1_r, Hmrs, Hq.
        replace prec with (prec - 1 + 1) at 2 by lia.
        rewrite Z.pow_add_r, Z.pow_1_r by lia. lia.
      * unfold canonical_mantissa.
        assert (Hdq : Zpos (digits2_pos q') = prec).
        { apply Z.le_antisymm.
          - apply digits2_pos_le; [lia |]. rewrite Hmrs.
            apply Z.pow_lt_mono_r; lia.
          - pose proof (digits2_pos_ge q' (prec - 1)). lia. }
        rewrite Hdq. apply Z.eqb_eq. unfold SpecFloat.fexp. lia.
Qed.

Lemma binary_round_aux_spec s m e :
  let E := fexp (Zpos (digits2_pos m) + e) in
  e <= E -> E + 1 <= emax - prec ->
  exists m2, Zpos m / 2 ^ (E - e) <= m2 <= Zpos m / 2 ^ (E - e) + 1 /\
             (E = e -> m2 = Zpos m) /\
             represents (binary_round_aux prec emax s (Zpos m) e loc_Exact) s m2 E.
Proof.
  intros E HeE Hmax.
  set (d := Zpos (digits2_pos m)) in *.
  pose proof (digits2_pos_bounds m) as [Hlo Hhi]. fold d in Hlo, Hhi.
  assert (HEmin : emin <= E) by apply fexp_ge_emin.
  assert (HEd : d + e - prec <= E) by (subst E; unfold SpecFloat.fexp; lia).
  set (n := E - e).
  assert (Hn : 0 <= n) by (subst n; lia).
  assert (Hpn : 0 < 2 ^ n) by (apply Z.pow_pos_nonneg; lia).
  assert (Hm1 : 0 <= Zpos m / 2 ^ n < 2 ^ prec).
  { split; [apply Z.div_pos; lia |].
    apply Z.div_lt_upper_bound; [lia |].
    rewrite <- Z.pow_add_r by lia.
    eapply Z.lt_le_trans; [exact Hhi |]. apply Z.pow_le_mono_r; lia. }
  assert (Hnorm : emin < E -> 2 ^ (prec - 1) <= Zpos m / 2 ^ n).
  { intros HE. assert (d = n + prec) by (subst n E; unfold SpecFloat.fexp in *; lia).
    apply Z.div_le_lower_bound; [lia |].
    rewrite <- Z.pow_add_r by lia.
    replace (n + (prec - 1)) with (d - 1) by lia. exact Hlo. }
  change (binary_round_aux prec emax s (Zpos m) e loc_Exact) with
    (let '(mrs', e') := shr_fexp prec emax (Zpos m) e loc_Exact in
     finish s (round_nearest_even (shr_m mrs') (loc_of_shr_record mrs')) e').
  unfold shr_fexp. cbn [Zdigits2 shr_record_of_loc]. fold d. fold E. fold n.
  destruct (Z.eq_dec n 0) as [Hn0 | Hn0].
  - rewrite Hn0. cbn [shr shr_m loc_of_shr_record round_nearest_even].
    exists (Zpos m). rewrite Z.pow_0_r, Z.div_1_r.
    split; [lia |]. split; [reflexivity |].
    replace e with E by (subst n; lia).
    apply finish_spec; try lia.
    + rewrite Hn0, Z.pow_0_r, Z.div_1_r in Hm1. lia.
    + rewrite Hn0, Z.pow_0_r, Z.div_1_r in Hnorm. exact Hnorm.
  - destruct (shr_pos {| shr_m := Zpos m; shr_r := false; shr_s := false |} e n)
      as (mrs & -> & Hmrs); [lia | cbn; lia |].
    cbn [shr_m] in Hmrs. rewrite Hmrs.
    pose proof (round_nearest_even_bounds (Zpos m / 2 ^ n) (loc_of_shr_record mrs)) as Hr.
    exists (round_nearest_even (Zpos m / 2 ^ n) (loc_of_shr_record mrs)).
    split; [exact Hr |]. split; [subst n; lia |].
    replace (e + n) with E by (subst n; lia).
    apply finish_spec; try lia; intros HE; specialize (Hnorm HE); lia.
Qed.

End RoundAux.

Lemma pow2_pos e : (0 < pow2 e)%Q.
Proof. apply Qpower_0_lt. reflexivity. Qed.

Lemma pow2_add a b : (pow2 (a + b) == pow2 a * pow2 b)%Q.
Proof. apply Qpower_plus. discriminate. Qed.

Lemma pow2_le a b : a <= b -> (pow2 a <= pow2 b)%Q.
Proof. intros H. apply Qpower_le_compat_l; [exact H | discriminate]. Qed.

Lemma pow2_le_inv a b : (pow2 a <= pow2 b)%Q -> a <= b.
Proof. intros H. apply (Qpower_le_compat_l_inv 2); [exact H | reflexivity]. Qed.

Lemma pow2_lt_inv a b : (pow2 a < pow2 b)%Q -> a < b.
Proof. intros H. apply (Qpower_lt_compat_l_inv 2); [exact H | reflexivity]. Qed.

Lemma pow2_inject n : 0 <= n -> (inject_Z (2 ^ n) == pow2 n)%Q.
Proof. intros H. apply Zpower_Qpower. exact H. Qed.

(** An integer in units of [2 ^ e], scaled to units of [2 ^ e'] below. *)
Lemma pow2_scale m e e' :
  e' <= e -> (inject_Z m * pow2 e == inject_Z (m * 2 ^ (e - e')) * pow2 e')%Q.
Proof.
  intros H. rewrite inject_Z_mult, pow2_inject by lia.
  replace e with ((e - e') + e') at 1 by lia. rewrite pow2_add. ring.
Qed.

Lemma Qabs_inject z : (Qabs (inject_Z z) == inject_Z (Z.abs z))%Q.
Proof. unfold Qabs, inject_Z. simpl. reflexivity. Qed.

Lemma inject_cond_Zopp s z :
  (inject_Z (cond_Zopp s z) == (if s then -1 else 1) * inject_Z z)%Q.
Proof. destruct s; simpl; [rewrite inject_Z_opp |]; ring. Qed.

Lemma Qabs_sign_mul s q : (Qabs (sign_Q s * q) == Qabs q)%Q.
Proof.
  destruct s; unfold sign_Q.
  - assert (E : (-1 * q == - q)%Q) by ring. rewrite E. apply Qabs_opp.
  - assert (E : (1 * q == q)%Q) by ring. rewrite E. reflexivity.
Qed.

Section RoundQ.
Variables prec emax : Z.
Hypothesis Hprec : 0 < prec.

#[local] Abbreviation fexp := (SpecFloat.fexp prec emax).
#[local] Abbreviation emin := (SpecFloat.emin prec emax).
#[local] Abbreviation valid := (valid prec emax).

Lemma represents_B2Q r s m2 E :
  represents prec emax r s m2 E ->
  valid r /\ (B2Q r == sign_Q s * (inject_Z m2 * pow2 E))%Q.
Proof.
  destruct r as [s' | s' | | s' m' e']; simpl; try contradiction.
  - intros [-> ->]. split; [exact I |]. ring.
  - intros (-> & HE & Hm & Hc & Hr). split.
    + unfold bounded. rewrite Hc. apply Z.leb_le in Hr. now rewrite Hr.
    + pose proof (pow2_scale (Zpos m') e' E HE) as Hs. rewrite Hm in Hs.
      rewrite inject_cond_Zopp. unfold sign_Q.
      destruct s; rewrite <- Hs; ring.
Qed.

(** The rounding of [binary_round_aux]: the result is within one unit of
    the last place of the exact value, and is the exact value when no bit is
    dropped. *)
Lemma round_aux_error s m e :
  let E := fexp (Zpos (digits2_pos m) + e) in
  e <= E -> E + 1 <= emax - prec ->
  let r := binary_round_aux prec emax s (Zpos m) e loc_Exact in
  let x := (sign_Q s * (inject_Z (Zpos m) * pow2 e))%Q in
  valid r /\ (Qabs (B2Q r - x) <= pow2 E)%Q /\ (E = e -> (B2Q r == x)%Q).
Proof.
  intros E HeE Hmax r x.
  destruct (binary_round_aux_spec prec emax Hprec s m e HeE Hmax)
    as (m2 & Hm2 & Hex & Hrep).
  apply represents_B2Q in Hrep. destruct Hrep as [Hv Hval].
  fold r in Hv, Hval. fold E in Hm2, Hex, Hval.
  split; [exact Hv |].
  set (n := E - e) in *. assert (Hn : 0 <= n) by (subst n; lia).
  assert (Hpn : 0 < 2 ^ n) by (apply Z.pow_pos_nonneg; lia).
  assert (Hdiff : (B2Q r - x ==
                   sign_Q s * (inject_Z (m2 * 2 ^ n - Zpos m) * pow2 e))%Q).
  { pose proof (pow2_scale m2 E e HeE) as H1. fold n in H1.
    assert (H2 : (inject_Z (m2 * 2 ^ n - Zpos m) ==
                  inject_Z (m2 * 2 ^ n) - inject_Z (Zpos m))%Q).
    { unfold Z.sub. rewrite inject_Z_plus, inject_Z_opp. ring. }
    rewrite Hval, H1, H2. unfold x. ring. }
  split.
  - rewrite Hdiff, Qabs_sign_mul, Qabs_Qmult, Qabs_inject.
    rewrite (Qabs_pos (pow2 e)) by (apply Qlt_le_weak, pow2_pos).
    replace E with (n + e) by (subst n; lia). rewrite pow2_add.
    apply Qmult_le_compat_r; [| apply Qlt_le_weak, pow2_pos].
    rewrite <- pow2_inject by lia. rewrite <- Zle_Qle.
    pose proof (Z.div_mod (Zpos m) (2 ^ n) ltac:(lia)) as Hdm.
    pose proof (Z.mod_pos_bound (Zpos m) (2 ^ n) ltac:(lia)) as Hmb.
    nia.
  - intros HE.
    assert (Hm : m2 = Zpos m) by (apply Hex; exact HE).
    assert (Hn0 : n = 0) by (subst n; lia).
    assert (Hz : (B2Q r - x == 0)%Q).
    { rewrite Hdiff, Hm, Hn0.
      replace (Zpos m * 2 ^ 0 - Zpos m) with 0 by (rewrite Z.pow_0_r; lia).
      unfold inject_Z. ring. }
    lra.
Qed.

End RoundQ.

Lemma digits2_pos_scale (m m' : positive) (k : Z) :
  0 <= k -> Zpos m' = Zpos m * 2 ^ k ->
  Zpos (digits2_pos m') = Zpos (digits2_pos m) + k.
Proof.
  intros Hk Hm. pose proof (digits2_pos_bounds m) as [Hlo Hhi].
  assert (Hpk : 0 < 2 ^ k) by (apply Z.pow_pos_nonneg; lia).
  apply Z.le_antisymm.
  - apply digits2_pos_le; [lia |]. rewrite Hm, Z.pow_add_r by lia. nia.
  - replace (Zpos (digits2_pos m) + k) with (Zpos (digits2_pos m) - 1 + k + 1) by lia.
    apply digits2_pos_ge. rewrite Hm, Z.pow_add_r by lia. nia.
Qed.

Lemma shl_align_spec (m : positive) (e e' : Z) :
  let '(m', e'') := shl_align m e e' in
  e'' = Z.min e e' /\ Zpos m' = Zpos m * 2 ^ (e - e'') /\
  Zpos (digits2_pos m') + e'' = Zpos (digits2_pos m) + e.
Proof.
  unfold shl_align. destruct (e' - e) as [| d | d] eqn:Hd.
  - assert (e' = e) by lia. subst. rewrite Z.min_id, Z.sub_diag. simpl. lia.
  - rewrite Z.min_l by lia. rewrite Z.sub_diag. simpl. lia.
  - assert (He : e - e' = Zpos d) by lia.
    rewrite Z.min_r by lia. rewrite He.
    assert (Hm : Zpos (Pos.iter xO m d) = Zpos m * 2 ^ Zpos d).
    { change (Pos.iter xO m d) with (shift_pos d m).
      rewrite shift_pos_correct, Z.pow_pos_fold. lia. }
    split; [reflexivity |]. split; [exact Hm |].
    rewrite (digits2_pos_scale m _ (Zpos d)) by (lia || exact Hm). lia.
Qed.

Section OpsQ.
Variables prec emax : Z.
Hypothesis Hprec : 0 < prec.
Hypothesis Hemax : 2 <= emax.
Hypothesis Hemin : SpecFloat.emin prec emax <= 0.

#[local] Abbreviation fexp' := (SpecFloat.fexp prec emax).
#[local] Abbreviation emin' := (SpecFloat.emin prec emax).
#[local] Abbreviation valid' := (valid prec emax).
#[local] Abbreviation ulp_at := (ulp_at prec emax).

Lemma magnitude_digits (m : positive) (e k : Z) :
  (inject_Z (Zpos m) * pow2 e <= pow2 k)%Q ->
  Zpos (digits2_pos m) + e <= k + 1.
Proof.
  intros H. pose proof (digits2_pos_bounds m) as [Hlo _].
  set (d := Zpos (digits2_pos m)) in *.
  assert (Hd : 0 <= d - 1) by (subst d; lia).
  assert (H1 : (pow2 (d - 1 + e) <= pow2 k)%Q).
  { rewrite pow2_add. eapply Qle_trans; [| exact H].
    apply Qmult_le_compat_r; [| apply Qlt_le_weak, pow2_pos].
    rewrite <- pow2_inject by lia. now rewrite <- Zle_Qle. }
  apply pow2_le_inv in H1. lia.
Qed.

(** Rounding a number of magnitude at most [2 ^ k]. *)
Lemma round_aux_bound s (m : positive) (e k : Z) :
  e <= fexp' (Zpos (digits2_pos m) + e) ->
  (inject_Z (Zpos m) * pow2 e <= pow2 k)%Q -> k + 2 <= emax ->
  let r := binary_round_aux prec emax s (Zpos m) e loc_Exact in
  let x := (sign_Q s * (inject_Z (Zpos m) * pow2 e))%Q in
  valid' r /\ (Qabs (B2Q r - x) <= ulp_at k)%Q /\
  (fexp' (Zpos (digits2_pos m) + e) = e -> (B2Q r == x)%Q).
Proof.
  intros He Hmag Hk r x.
  pose proof (magnitude_digits m e k Hmag) as Hd.
  assert (HE : fexp' (Zpos (digits2_pos m) + e) <= Z.max (k + 1 - prec) emin')
    by (unfold SpecFloat.fexp; lia).
  destruct (round_aux_error prec emax Hprec s m e He) as (Hv & Herr & Hex).
  { unfold SpecFloat.emin in *. lia. }
  split; [exact Hv |]. split; [| exact Hex].
  eapply Qle_trans; [exact Herr |]. unfold ulp_at. now apply pow2_le.
Qed.

(** [binary_round] aligns the significand first, so it takes any
    significand and exponent. *)
Lemma binary_round_bound s (m : positive) (e k : Z) :
  (inject_Z (Zpos m) * pow2 e <= pow2 k)%Q -> k + 2 <= emax ->
  let r := binary_round prec emax s m e in
  let x := (sign_Q s * (inject_Z (Zpos m) * pow2 e))%Q in
  valid' r /\ (Qabs (B2Q r - x) <= ulp_at k)%Q /\
  (fexp' (Zpos (digits2_pos m) + e) <= e -> (B2Q r == x)%Q).
Proof.
  intros Hmag Hk r x. unfold binary_round in r.
  pose proof (shl_align_spec m e (fexp' (Zpos (digits2_pos m) + e))) as Ha.
  destruct (shl_align m e (fexp' (Zpos (digits2_pos m) + e))) as [mz ez].
  destruct Ha as (Hez & Hmz & Hdz).
  assert (Hle : ez <= e) by lia.
  assert (Hval : (inject_Z (Zpos mz) * pow2 ez == inject_Z (Zpos m) * pow2 e)%Q).
  { rewrite Hmz. symmetry. now apply pow2_scale. }
  destruct (round_aux_bound s mz ez k) as (Hv & Herr & Hex).
  - rewrite Hdz. lia.
  - now rewrite Hval.
  - exact Hk.
  - subst r x. split; [exact Hv |]. split.
    + now rewrite <- Hval.
    + intros HE. rewrite <- Hval. apply Hex. rewrite Hdz. lia.
Qed.

End OpsQ.

Lemma sign_Q_xorb a b : (sign_Q (xorb a b) == sign_Q a * sign_Q b)%Q.
Proof. destruct a, b; reflexivity. Qed.

Lemma B2Q_finite s m e :
  (B2Q (S754_finite s m e) == sign_Q s * (inject_Z (Zpos m) * pow2 e))%Q.
Proof.
  unfold B2Q. rewrite inject_cond_Zopp. unfold sign_Q. destruct s; ring.
Qed.

Lemma Qabs_finite s m e :
  (Qabs (B2Q (S754_finite s m e)) == inject_Z (Zpos m) * pow2 e)%Q.
Proof.
  rewrite B2Q_finite, Qabs_sign_mul. apply Qabs_pos.
  apply Qmult_le_0_compat; [| apply Qlt_le_weak, pow2_pos].
  change 0%Q with (inject_Z 0). rewrite <- Zle_Qle. lia.
Qed.

Section Ops.
Variables prec emax : Z.
Hypothesis Hprec : 0 < prec.
Hypothesis Hemax : 2 <= emax.
Hypothesis Hemin : SpecFloat.emin prec emax <= 0.

#[local] Abbreviation vld := (valid prec emax).
#[local] Abbreviation ulp := (ulp_at prec emax).

Lemma valid_canonical s m e :
  vld (S754_finite s m e) ->
  SpecFloat.fexp prec emax (Zpos (digits2_pos m) + e) = e.
Proof.
  simpl. unfold bounded, canonical_mantissa. intros H.
  apply andb_true_iff in H. destruct H as [H _]. now apply Z.eqb_eq.
Qed.

Lemma SFopp_valid x : vld x -> vld (SFopp x).
Proof. destruct x; simpl; auto. Qed.

Lemma SFopp_B2Q x : (B2Q (SFopp x) == - B2Q x)%Q.
Proof.
  destruct x as [| | | s m e]; cbn [SFopp]; try (unfold B2Q; ring).
  rewrite !B2Q_finite. destruct s; cbn [negb sign_Q]; ring.
Qed.

Lemma SFmul_bound x y k :
  vld x -> vld y -> (Qabs (B2Q x * B2Q y) <= pow2 k)%Q -> k + 2 <= emax ->
  vld (SFmul prec emax x y) /\
  (Qabs (B2Q (SFmul prec emax x y) - B2Q x * B2Q y) <= ulp k)%Q.
Proof.
  intros Hx Hy Hmag Hk.
  assert (Hu : (0 <= ulp k)%Q) by (apply Qlt_le_weak, pow2_pos).
  destruct x as [sx | sx | | sx mx ex], y as [sy | sy | | sy my ey];
    try contradiction;
    try (split; [exact I |]; simpl B2Q;
         match goal with |- (Qabs ?q <= _)%Q =>
           assert (Hz : (q == 0)%Q) by ring; rewrite Hz end; exact Hu).
  cbn [SFmul].
  pose proof (valid_canonical _ _ _ Hx) as Hcx.
  pose proof (valid_canonical _ _ _ Hy) as Hcy.
  pose proof (digits2_pos_bounds mx) as [Hlx Hhx].
  pose proof (digits2_pos_bounds my) as [Hly Hhy].
  set (dx := Zpos (digits2_pos mx)) in *. set (dy := Zpos (digits2_pos my)) in *.
  assert (Hdp : dx + dy - 1 <= Zpos (digits2_pos (mx * my))).
  { replace (dx + dy - 1) with (dx - 1 + (dy - 1) + 1) by lia.
    apply digits2_pos_ge. rewrite Z.pow_add_r by (subst dx dy; lia).
    rewrite Pos2Z.inj_mul.
    assert (0 < 2 ^ (dx - 1)) by (apply Z.pow_pos_nonneg; subst dx; lia).
    assert (0 < 2 ^ (dy - 1)) by (apply Z.pow_pos_nonneg; subst dy; lia).
    nia. }
  assert (Hprod : (B2Q (S754_finite sx mx ex) * B2Q (S754_finite sy my ey) ==
                   sign_Q (xorb sx sy) *
                   (inject_Z (Zpos (mx * my)) * pow2 (ex + ey)))%Q).
  { rewrite !B2Q_finite, sign_Q_xorb, Pos2Z.inj_mul, inject_Z_mult, pow2_add. ring. }
  destruct (round_aux_bound prec emax Hprec Hemax
              (xorb sx sy) (mx * my) (ex + ey) k) as (Hv & Herr & _).
  - unfold SpecFloat.fexp, SpecFloat.emin in *. subst dx dy. lia.
  - rewrite Hprod in Hmag. rewrite Qabs_sign_mul in Hmag.
    rewrite Qabs_pos in Hmag; [exact Hmag |].
    apply Qmult_le_0_compat; [| apply Qlt_le_weak, pow2_pos].
    change 0%Q with (inject_Z 0). rewrite <- Zle_Qle. lia.
  - exact Hk.
  - split; [exact Hv |]. now rewrite Hprod.
Qed.

(** The rounding of an integer [S] counted in units of [2 ^ e]. *)
Lemma binary_normalize_bound (S e k : Z) :
  (Qabs (inject_Z S * pow2 e) <= pow2 k)%Q -> k + 2 <= emax ->
  let r := binary_normalize prec emax S e false in
  vld r /\ (Qabs (B2Q r - inject_Z S * pow2 e) <= ulp k)%Q /\
  (forall m, Z.abs S = Zpos m ->
     SpecFloat.fexp prec emax (Zpos (digits2_pos m) + e) <= e ->
     (B2Q r == inject_Z S * pow2 e)%Q).
Proof.
  intros Hmag Hk r.
  assert (Hu : (0 <= ulp k)%Q) by (apply Qlt_le_weak, pow2_pos).
  destruct S as [| m | m]; cbn [binary_normalize] in r; subst r.
  - split; [exact I |]. split.
    + simpl B2Q. assert (Hz : (0 - inject_Z 0 * pow2 e == 0)%Q) by ring.
      rewrite Hz. exact Hu.
    + intros m Hm. discriminate.
  - assert (Hx : (inject_Z (Zpos m) * pow2 e ==
                  sign_Q false * (inject_Z (Zpos m) * pow2 e))%Q)
      by (unfold sign_Q; ring).
    destruct (binary_round_bound prec emax Hprec Hemax false m e k)
      as (Hv & Herr & Hex); [| exact Hk |].
    { rewrite Qabs_pos in Hmag; [exact Hmag |].
      apply Qmult_le_0_compat; [| apply Qlt_le_weak, pow2_pos].
      change 0%Q with (inject_Z 0). rewrite <- Zle_Qle. lia. }
    split; [exact Hv |]. split; [now rewrite Hx |].
    intros m' Hm' Hf. injection Hm' as <-. rewrite Hx. now apply Hex.
  - assert (Hx : (inject_Z (Zneg m) * pow2 e ==
                  sign_Q true * (inject_Z (Zpos m) * pow2 e))%Q).
    { change (Zneg m) with (- Zpos m). rewrite inject_Z_opp. unfold sign_Q. ring. }
    destruct (binary_round_bound prec emax Hprec Hemax true m e k)
      as (Hv & Herr & Hex); [| exact Hk |].
    { rewrite Hx, Qabs_sign_mul in Hmag. rewrite Qabs_pos in Hmag; [exact Hmag |].
      apply Qmult_le_0_compat; [| apply Qlt_le_weak, pow2_pos].
      change 0%Q with (inject_Z 0). rewrite <- Zle_Qle. lia. }
    split; [exact Hv |]. split; [now rewrite Hx |].
    intros m' Hm' Hf. injection Hm' as <-. rewrite Hx. now apply Hex.
Qed.

(** The significand of a number aligned to a lower exponent. *)
Lemma shl_align_value s (m : positive) (e ez : Z) :
  ez <= e ->
  (inject_Z (cond_Zopp s (Zpos (fst (shl_align m e ez)))) * pow2 ez ==
   B2Q (S754_finite s m e))%Q.
Proof.
  intros Hle. pose proof (shl_align_spec m e ez) as Ha.
  destruct (shl_align m e ez) as [m' e'']. destruct Ha as (He & Hm & _).
  cbn [fst]. rewrite Z.min_r in He by lia. subst e''.
  rewrite B2Q_finite, inject_cond_Zopp, Hm.
  rewrite (pow2_scale (Zpos m) e ez Hle). unfold sign_Q. destruct s; cbv iota; ring.
Qed.

Lemma SFadd_bound x y k :
  vld x -> vld y -> (Qabs (B2Q x + B2Q y) <= pow2 k)%Q -> k + 2 <= emax ->
  vld (SFadd prec emax x y) /\
  (Qabs (B2Q (SFadd prec emax x y) - (B2Q x + B2Q y)) <= ulp k)%Q.
Proof.
  intros Hx Hy Hmag Hk.
  assert (Hu : (0 <= ulp k)%Q) by (apply Qlt_le_weak, pow2_pos).
  assert (Hzero : forall q : Q, (q == 0)%Q -> (Qabs q <= ulp k)%Q)
    by (intros q ->; exact Hu).
  destruct x as [sx | sx | | sx mx ex], y as [sy | sy | | sy my ey];
    try contradiction.
  - destruct sx, sy; cbn [SFadd]; (split; [exact I |]); apply Hzero;
      unfold B2Q; ring.
  - cbn [SFadd]. split; [exact Hy |]. apply Hzero.
    change (B2Q (S754_zero sx)) with 0%Q. ring.
  - cbn [SFadd]. split; [exact Hx |]. apply Hzero.
    change (B2Q (S754_zero sy)) with 0%Q. ring.
  - cbn [SFadd]. set (ez := Z.min ex ey).
    pose proof (shl_align_value sx mx ex ez ltac:(subst ez; lia)) as Hvx.
    pose proof (shl_align_value sy my ey ez ltac:(subst ez; lia)) as Hvy.
    set (S := cond_Zopp sx (Zpos (fst (shl_align mx ex ez))) +
              cond_Zopp sy (Zpos (fst (shl_align my ey ez)))) in *.
    assert (HS : (inject_Z S * pow2 ez ==
                  B2Q (S754_finite sx mx ex) + B2Q (S754_finite sy my ey))%Q).
    { subst S. rewrite inject_Z_plus, <- Hvx, <- Hvy. ring. }
    destruct (binary_normalize_bound S ez k) as (Hv & Herr & _).
    + now rewrite HS.
    + exact Hk.
    + split; [exact Hv |]. now rewrite <- HS.
Qed.

Lemma SFsub_bound x y k :
  vld x -> vld y -> (Qabs (B2Q x - B2Q y) <= pow2 k)%Q -> k + 2 <= emax ->
  vld (SFsub prec emax x y) /\
  (Qabs (B2Q (SFsub prec emax x y) - (B2Q x - B2Q y)) <= ulp k)%Q.
Proof.
  intros Hx Hy Hmag Hk.
  assert (Hu : (0 <= ulp k)%Q) by (apply Qlt_le_weak, pow2_pos).
  assert (Hzero : forall q : Q, (q == 0)%Q -> (Qabs q <= ulp k)%Q)
    by (intros q ->; exact Hu).
  destruct x as [sx | sx | | sx mx ex], y as [sy | sy | | sy my ey];
    try contradiction.
  - destruct sx, sy; cbn [SFsub]; (split; [exact I |]); apply Hzero;
      unfold B2Q; ring.
  - cbn [SFsub]. split; [exact Hy |]. apply Hzero.
    change (B2Q (S754_zero sx)) with 0%Q.
    rewrite !B2Q_finite. destruct sy; cbn [negb sign_Q]; ring.
  - cbn [SFsub]. split; [exact Hx |]. apply Hzero.
    change (B2Q (S754_zero sy)) with 0%Q. ring.
  - cbn [SFsub]. set (ez := Z.min ex ey).
    pose proof (shl_align_value sx mx ex ez ltac:(subst ez; lia)) as Hvx.
    pose proof (shl_align_value sy my ey ez ltac:(subst ez; lia)) as Hvy.
    set (S := cond_Zopp sx (Zpos (fst (shl_align mx ex ez))) -
              cond_Zopp sy (Zpos (fst (shl_align my ey ez)))) in *.
    assert (HS : (inject_Z S * pow2 ez ==
                  B2Q (S754_finite sx mx ex) - B2Q (S754_finite sy my ey))%Q).
    { subst S. unfold Z.sub. rewrite inject_Z_plus, inject_Z_opp, <- Hvx, <- Hvy.
      ring. }
    destruct (binary_normalize_bound S ez k) as (Hv & Herr & _).
    + now rewrite HS.
    + exact Hk.
    + split; [exact Hv |]. now rewrite <- HS.
Qed.

End Ops.

(** ** The two formats of the source *)

Lemma validb_valid prec emax x : validb prec emax x = true <-> valid prec emax x.
Proof. destruct x; simpl; intuition discriminate. Qed.

Lemma magnitude_of_digits (m : positive) (e k : Z) :
  Zpos (digits2_pos m) + e <= k -> (inject_Z (Zpos m) * pow2 e <= pow2 k)%Q.
Proof.
  intros H. pose proof (digits2_pos_bounds m) as [_ Hhi].
  set (d := Zpos (digits2_pos m)) in *.
  apply Qle_trans with (pow2 (d + e)); [| now apply pow2_le].
  rewrite pow2_add. apply Qmult_le_compat_r; [| apply Qlt_le_weak, pow2_pos].
  rewrite <- pow2_inject by (subst d; lia). rewrite <- Zle_Qle. lia.
Qed.

Lemma canon_bound prec emax x k :
  0 < prec -> 2 <= emax ->
  match x with S754_zero _ | S754_finite _ _ _ => True | _ => False end ->
  (Qabs (B2Q x) <= pow2 k)%Q -> k + 2 <= emax ->
  valid prec emax (IEEE.canon prec emax x) /\
  (Qabs (B2Q (IEEE.canon prec emax x) - B2Q x) <= ulp_at prec emax k)%Q.
Proof.
  intros Hp He Hx Hmag Hk.
  destruct x as [s | s | | s m e]; try contradiction.
  - split; [exact I |]. simpl.
    assert (Hz : (0 - 0 == 0)%Q) by ring. rewrite Hz.
    apply Qlt_le_weak, pow2_pos.
  - cbn [IEEE.canon]. rewrite Qabs_finite in Hmag.
    destruct (binary_round_bound prec emax Hp He s m e k Hmag Hk) as (Hv & Herr & _).
    split; [exact Hv |]. now rewrite B2Q_finite.
Qed.

(** The conversion of a [float] to [double] is exact. *)
Lemma widen_exact x :
  valid32 x ->
  valid64 (IEEE.canon IEEE.prec64 IEEE.emax64 x) /\
  (B2Q (IEEE.canon IEEE.prec64 IEEE.emax64 x) == B2Q x)%Q.
Proof.
  intros Hx. destruct x as [s | s | | s m e]; try contradiction.
  - split; [exact I | reflexivity].
  - cbn [IEEE.canon].
    pose proof (valid_canonical IEEE.prec32 IEEE.emax32 s m e Hx) as Hc.
    assert (Hr : e <= 104).
    { simpl in Hx. unfold bounded in Hx. apply andb_true_iff in Hx.
      destruct Hx as [_ Hx]. apply Z.leb_le in Hx. exact Hx. }
    unfold SpecFloat.fexp, SpecFloat.emin, IEEE.prec32, IEEE.emax32 in Hc.
    destruct (binary_round_bound IEEE.prec64 IEEE.emax64 ltac:(reflexivity)
                ltac:(discriminate) s m e 128) as (Hv & _ & Hex).
    + apply magnitude_of_digits. lia.
    + unfold IEEE.emax64. lia.
    + split; [exact Hv |]. rewrite B2Q_finite. apply Hex.
      unfold SpecFloat.fexp, SpecFloat.emin, IEEE.prec64, IEEE.emax64. lia.
Qed.

(** ** The weights normalise the overlap *)

Section CoverageFacts.
Context `{CFloat} {AVExpr : Type}.
Variable av_expr_parse : string -> Z * option AVExpr.
#[local] Abbreviation ctx := (DCTdnoizContext AVExpr).

(** On a picture that holds at least one block in each direction, the
    sweep of [filter_plane] accumulates into every pixel of the processed
    region the blocks that [config_input] counted for it: the product of the
    numbers of block origins covering its column and its row, from 1 to
    [bsize * bsize]; the weight stored for the pixel is the quotient of 1 by
    that number, in [double], converted to [float]. *)
Lemma coverage_weights (s0 s s' : ctx) (inlink : AVFilterLink)
    (src : list float) (src_linesize X Y : Z) :
  init av_expr_parse s0 = Ret 0 s -> -1 <= overlap s0 ->
  config_input inlink s = Ret 0 s' ->
  bsize s <= w inlink <= CInt.INT_MAX -> bsize s <= h inlink <= CInt.INT_MAX ->
  0 <= X < pr_width s' -> 0 <= Y < pr_height s' ->
  let b := bsize s' in
  let i := Y * p_linesize s' + X in
  let c := rd 0 (block_sums b (step s') (unit_footprint b)
                   (av_malloc 0 (pr_height s' * p_linesize s')) (p_linesize s')
                   src src_linesize (pr_width s') (pr_height s')) i in
  c = covering (block_positions (pr_width s' - b + 1) (step s')) b X *
      covering (block_positions (pr_height s' - b + 1) (step s')) b Y /\
  1 <= c <= b * b /\
  rd fzero (weights s') i = reciprocal c.
Proof.
  intros Hi Hov Hc Hw Hh HX HY.
  destruct (init_success _ _ _ Hi Hov)
    as (H34 & Hn & Hb & _ & _ & _ & Hst & _).
  assert (Hshl : CInt.shl 1 (n s) = bsize s)
    by (rewrite Hn, Hb; destruct H34 as [-> | ->]; reflexivity).
  destruct (config_input_fields inlink s s' 0 Hc)
    as (_ & Hpw & Hph & Hlz & Hbs & Hstep & _ & _ & _ & Hwt).
  cbv zeta in Hpw, Hph, Hlz, Hwt. rewrite Hshl in *.
  destruct (processable_bounds (w inlink) (bsize s) (step s) Hst Hw) as [Hbw Hdw].
  destruct (processable_bounds (h inlink) (bsize s) (step s) Hst Hh) as [Hbh Hdh].
  rewrite <- Hpw in Hbw, Hdw, Hwt, Hlz. rewrite <- Hph in Hbh, Hdh, Hwt.
  rewrite <- Hlz in Hwt.
  assert (Hb8 : 1 <= bsize s) by lia.
  destruct (FFALIGN_32 (pr_width s') ltac:(lia)) as [Hal _]. rewrite <- Hlz in Hal.
  cbv zeta. rewrite Hbs, Hstep, block_sums_unit_footprint.
  split; [apply count_blocks_spec; lia |].
  split; [apply count_blocks_bounds; solve [lia | assumption] |].
  rewrite Hwt. apply rd_reciprocals; lia.
Qed.

End CoverageFacts.

(** The reciprocals of the counters that can occur, in binary32. *)
Lemma reciprocal_error (c : Z) :
  1 <= c <= 256 ->
  valid32 (@reciprocal IEEE.arith c) /\
  (Qabs (inject_Z c * B2Q (@reciprocal IEEE.arith c) - 1) <= pow2 (-24))%Q.
Proof.
  intros Hc.
  assert (Hall : forallb (fun c =>
            validb IEEE.prec32 IEEE.emax32 (@reciprocal IEEE.arith c) &&
            Qle_bool (Qabs (inject_Z c * B2Q (@reciprocal IEEE.arith c) - 1))
                     (pow2 (-24)))
          (seqZ 1 256) = true) by (vm_compute; reflexivity).
  rewrite forallb_forall in Hall.
  specialize (Hall c). rewrite andb_true_iff in Hall.
  destruct Hall as [Hv He].
  - apply list_elem_of_In, elem_of_seqZ. lia.
  - split; [now apply validb_valid | now apply Qle_bool_iff].
Qed.

(** With IEEE arithmetic, on a picture that holds at least one block in
    each direction: at every pixel of the processed region the stored
    weight is a finite binary32 number, and the number of blocks that the
    sweep of [filter_plane] accumulates there, times the weight, is within
    [2 ^ -24] of 1. *)
Theorem weights_normalise_overlap {AVExpr : Type}
    (av_expr_parse : string -> Z * option AVExpr)
    (s0 s s' : @DCTdnoizContext IEEE.arith AVExpr) (inlink : AVFilterLink)
    (src : list spec_float) (src_linesize X Y : Z) :
  init av_expr_parse s0 = Ret 0 s -> -1 <= overlap s0 ->
  config_input inlink s = Ret 0 s' ->
  bsize s <= w inlink <= CInt.INT_MAX -> bsize s <= h inlink <= CInt.INT_MAX ->
  0 <= X < pr_width s' -> 0 <= Y < pr_height s' ->
  let b := bsize s' in
  let i := Y * p_linesize s' + X in
  let c := rd 0 (block_sums b (step s') (unit_footprint b)
                   (av_malloc 0 (pr_height s' * p_linesize s')) (p_linesize s')
                   src src_linesize (pr_width s') (pr_height s')) i in
  let wt : spec_float := rd fzero (weights s') i in
  c = covering (block_positions (pr_width s' - b + 1) (step s')) b X *
      covering (block_positions (pr_height s' - b + 1) (step s')) b Y /\
  1 <= c <= b * b /\
  wt = @reciprocal IEEE.arith c /\ valid32 wt /\
  (Qabs (inject_Z c * B2Q wt - 1) <= pow2 (-24))%Q.
Proof.
  intros Hi Hov Hc Hw Hh HX HY.
  destruct (coverage_weights av_expr_parse s0 s s' inlink src src_linesize X Y
              Hi Hov Hc Hw Hh HX HY) as (Hcov & Hrange & Hwt).
  destruct (init_success _ _ _ Hi Hov) as (H34 & _ & Hb & _).
  destruct (config_input_fields inlink s s' 0 Hc)
    as (_ & _ & _ & _ & Hbs & _).
  cbv zeta. split; [exact Hcov |]. split; [exact Hrange |].
  split; [exact Hwt |].
  rewrite Hwt.
  apply reciprocal_error.
  assert (Hsq : bsize s' * bsize s' <= 256)
    by (rewrite Hbs, Hb; destruct H34 as [-> | ->]; vm_compute; discriminate).
  lia.
Qed.

(** ** The buffers of [config_input] *)


Section BufferGeometry.
Context `{CFloat} {AVExpr : Type}.
Variable av_expr_parse : string -> Z * option AVExpr.
#[local] Abbreviation ctx := (DCTdnoizContext AVExpr).


End BufferGeometry.
(** ** Soundness of the analysis *)

Lemma fx_Qmake (z : Z) : (fx z == z # 18446744073709551616)%Q.
Proof.
  unfold fx. change (pow2 (-64)) with (1 # 18446744073709551616)%Q.
  unfold Qeq, Qmult, inject_Z. cbn [Qnum Qden]. lia.
Qed.

Lemma fx_le (a b : Z) : a <= b -> (fx a <= fx b)%Q.
Proof.
  intros H. rewrite !fx_Qmake. unfold Qle. cbn [Qnum Qden]. nia.
Qed.

Lemma fx_le_inv (a b : Z) : (fx a <= fx b)%Q -> a <= b.
Proof.
  rewrite !fx_Qmake. unfold Qle. cbn [Qnum Qden]. nia.
Qed.

Lemma fx_add (a b : Z) : (fx (a + b) == fx a + fx b)%Q.
Proof. unfold fx. rewrite inject_Z_plus. ring. Qed.

Lemma fx_0 : (fx 0 == 0)%Q.
Proof. unfold fx. simpl inject_Z. ring. Qed.

Lemma fix_up_ge (q : Q) : (q <= fx (fix_up q))%Q.
Proof.
  unfold fix_up. destruct q as [n d]. cbn [Qnum Qden].
  destruct (Z.leb_spec n 0) as [Hn | Hn].
  - rewrite fx_0. unfold Qle. cbn [Qnum Qden]. lia.
  - rewrite fx_Qmake. unfold Qle. cbn [Qnum Qden].
    set (G := 18446744073709551616).
    pose proof (Z.div_mod (n * G) (Zpos d) ltac:(lia)) as Hd.
    pose proof (Z.mod_pos_bound (n * G) (Zpos d) ltac:(lia)) as Hm.
    change (Zpos 18446744073709551616) with G. nia.
Qed.

Lemma fix_down_le (q : Q) : (fx (fix_down q) <= q)%Q.
Proof.
  unfold fix_down. destruct q as [n d]. cbn [Qnum Qden].
  rewrite fx_Qmake. unfold Qle. cbn [Qnum Qden].
  set (G := 18446744073709551616).
  pose proof (Z.div_mod (n * G) (Zpos d) ltac:(lia)) as Hd.
  pose proof (Z.mod_pos_bound (n * G) (Zpos d) ltac:(lia)) as Hm.
  change (Zpos 18446744073709551616) with G. nia.
Qed.

Lemma mulfx_ge (a b : Z) : (fx a * fx b <= fx (mulfx a b))%Q.
Proof.
  unfold mulfx. rewrite !fx_Qmake. rewrite Z.shiftr_div_pow2 by lia.
  change (2 ^ 64) with 18446744073709551616.
  unfold Qle, Qmult. cbn [Qnum Qden].
  set (G := 18446744073709551616).
  pose proof (Z.div_mod (a * b) G ltac:(unfold G; lia)) as Hd.
  pose proof (Z.mod_pos_bound (a * b) G ltac:(unfold G; lia)) as Hm.
  change (Zpos (18446744073709551616 * 18446744073709551616)) with (G * G).
  change (Zpos 18446744073709551616) with G.
  assert (HG : 0 < G) by (unfold G; lia). nia.
Qed.

Lemma pow2fx_ge (e : Z) : (pow2 e <= fx (pow2fx e))%Q.
Proof.
  unfold pow2fx, fx. destruct (Z.leb_spec 0 (e + 64)) as [H | H].
  - rewrite pow2_inject by lia. rewrite <- pow2_add.
    replace (e + 64 + -64) with e by ring. apply Qle_refl.
  - simpl inject_Z. rewrite Qmult_1_l. apply pow2_le. lia.
Qed.

Lemma log2_up_above (M : Z) : (fx M <= pow2 (Z.log2_up M - 64))%Q.
Proof.
  unfold fx. unfold Z.sub. rewrite pow2_add.
  apply Qmult_le_compat_r; [| apply Qlt_le_weak, pow2_pos].
  rewrite <- pow2_inject by apply Z.log2_up_nonneg.
  rewrite <- Zle_Qle.
  destruct (Z.le_gt_cases M 1) as [H1 | H1].
  - rewrite Z.log2_up_eqn0 by lia. simpl. lia.
  - apply Z.log2_up_spec. lia.
Qed.

Lemma within_weaken sigma B E B' E' x q :
  (0 <= sigma)%Q -> (B <= B')%Q -> (E <= E')%Q ->
  within sigma B E x q -> within sigma B' E' x q.
Proof.
  intros Hs HB HE [H1 H2]. split.
  - eapply Qle_trans; [exact H1 |]. now apply Qmult_le_compat_r.
  - eapply Qle_trans; [exact H2 |]. now apply Qmult_le_compat_r.
Qed.

Lemma within_magnitude sigma B E x q :
  within sigma B E x q -> (Qabs x <= (B + E) * sigma)%Q.
Proof.
  intros [H1 H2].
  assert (Hx : (x == (x - q) + q)%Q) by ring.
  rewrite Hx. eapply Qle_trans; [apply Qabs_triangle |].
  assert (Hr : ((B + E) * sigma == E * sigma + B * sigma)%Q) by ring.
  rewrite Hr. now apply Qplus_le_compat.
Qed.

Lemma within_nonneg sigma B E x q :
  (0 < sigma)%Q -> within sigma B E x q -> (0 <= B)%Q /\ (0 <= E)%Q.
Proof.
  intros Hs [H1 H2]. split.
  - apply (Qmult_le_r _ _ sigma Hs). rewrite Qmult_0_l.
    eapply Qle_trans; [apply Qabs_nonneg | exact H2].
  - apply (Qmult_le_r _ _ sigma Hs). rewrite Qmult_0_l.
    eapply Qle_trans; [apply Qabs_nonneg | exact H1].
Qed.

Lemma within_add sigma Ba Ea Bb Eb xa qa xb qb r u :
  within sigma Ba Ea xa qa -> within sigma Bb Eb xb qb ->
  (Qabs (r - (xa + xb)) <= u * sigma)%Q ->
  within sigma (Ba + Bb) (u + Ea + Eb) r (qa + qb).
Proof.
  intros [Ha1 Ha2] [Hb1 Hb2] Hr. split.
  - assert (E : (r - (qa + qb) == (r - (xa + xb)) + ((xa - qa) + (xb - qb)))%Q) by ring.
    rewrite E. eapply Qle_trans; [apply Qabs_triangle |].
    assert (E2 : ((u + Ea + Eb) * sigma == u * sigma + (Ea * sigma + Eb * sigma))%Q)
      by ring.
    rewrite E2. apply Qplus_le_compat; [exact Hr |].
    eapply Qle_trans; [apply Qabs_triangle |]. now apply Qplus_le_compat.
  - eapply Qle_trans; [apply Qabs_triangle |].
    assert (E2 : ((Ba + Bb) * sigma == Ba * sigma + Bb * sigma)%Q) by ring.
    rewrite E2. now apply Qplus_le_compat.
Qed.

Lemma within_opp sigma B E x q : within sigma B E x q -> within sigma B E (- x) (- q).
Proof.
  intros [H1 H2]. split.
  - assert (E1 : (- x - - q == - (x - q))%Q) by ring.
    rewrite E1, Qabs_opp. exact H1.
  - rewrite Qabs_opp. exact H2.
Qed.

Lemma within_sub sigma Ba Ea Bb Eb xa qa xb qb r u :
  within sigma Ba Ea xa qa -> within sigma Bb Eb xb qb ->
  (Qabs (r - (xa - xb)) <= u * sigma)%Q ->
  within sigma (Ba + Bb) (u + Ea + Eb) r (qa - qb).
Proof.
  intros Ha Hb Hr. apply within_opp in Hb.
  assert (E : (qa - qb == qa + - qb)%Q) by ring.
  destruct (within_add sigma Ba Ea Bb Eb xa qa (- xb) (- qb) r u Ha Hb) as [H1 H2].
  - assert (E1 : (r - (xa + - xb) == r - (xa - xb))%Q) by ring.
    rewrite E1. exact Hr.
  - split.
    + assert (E1 : (r - (qa - qb) == r - (qa + - qb))%Q) by ring.
      rewrite E1. exact H1.
    + rewrite E. exact H2.
Qed.

Lemma Qabs_mul_le a b A B :
  (Qabs a <= A)%Q -> (Qabs b <= B)%Q -> (Qabs (a * b) <= A * B)%Q.
Proof.
  intros Ha Hb. rewrite Qabs_Qmult.
  apply Qmult_le_compat_nonneg; split; auto using Qabs_nonneg.
Qed.

Lemma within_mul sa sb Ba Ea Bb Eb xa qa xb qb r u :
  within sa Ba Ea xa qa -> within sb Bb Eb xb qb ->
  (Qabs (r - xa * xb) <= u * (sa * sb))%Q ->
  within (sa * sb) (Ba * Bb) (u + Ea * (Bb + Eb) + Ba * Eb) r (qa * qb).
Proof.
  intros Ha Hb Hr.
  pose proof (within_magnitude _ _ _ _ _ Hb) as Hmb.
  destruct Ha as [Ha1 Ha2], Hb as [Hb1 Hb2]. split.
  - assert (E : (r - qa * qb ==
                 (r - xa * xb) + ((xa - qa) * xb + qa * (xb - qb)))%Q) by ring.
    rewrite E. eapply Qle_trans; [apply Qabs_triangle |].
    assert (E2 : ((u + Ea * (Bb + Eb) + Ba * Eb) * (sa * sb) ==
                  u * (sa * sb) +
                  ((Ea * sa) * ((Bb + Eb) * sb) + (Ba * sa) * (Eb * sb)))%Q) by ring.
    rewrite E2. apply Qplus_le_compat; [exact Hr |].
    eapply Qle_trans; [apply Qabs_triangle |].
    apply Qplus_le_compat; now apply Qabs_mul_le.
  - assert (E2 : (Ba * Bb * (sa * sb) == (Ba * sa) * (Bb * sb))%Q) by ring.
    rewrite E2. now apply Qabs_mul_le.
Qed.

Lemma within_mul_magnitude sa sb Ba Ea Bb Eb xa qa xb qb :
  within sa Ba Ea xa qa -> within sb Bb Eb xb qb ->
  (Qabs (xa * xb) <= (Ba + Ea) * (Bb + Eb) * (sa * sb))%Q.
Proof.
  intros Ha Hb.
  pose proof (within_magnitude _ _ _ _ _ Ha) as Hma.
  pose proof (within_magnitude _ _ _ _ _ Hb) as Hmb.
  assert (E2 : ((Ba + Ea) * (Bb + Eb) * (sa * sb) ==
                ((Ba + Ea) * sa) * ((Bb + Eb) * sb))%Q) by ring.
  rewrite E2. now apply Qabs_mul_le.
Qed.

Lemma within_add_magnitude sigma Ba Ea Bb Eb xa qa xb qb :
  within sigma Ba Ea xa qa -> within sigma Bb Eb xb qb ->
  (Qabs (xa + xb) <= (Ba + Ea + (Bb + Eb)) * sigma)%Q /\
  (Qabs (xa - xb) <= (Ba + Ea + (Bb + Eb)) * sigma)%Q.
Proof.
  intros Ha Hb.
  pose proof (within_magnitude _ _ _ _ _ Ha) as Hma.
  pose proof (within_magnitude _ _ _ _ _ Hb) as Hmb.
  assert (E2 : ((Ba + Ea + (Bb + Eb)) * sigma ==
                (Ba + Ea) * sigma + (Bb + Eb) * sigma)%Q) by ring.
  rewrite E2. split.
  - eapply Qle_trans; [apply Qabs_triangle |]. now apply Qplus_le_compat.
  - assert (E : (xa - xb == xa + - xb)%Q) by ring. rewrite E.
    eapply Qle_trans; [apply Qabs_triangle |]. rewrite Qabs_opp.
    now apply Qplus_le_compat.
Qed.

Lemma scale_of_pos sc s : (0 < scale_of sc s)%Q.
Proof. destruct sc; simpl; [apply pow2_pos | reflexivity]. Qed.

Lemma prec_of_pos d : 0 < prec_of d.
Proof. destruct d; reflexivity. Qed.

Lemma emax_of_ge d : 2 <= emax_of d.
Proof. destruct d; discriminate. Qed.

Lemma approx_within s a f q :
  approx s a f q ->
  within (scale_of (scaled a) s) (fx (mag a)) (fx (err a)) (B2Q f) q.
Proof. intros (_ & H1 & H2). split; assumption. Qed.

(** One rounding, as [rounded] bounds it. *)
Lemma rounded_sound prec emax slo shi sc M u s v :
  rounded prec emax slo shi sc M = Some u -> slo <= s <= shi ->
  (Qabs v <= fx M * scale_of sc s)%Q ->
  exists k, (Qabs v <= pow2 k)%Q /\ k + 2 <= emax /\
            (ulp_at prec emax k <= fx u * scale_of sc s)%Q.
Proof.
  unfold rounded. set (k := Z.log2_up M - 64).
  pose proof (log2_up_above M) as HM. fold k in HM.
  intros Hr Hs Hv.
  destruct sc; cbn [scale_of] in *.
  - destruct (_ && _) eqn:Hc; [| discriminate].
    apply andb_true_iff in Hc. destruct Hc as [Hc1 Hc2].
    apply Z.leb_le in Hc1, Hc2. injection Hr as <-.
    exists (k + s). split; [| split; [lia |]].
    + eapply Qle_trans; [exact Hv |]. rewrite pow2_add.
      apply Qmult_le_compat_r; [exact HM | apply Qlt_le_weak, pow2_pos].
    + unfold ulp_at. rewrite Z.max_l by lia.
      replace (k + s + 1 - prec) with ((k + 1 - prec) + s) by ring.
      rewrite pow2_add.
      apply Qmult_le_compat_r; [apply pow2fx_ge | apply Qlt_le_weak, pow2_pos].
  - destruct (k + 2 <=? emax) eqn:Hc; [| discriminate].
    apply Z.leb_le in Hc. injection Hr as <-.
    exists k. split; [| split; [exact Hc |]].
    + eapply Qle_trans; [exact Hv |]. rewrite Qmult_1_r. exact HM.
    + rewrite Qmult_1_r. unfold ulp_at. apply pow2fx_ge.
Qed.

Lemma fx_nonneg_inv z : (0 <= fx z)%Q -> 0 <= z.
Proof. intros H. apply fx_le_inv. now rewrite fx_0. Qed.

Lemma join_scale_within a b sc s xa qa xb qb :
  join_scale a b = Some sc ->
  within (scale_of (scaled a) s) (fx (mag a)) (fx (err a)) xa qa ->
  within (scale_of (scaled b) s) (fx (mag b)) (fx (err b)) xb qb ->
  within (scale_of sc s) (fx (mag a)) (fx (err a)) xa qa /\
  within (scale_of sc s) (fx (mag b)) (fx (err b)) xb qb.
Proof.
  unfold join_scale. intros Hj Ha Hb.
  assert (Hzero : forall c x q sc',
            within (scale_of (scaled c) s) (fx (mag c)) (fx (err c)) x q ->
            (mag c + err c =? 0) = true ->
            within (scale_of sc' s) (fx (mag c)) (fx (err c)) x q).
  { intros c x q sc' Hc Hz. apply Z.eqb_eq in Hz.
    destruct (within_nonneg _ _ _ _ _ (scale_of_pos _ _) Hc) as [HB HE].
    apply fx_nonneg_inv in HB, HE.
    assert (HB0 : mag c = 0) by lia.
    assert (HE0 : err c = 0) by lia.
    destruct Hc as [H1 H2]. rewrite HE0, fx_0, Qmult_0_l in H1.
    rewrite HB0, fx_0, Qmult_0_l in H2.
    split; [rewrite HE0, fx_0, Qmult_0_l | rewrite HB0, fx_0, Qmult_0_l];
      assumption. }
  destruct (Bool.eqb (scaled a) (scaled b)) eqn:He.
  - apply eqb_prop in He. injection Hj as <-. split; [exact Ha |].
    rewrite He. exact Hb.
  - destruct (mag a + err a =? 0) eqn:Ha0.
    + injection Hj as <-. split; [| exact Hb]. now apply Hzero.
    + destruct (mag b + err b =? 0) eqn:Hb0; [| discriminate].
      injection Hj as <-. split; [exact Ha |]. now apply Hzero.
Qed.

Lemma abs_const_sound d f q a s :
  abs_const d f q = Some a -> approx s a f q.
Proof.
  unfold abs_const. destruct (validb _ _ f) eqn:Hv; [| discriminate].
  intros [= <-]. split; [now apply validb_valid |].
  cbn [mag err scaled scale_of]. rewrite !Qmult_1_r.
  split; apply fix_up_ge.
Qed.

Section OpSound.
Variables (slo shi s : Z) (d : bool).
Hypothesis Hs : slo <= s <= shi.

#[local] Abbreviation prec := (prec_of d).
#[local] Abbreviation emax := (emax_of d).

Lemma abs_add_sound a b c fa qa fb qb :
  abs_add d slo shi a b = Some c ->
  approx s a fa qa -> approx s b fb qb ->
  approx s c (SFadd prec emax fa fb) (qa + qb) /\
  approx s c (SFsub prec emax fa fb) (qa - qb).
Proof.
  unfold abs_add. intros Hc Ha Hb.
  destruct (Bool.eqb (fmt64 a) d && Bool.eqb (fmt64 b) d) eqn:Hf; [| discriminate].
  apply andb_true_iff in Hf. destruct Hf as [Hfa Hfb].
  apply eqb_prop in Hfa, Hfb.
  destruct (join_scale a b) as [sc |] eqn:Hj; [| discriminate].
  destruct (rounded _ _ _ _ _ _) as [u |] eqn:Hr; [| discriminate].
  injection Hc as <-.
  pose proof (approx_within _ _ _ _ Ha) as Wa.
  pose proof (approx_within _ _ _ _ Hb) as Wb.
  destruct (join_scale_within a b sc s _ _ _ _ Hj Wa Wb) as [Wa' Wb'].
  destruct Ha as (Va & _), Hb as (Vb & _). rewrite Hfa in Va. rewrite Hfb in Vb.
  destruct (within_add_magnitude _ _ _ _ _ _ _ _ _ Wa' Wb') as [Mp Mm].
  rewrite <- !fx_add in Mp, Mm.
  pose proof (scale_of_pos sc s) as Hsc.
  assert (HB : (fx (mag a) + fx (mag b) <= fx (mag a + mag b))%Q)
    by (rewrite fx_add; apply Qle_refl).
  assert (HE : (fx u + fx (err a) + fx (err b) <= fx (u + err a + err b))%Q)
    by (rewrite !fx_add; apply Qle_refl).
  split.
  - destruct (rounded_sound _ _ _ _ _ _ _ s _ Hr Hs Mp) as (k & Hk1 & Hk2 & Hk3).
    destruct (SFadd_bound prec emax (prec_of_pos d) (emax_of_ge d) fa fb k Va Vb Hk1 Hk2)
      as [Vr Er].
    split; [exact Vr |]. cbn [mag err scaled].
    apply (within_weaken (scale_of sc s) _ _ _ _ _ _ ltac:(lra) HB HE).
    apply (within_add _ _ _ _ _ (B2Q fa) qa (B2Q fb) qb); try assumption.
    eapply Qle_trans; [exact Er | exact Hk3].
  - destruct (rounded_sound _ _ _ _ _ _ _ s _ Hr Hs Mm) as (k & Hk1 & Hk2 & Hk3).
    destruct (SFsub_bound prec emax (prec_of_pos d) (emax_of_ge d) fa fb k Va Vb Hk1 Hk2)
      as [Vr Er].
    split; [exact Vr |]. cbn [mag err scaled].
    apply (within_weaken (scale_of sc s) _ _ _ _ _ _ ltac:(lra) HB HE).
    apply (within_sub _ _ _ _ _ (B2Q fa) qa (B2Q fb) qb); try assumption.
    eapply Qle_trans; [exact Er | exact Hk3].
Qed.

Lemma scale_of_orb sa sb :
  sa && sb = false ->
  (scale_of (sa || sb) s == scale_of sa s * scale_of sb s)%Q.
Proof. destruct sa, sb; simpl; intros; try discriminate; ring. Qed.

Lemma within_proper sigma sigma' B E x q :
  (sigma == sigma')%Q -> within sigma B E x q -> within sigma' B E x q.
Proof. intros Hq [H1 H2]. split; rewrite <- Hq; assumption. Qed.

Lemma abs_mul_sound a b c fa qa fb qb :
  abs_mul d slo shi a b = Some c ->
  approx s a fa qa -> approx s b fb qb ->
  approx s c (SFmul prec emax fa fb) (qa * qb).
Proof.
  unfold abs_mul. intros Hc Ha Hb.
  destruct (Bool.eqb (fmt64 a) d && Bool.eqb (fmt64 b) d &&
            negb (scaled a && scaled b)) eqn:Hf; [| discriminate].
  apply andb_true_iff in Hf. destruct Hf as [Hf Hsc].
  apply andb_true_iff in Hf. destruct Hf as [Hfa Hfb].
  apply eqb_prop in Hfa, Hfb. apply negb_true_iff in Hsc.
  destruct (rounded _ _ _ _ _ _) as [u |] eqn:Hr; [| discriminate].
  injection Hc as <-.
  pose proof (approx_within _ _ _ _ Ha) as Wa.
  pose proof (approx_within _ _ _ _ Hb) as Wb.
  destruct Ha as (Va & _), Hb as (Vb & _). rewrite Hfa in Va. rewrite Hfb in Vb.
  pose proof (scale_of_orb _ _ Hsc) as Hq.
  pose proof (scale_of_pos (scaled a || scaled b) s) as Hpos.
  pose proof (within_mul_magnitude _ _ _ _ _ _ _ _ _ _ Wa Wb) as Mm.
  rewrite <- Hq, <- !fx_add in Mm.
  assert (Mm' : (Qabs (B2Q fa * B2Q fb) <=
                 fx (mulfx (mag a + err a) (mag b + err b)) *
                 scale_of (scaled a || scaled b) s)%Q).
  { eapply Qle_trans; [exact Mm |].
    apply Qmult_le_compat_r; [apply mulfx_ge | lra]. }
  destruct (rounded_sound _ _ _ _ _ _ _ s _ Hr Hs Mm') as (k & Hk1 & Hk2 & Hk3).
  destruct (SFmul_bound prec emax (prec_of_pos d) (emax_of_ge d) fa fb k Va Vb Hk1 Hk2)
    as [Vr Er].
  split; [exact Vr |]. cbn [mag err scaled].
  apply (within_weaken _ (fx (mag a) * fx (mag b))
           (fx u + fx (err a) * (fx (mag b) + fx (err b)) + fx (mag a) * fx (err b)));
    [lra | apply mulfx_ge | |].
  - rewrite !fx_add.
    pose proof (mulfx_ge (err a) (mag b + err b)) as H1. rewrite fx_add in H1.
    pose proof (mulfx_ge (mag a) (err b)) as H2. lra.
  - apply (within_proper (scale_of (scaled a) s * scale_of (scaled b) s));
      [now symmetry |].
    apply (within_mul _ _ _ _ _ _ (B2Q fa) qa (B2Q fb) qb); try assumption.
    rewrite <- Hq. eapply Qle_trans; [exact Er | exact Hk3].
Qed.

End OpSound.

Lemma valid_finite prec emax x :
  valid prec emax x ->
  match x with S754_infinity _ | S754_nan => False | _ => True end.
Proof. destruct x; simpl; auto. Qed.

Lemma abs_widen_sound a c s f q :
  abs_widen a = Some c -> approx s a f q ->
  approx s c (IEEE.canon IEEE.prec64 IEEE.emax64 f) q.
Proof.
  unfold abs_widen, approx. destruct (fmt64 a) eqn:Hf; [discriminate |].
  intros [= <-] (V & H1 & H2). cbn [fmt64 scaled mag err prec_of emax_of] in *.
  destruct (widen_exact f V) as [V' E]. split; [exact V' |].
  rewrite E. split; assumption.
Qed.

Lemma abs_narrow_sound slo shi a c s f q :
  slo <= s <= shi ->
  abs_narrow slo shi a = Some c -> approx s a f q ->
  approx s c (IEEE.canon IEEE.prec32 IEEE.emax32 f) q.
Proof.
  unfold abs_narrow. intros Hs Hc Ha.
  destruct (fmt64 a) eqn:Hf; [| discriminate].
  destruct (rounded _ _ _ _ _ _) as [u |] eqn:Hr; [| discriminate].
  injection Hc as <-.
  pose proof (approx_within _ _ _ _ Ha) as Wa.
  pose proof (within_magnitude _ _ _ _ _ Wa) as Ma.
  rewrite <- fx_add in Ma.
  destruct Ha as (Va & _).
  destruct (rounded_sound _ _ _ _ _ _ _ s _ Hr Hs Ma) as (k & Hk1 & Hk2 & Hk3).
  destruct (canon_bound IEEE.prec32 IEEE.emax32 f k ltac:(reflexivity)
              ltac:(discriminate) (valid_finite _ _ _ Va) Hk1 Hk2) as [Vr Er].
  split; [exact Vr |]. cbn [mag err scaled].
  pose proof (scale_of_pos (scaled a) s) as Hpos.
  destruct Wa as [W1 W2]. split; [| exact W2].
  assert (E : (B2Q (IEEE.canon IEEE.prec32 IEEE.emax32 f) - q ==
               (B2Q (IEEE.canon IEEE.prec32 IEEE.emax32 f) - B2Q f) + (B2Q f - q))%Q)
    by ring.
  rewrite E. eapply Qle_trans; [apply Qabs_triangle |].
  rewrite fx_add, Qmult_plus_distr_l. apply Qplus_le_compat; [| exact W1].
  eapply Qle_trans; [exact Er | exact Hk3].
Qed.

Lemma abs_neg_sound a c s f q :
  abs_neg a = Some c -> approx s a f q -> approx s c (SFopp f) (- q).
Proof.
  unfold abs_neg. destruct (fmt64 a) eqn:Hf; [discriminate |].
  intros [= <-] (V & H1 & H2). split; [now apply SFopp_valid |].
  pose proof (within_opp _ _ _ _ _ (conj H1 H2)) as [W1 W2].
  split; [| exact W2]. rewrite SFopp_B2Q. exact W1.
Qed.

(** The analysis is sound: when it returns bounds for a term, the term
    evaluates in IEEE arithmetic to a finite number of its format within
    these bounds of its exact value, for every scale [s] of the range and
    all variables within theirs. *)
Lemma bound_sound slo shi benv envF envQ s :
  slo <= s <= shi ->
  (forall i a, benv i = Some a -> approx s a (envF i) (envQ i)) ->
  forall t a, bound slo shi benv t = Some a ->
    approx s a (evalF envF t) (evalQ envQ t).
Proof.
  intros Hs Henv t.
  induction t as [i | q | q | z | z | t IH | t IH | t1 IH1 t2 IH2 | t1 IH1 t2 IH2
                 | t1 IH1 t2 IH2 | t IH | t1 IH1 t2 IH2 | t1 IH1 t2 IH2
                 | t1 IH1 t2 IH2 | t1 IH1 t2 IH2];
    intros a Ha; cbn [bound evalF evalQ] in *;
    try (now apply (abs_const_sound _ _ _ _ s Ha));
    try (destruct (bound slo shi benv t1) as [x1 |]; [| discriminate];
         destruct (bound slo shi benv t2) as [x2 |]; [| discriminate];
         cbn [bind2] in Ha;
         specialize (IH1 _ eq_refl); specialize (IH2 _ eq_refl));
    try (destruct (bound slo shi benv t) as [x |]; [| discriminate];
         cbn [on_abs] in Ha; specialize (IH _ eq_refl)).
  - now apply Henv.
  - now apply (abs_widen_sound x).
  - now apply (abs_narrow_sound slo shi x).
  - now apply (abs_add_sound slo shi s false Hs x1 x2).
  - now apply (abs_add_sound slo shi s false Hs x1 x2).
  - now apply (abs_mul_sound slo shi s false Hs x1 x2).
  - now apply (abs_neg_sound x).
  - now apply (abs_add_sound slo shi s true Hs x1 x2).
  - now apply (abs_add_sound slo shi s true Hs x1 x2).
  - now apply (abs_mul_sound slo shi s true Hs x1 x2).
  - discriminate.
Qed.

(** *** Linear forms *)

Lemma dot_nil_r l : dot l [] = 0%Q.
Proof. destruct l; reflexivity. Qed.

Lemma dot_vadd l1 l2 xs : (dot (vadd l1 l2) xs == dot l1 xs + dot l2 xs)%Q.
Proof.
  revert l2 xs. induction l1 as [| a l1 IH]; intros l2 xs.
  - cbn. ring.
  - destruct l2 as [| b l2].
    + cbn [vadd]. rewrite (dot_nil_r xs) || idtac. destruct xs; cbn; ring.
    + destruct xs as [| x xs]; cbn [vadd dot]; [ring |].
      rewrite IH, inject_Z_plus. ring.
Qed.

Lemma dot_vscale c l xs : (dot (vscale c l) xs == inject_Z c * dot l xs)%Q.
Proof.
  revert xs. induction l as [| a l IH]; intros xs; cbn; [ring |].
  destruct xs as [| x xs]; [ring |]. rewrite IH, inject_Z_mult. ring.
Qed.

Lemma dot_vzero l xs : vzero l = true -> (dot l xs == 0)%Q.
Proof.
  revert xs. induction l as [| a l IH]; intros xs Hz; cbn; [reflexivity |].
  unfold vzero in Hz. cbn [forallb] in Hz. apply andb_true_iff in Hz.
  destruct Hz as [Ha Hl].
  apply Z.eqb_eq in Ha. subst a. destruct xs as [| x xs]; [reflexivity |].
  fold (vzero l) in Hl.
  rewrite (IH xs Hl). simpl inject_Z. ring.
Qed.

Lemma norm1_cons a l : norm1 (a :: l) = Z.abs a + norm1 l.
Proof. reflexivity. Qed.

Lemma norm1_nonneg l : 0 <= norm1 l.
Proof. induction l as [| a l IH]; [reflexivity |]. rewrite norm1_cons. lia. Qed.

Lemma dot_bound l xs M :
  Forall (fun x => Qabs x <= M)%Q xs -> (0 <= M)%Q ->
  (Qabs (dot l xs) <= inject_Z (norm1 l) * M)%Q.
Proof.
  intros Hxs HM. revert l.
  assert (Hnn : forall l, (0 <= inject_Z (norm1 l) * M)%Q).
  { intros l. apply Qmult_le_0_compat; [| exact HM].
    change 0%Q with (inject_Z 0). rewrite <- Zle_Qle. apply norm1_nonneg. }
  induction Hxs as [| x xs Hx Hxs IH]; intros l.
  - rewrite dot_nil_r. simpl Qabs. apply Hnn.
  - destruct l as [| a l]; cbn [dot].
    + simpl Qabs. apply Hnn.
    + rewrite norm1_cons, inject_Z_plus.
      eapply Qle_trans; [apply Qabs_triangle |].
      rewrite Qmult_plus_distr_l. apply Qplus_le_compat; [| apply IH].
      rewrite Qabs_Qmult, Qabs_inject.
      apply Qmult_le_compat_nonneg; split;
        [ change 0%Q with (inject_Z 0); rewrite <- Zle_Qle; lia
        | apply Qle_refl | apply Qabs_nonneg | exact Hx ].
Qed.

Lemma rd_cons_succ {A} (d x : A) xs j :
  1 <= j -> rd d (x :: xs) j = rd d xs (j - 1).
Proof.
  intros Hj. unfold rd.
  destruct (Z.ltb_spec j 0), (Z.ltb_spec (j - 1) 0); try lia.
  replace (Z.to_nat j) with (S (Z.to_nat (j - 1))) by lia. reflexivity.
Qed.

Lemma dot_basis xs k i :
  (dot (basis_from k (length xs) i) xs ==
   if (k <=? i) && (i <? k + Z.of_nat (length xs)) then rd 0 xs (i - k) else 0)%Q.
Proof.
  revert k. induction xs as [| x xs IH]; intros k.
  - cbn [length basis_from dot].
    destruct (Z.leb_spec k i), (Z.ltb_spec i (k + Z.of_nat 0)); cbn; try lia;
      reflexivity.
  - cbn [length basis_from dot]. rewrite IH.
    destruct (Z.eqb_spec k i) as [-> | Hne].
    + replace (i - i) with 0 by ring.
      destruct (Z.leb_spec (i + 1) i); [lia |].
      destruct (Z.leb_spec i i); [| lia].
      destruct (Z.ltb_spec i (i + Z.of_nat (S (length xs)))); [| lia].
      cbn [andb]. change (rd 0%Q (x :: xs) 0) with x. simpl inject_Z. ring.
    + destruct (Z.leb_spec (k + 1) i), (Z.leb_spec k i),
        (Z.ltb_spec i (k + 1 + Z.of_nat (length xs))),
        (Z.ltb_spec i (k + Z.of_nat (S (length xs)))); cbn [andb]; try lia;
        try (simpl inject_Z; ring).
      rewrite (rd_cons_succ 0%Q x xs (i - k)) by lia.
      replace (i - k - 1) with (i - (k + 1)) by ring. simpl inject_Z. ring.
Qed.

Lemma pow10_nonzero e : 0 <= e -> ~ (inject_Z (10 ^ e) == 0)%Q.
Proof.
  intros He H. unfold Qeq, inject_Z in H. cbn [Qnum Qden] in H.
  pose proof (Z.pow_pos_nonneg 10 e ltac:(lia) He). lia.
Qed.

Lemma pow10_pos e : 0 <= e -> (0 < inject_Z (10 ^ e))%Q.
Proof.
  intros He. change 0%Q with (inject_Z 0). rewrite <- Zlt_Qlt.
  apply Z.pow_pos_nonneg; lia.
Qed.

Lemma dvalue_align e a xs :
  0 <= dexp a <= e -> (dvalue (align e a) xs == dvalue a xs)%Q.
Proof.
  intros He. unfold dvalue, align. cbn [dexp dconst dcoef].
  rewrite dot_vscale, inject_Z_mult.
  replace e with ((e - dexp a) + dexp a) at 3 by ring.
  rewrite Z.pow_add_r, inject_Z_mult by lia.
  pose proof (pow10_nonzero (e - dexp a) ltac:(lia)).
  pose proof (pow10_nonzero (dexp a) ltac:(lia)).
  field. split; assumption.
Qed.

Lemma dadd_correct a b xs :
  0 <= dexp a -> 0 <= dexp b ->
  (dvalue (dadd a b) xs == dvalue a xs + dvalue b xs)%Q.
Proof.
  intros Ha Hb.
  rewrite <- (dvalue_align (Z.max (dexp a) (dexp b)) a xs) by lia.
  rewrite <- (dvalue_align (Z.max (dexp a) (dexp b)) b xs) by lia.
  unfold dvalue at 1, dadd. cbn [dexp dconst dcoef].
  unfold dvalue. cbn [dexp align].
  rewrite dot_vadd, inject_Z_plus.
  pose proof (pow10_nonzero (Z.max (dexp a) (dexp b)) ltac:(lia)).
  field. assumption.
Qed.

Lemma dneg_correct a xs : 0 <= dexp a -> (dvalue (dneg a) xs == - dvalue a xs)%Q.
Proof.
  intros Ha. unfold dvalue, dneg. cbn [dexp dconst dcoef].
  rewrite dot_vscale, inject_Z_opp.
  pose proof (pow10_nonzero (dexp a) Ha).
  change (inject_Z (-1)) with (-1 # 1)%Q. field. assumption.
Qed.

Lemma dneg_correct_any a xs : (dvalue (dneg a) xs == - dvalue a xs)%Q.
Proof.
  unfold dvalue, dneg. cbn [dexp dconst dcoef].
  rewrite dot_vscale, inject_Z_opp.
  change (inject_Z (-1)) with (-1 # 1)%Q.
  unfold Qdiv. ring.
Qed.

Lemma dplus_correct a b c xs :
  dplus a b = Some c -> (dvalue c xs == dvalue a xs + dvalue b xs)%Q.
Proof.
  unfold dplus. destruct ((0 <=? dexp a) && (0 <=? dexp b)) eqn:He; [| discriminate].
  apply andb_true_iff in He. destruct He as [Ha Hb]. apply Z.leb_le in Ha, Hb.
  intros [= <-]. now apply dadd_correct.
Qed.

Lemma dminus_correct a b c xs :
  dminus a b = Some c -> (dvalue c xs == dvalue a xs - dvalue b xs)%Q.
Proof.
  unfold dminus. destruct ((0 <=? dexp a) && (0 <=? dexp b)) eqn:He; [| discriminate].
  apply andb_true_iff in He. destruct He as [Ha Hb]. apply Z.leb_le in Ha, Hb.
  intros [= <-]. rewrite dadd_correct, dneg_correct by (cbn [dneg dexp]; lia). ring.
Qed.

Lemma dmul_correct a b c xs :
  dmul a b = Some c -> (dvalue c xs == dvalue a xs * dvalue b xs)%Q.
Proof.
  unfold dmul. destruct ((0 <=? dexp a) && (0 <=? dexp b)) eqn:He; [| discriminate].
  apply andb_true_iff in He. destruct He as [Ha Hb]. apply Z.leb_le in Ha, Hb.
  pose proof (pow10_nonzero (dexp a) Ha).
  pose proof (pow10_nonzero (dexp b) Hb).
  destruct (vzero (dcoef a)) eqn:Hza.
  - intros [= <-]. unfold dvalue. cbn [dexp dconst dcoef].
    rewrite dot_vscale, (dot_vzero _ xs Hza), Z.pow_add_r, !inject_Z_mult by lia.
    field. split; assumption.
  - destruct (vzero (dcoef b)) eqn:Hzb; [| discriminate].
    intros [= <-]. unfold dvalue. cbn [dexp dconst dcoef].
    rewrite dot_vscale, (dot_vzero _ xs Hzb), Z.pow_add_r, !inject_Z_mult by lia.
    field. split; assumption.
Qed.

Lemma dec_exp_sound fuel k p d k' :
  dec_exp fuel k p d = Some k' -> 0 <= k -> p = 10 ^ k ->
  0 <= k' /\ d = 10 ^ k'.
Proof.
  revert k p. induction fuel as [| fuel IH]; intros k p; cbn; [discriminate |].
  destruct (Z.eqb_spec p d) as [-> | Hne].
  - intros [= <-] Hk Hp. split; [exact Hk | exact Hp].
  - intros H Hk Hp. apply (IH (k + 1) (p * 10) H); [lia |].
    rewrite Z.pow_add_r by lia. rewrite Hp. reflexivity.
Qed.

Lemma dlit_correct q a xs : dlit q = Some a -> (dvalue a xs == q)%Q.
Proof.
  unfold dlit. destruct (dec_exp 40 0 1 (Zpos (Qden q))) as [k |] eqn:Hk;
    [| discriminate].
  intros [= <-]. destruct (dec_exp_sound _ _ _ _ _ Hk ltac:(lia) eq_refl) as [Hk0 Hd].
  unfold dvalue. cbn [dexp dconst dcoef]. rewrite <- Hd, dot_nil_r || rewrite <- Hd.
  destruct q as [n d]. cbn [Qnum Qden dot].
  unfold Qeq, Qdiv, Qmult, Qinv, Qplus, inject_Z. cbn [Qnum Qden]. lia.
Qed.

Lemma dint_correct z a xs : dint z = Some a -> (dvalue a xs == inject_Z z)%Q.
Proof.
  intros [= <-]. unfold dvalue. cbn [dexp dconst dcoef dot].
  change (inject_Z (10 ^ 0)) with 1%Q. field.
Qed.

(** A term that [linear] accepts has, in exact arithmetic, the value of its
    affine form. *)
Lemma linear_sound envL envQ xs :
  (forall i a, envL i = Some a -> (envQ i == dvalue a xs)%Q) ->
  forall t a, linear envL t = Some a -> (evalQ envQ t == dvalue a xs)%Q.
Proof.
  intros Henv t.
  induction t as [i | q | q | z | z | t IH | t IH | t1 IH1 t2 IH2 | t1 IH1 t2 IH2
                 | t1 IH1 t2 IH2 | t IH | t1 IH1 t2 IH2 | t1 IH1 t2 IH2
                 | t1 IH1 t2 IH2 | t1 IH1 t2 IH2];
    intros a Ha; cbn [linear evalQ] in *;
    try (symmetry; now apply (dlit_correct _ _ xs Ha));
    try (symmetry; now apply (dint_correct _ _ xs Ha));
    try (destruct (linear envL t1) as [x1 |]; [| discriminate];
         destruct (linear envL t2) as [x2 |]; [| discriminate];
         cbn [lift2] in Ha;
         rewrite (IH1 _ eq_refl), (IH2 _ eq_refl));
    try (now apply IH).
  - now apply Henv.
  - symmetry. now apply dplus_correct.
  - symmetry. now apply dminus_correct.
  - symmetry. now apply dmul_correct.
  - destruct (linear envL t) as [x |] eqn:Hx; [| discriminate].
    injection Ha as <-. rewrite (IH _ eq_refl).
    symmetry. apply dneg_correct_any.
  - symmetry. now apply dplus_correct.
  - symmetry. now apply dminus_correct.
  - symmetry. now apply dmul_correct.
  - discriminate.
Qed.

(** *** Two routines in sequence *)

Lemma lookup_map {A B} (g : A -> B) (l : list A) (k : nat) :
  map g l !! k = option_map g (l !! k).
Proof.
  revert k. induction l as [| a l IH]; intros [| k]; cbn; auto.
Qed.

Lemma rd_map_inv {A B} (g : A -> option B) (l : list A) j b :
  rd None (map g l) j = Some b ->
  0 <= j /\ exists t, l !! Z.to_nat j = Some t /\ g t = Some b.
Proof.
  unfold rd. destruct (Z.ltb_spec j 0); [discriminate |].
  rewrite lookup_map. destruct (l !! Z.to_nat j) as [t |]; cbn; [| discriminate].
  intros Hg. split; [lia |]. now exists t.
Qed.

Lemma rd_map {A B} (d : B) (f : A -> B) (l : list A) j t :
  0 <= j -> l !! Z.to_nat j = Some t -> rd d (map f l) j = f t.
Proof.
  intros Hj Hl. unfold rd. destruct (Z.ltb_spec j 0); [lia |].
  now rewrite lookup_map, Hl.
Qed.

Lemma lookup_upto n i : 0 <= i < n -> upto n !! Z.to_nat i = Some i.
Proof.
  intros Hi. unfold upto. rewrite lookup_seqZ_lt by lia. f_equal. lia.
Qed.

Lemma Forall_map_upto {B} (P : B -> Prop) (f : Z -> B) n :
  (forall k, 0 <= k < n -> P (f k)) -> Forall P (map f (upto n)).
Proof.
  intros H. apply List.Forall_forall. intros y Hy.
  apply in_map_iff in Hy. destruct Hy as (k & <- & Hk).
  apply list_elem_of_In, elem_of_seqZ in Hk. apply H. lia.
Qed.

Section ExactRoundTrip.
Variables (n : Z) (inner outer : list term) (xq : Z -> Q) (M : Q).
Hypothesis HM : forall k, 0 <= k < n -> (Qabs (xq k) <= M)%Q.
Hypothesis HM0 : (0 <= M)%Q.

#[local] Abbreviation xs := (map xq (upto n)).
#[local] Abbreviation yq := (fun j => rd 0%Q (map (evalQ xq) inner) j).

Lemma length_inputs : length xs = Z.to_nat n.
Proof. rewrite length_map. unfold upto. now rewrite length_seqZ. Qed.

Lemma dot_basis_input i :
  0 <= i < n -> (dot (basis_from 0 (Z.to_nat n) i) xs == xq i)%Q.
Proof.
  intros Hi. rewrite <- length_inputs, dot_basis, length_inputs.
  destruct (Z.leb_spec 0 i), (Z.ltb_spec i (0 + Z.of_nat (Z.to_nat n)));
    cbn [andb]; try lia.
  replace (i - 0) with i by ring.
  now rewrite (rd_map 0%Q xq (upto n) i i) by (try apply lookup_upto; lia).
Qed.

Lemma inner_linear t a :
  linear (input_forms n) t = Some a -> (evalQ xq t == dvalue a xs)%Q.
Proof.
  apply linear_sound. intros i a'. unfold input_forms.
  destruct (Z.leb_spec 0 i), (Z.ltb_spec i n); cbn [andb]; try discriminate.
  intros [= <-]. unfold dvalue. cbn [dexp dconst dcoef].
  rewrite dot_basis_input by lia.
  change (inject_Z (10 ^ 0)) with 1%Q. change (inject_Z 0) with 0%Q. field.
Qed.

Lemma outer_linear t a :
  linear (fun j => rd None (map (linear (input_forms n)) inner) j) t = Some a ->
  (evalQ yq t == dvalue a xs)%Q.
Proof.
  apply linear_sound. intros j a' Hj.
  apply rd_map_inv in Hj. destruct Hj as (Hj0 & t' & Ht' & Hl).
  rewrite (rd_map 0%Q (evalQ xq) inner j t' Hj0 Ht').
  now apply inner_linear.
Qed.

(** In exact arithmetic an output of [outer] after [inner] that
    [deviates] accepts is within [tol * M] of the input of its index. *)
Lemma deviates_sound tol i :
  0 <= i < n ->
  deviates n tol
    (map (linear (fun j => rd None (map (linear (input_forms n)) inner) j)) outer)
    i = true ->
  (Qabs (rd 0 (map (evalQ yq) outer) i - xq i) <= tol * M)%Q.
Proof.
  intros Hi Hd. unfold deviates in Hd.
  destruct (rd None (map (linear _) outer) i) as [a |] eqn:Hl; [| discriminate].
  apply andb_true_iff in Hd. destruct Hd as [Hd Hle].
  apply andb_true_iff in Hd. destruct Hd as [Hc0 He].
  apply Z.eqb_eq in Hc0. apply Z.leb_le in He. apply Qle_bool_iff in Hle.
  apply rd_map_inv in Hl. destruct Hl as (_ & t & Ht & Hl).
  rewrite (rd_map 0%Q _ outer i t) by (try exact Ht; lia).
  pose proof (outer_linear t a Hl) as Hq.
  unfold dvalue in Hq. rewrite Hc0 in Hq.
  set (e := basis_from 0 (Z.to_nat n) i) in *.
  set (P := inject_Z (10 ^ dexp a)) in *.
  assert (HP : (0 < P)%Q) by now apply pow10_pos.
  assert (HPn : ~ (P == 0)%Q).
  { intros E. rewrite E in HP. now apply Qlt_irrefl in HP. }
  assert (Hd : (evalQ yq t - xq i ==
                dot (vadd (dcoef a) (vscale (- 10 ^ dexp a) e)) xs / P)%Q).
  { rewrite dot_vadd, dot_vscale, Hq. unfold e. rewrite dot_basis_input by lia.
    rewrite inject_Z_opp. fold P. change (inject_Z 0) with 0%Q. field. exact HPn. }
  rewrite Hd. unfold Qdiv. rewrite Qabs_Qmult.
  rewrite (Qabs_pos (/ P)) by (apply Qlt_le_weak, Qinv_lt_0_compat, HP).
  apply Qle_shift_div_r; [exact HP |].
  eapply Qle_trans.
  { apply dot_bound; [| exact HM0]. apply Forall_map_upto. exact HM. }
  assert (E : (tol * M * P == tol * P * M)%Q) by ring.
  rewrite E. apply Qmult_le_compat_r; [exact Hle | exact HM0].
Qed.

End ExactRoundTrip.

(** What [exact_round_trip] checks, for two lists of terms. *)
Lemma exact_round_trip_sound n tol inner outer (xq : Z -> Q) M i :
  exact_round_trip n tol (fun env => map (linear env) inner)
                   (fun env => map (linear env) outer) = true ->
  (forall k, 0 <= k < n -> (Qabs (xq k) <= M)%Q) ->
  0 <= i < n ->
  (Qabs (rd 0 (map (evalQ (fun j => rd 0 (map (evalQ xq) inner) j)) outer) i - xq i)
   <= tol * M)%Q.
Proof.
  intros Hall HM Hi.
  assert (HM0 : (0 <= M)%Q).
  { eapply Qle_trans; [apply Qabs_nonneg | apply (HM i Hi)]. }
  unfold exact_round_trip in Hall. cbv zeta in Hall.
  rewrite forallb_forall in Hall.
  apply (deviates_sound n inner outer xq M HM HM0 tol i Hi).
  apply Hall, (proj2 (In_upto i n) Hi).
Qed.

Section RoundTrip.
Variables (slo shi n : Z) (inner outer : list term).
Variables (x : Z -> spec_float) (s : Z) (dflt : spec_float).
Hypothesis Hs : slo <= s <= shi.
Hypothesis Hx : forall k, 0 <= k < n ->
  valid32 (x k) /\ (Qabs (B2Q (x k)) <= pow2 s)%Q.

#[local] Abbreviation xq := (fun k => B2Q (x k)).
#[local] Abbreviation y := (fun j => rd dflt (map (evalF x) inner) j).
#[local] Abbreviation yq := (fun j => rd 0%Q (map (evalQ xq) inner) j).

Lemma inner_bound t a :
  bound slo shi (input_bounds n) t = Some a ->
  approx s a (evalF x t) (evalQ xq t).
Proof.
  apply (bound_sound slo shi (input_bounds n) x xq s Hs).
  intros i a'. unfold input_bounds.
  destruct (Z.leb_spec 0 i), (Z.ltb_spec i n); cbn [andb]; try discriminate.
  intros [= <-]. destruct (Hx i ltac:(lia)) as [Hv Hm].
  split; [exact Hv |]. cbn [err mag scaled scale_of fmt64].
  split.
  - assert (E : (B2Q (x i) - B2Q (x i) == 0)%Q) by ring.
    rewrite E. simpl Qabs. rewrite fx_0, Qmult_0_l. apply Qle_refl.
  - assert (E : (fx 18446744073709551616 == 1)%Q) by (rewrite fx_Qmake; reflexivity).
    rewrite E, Qmult_1_l. exact Hm.
Qed.

Lemma outer_bound t a :
  bound slo shi
        (fun j => rd None (map (bound slo shi (input_bounds n)) inner) j) t = Some a ->
  approx s a (evalF y t) (evalQ yq t).
Proof.
  apply (bound_sound slo shi _ y yq s Hs).
  intros j a' Hj.
  apply rd_map_inv in Hj. destruct Hj as (Hj0 & t' & Ht' & Hb).
  rewrite (rd_map dflt (evalF x) inner j t' Hj0 Ht').
  rewrite (rd_map 0%Q (evalQ xq) inner j t' Hj0 Ht').
  now apply inner_bound.
Qed.

(** An output of [outer] after [inner] that [strays] accepts is, in IEEE
    arithmetic, a finite [float] within [tol * 2 ^ s] of its exact value. *)
Lemma strays_sound tol i :
  0 <= i < n ->
  strays tol
    (map (bound slo shi
            (fun j => rd None (map (bound slo shi (input_bounds n)) inner) j)) outer)
    i = true ->
  let z := rd dflt (map (evalF y) outer) i in
  valid32 z /\
  (Qabs (B2Q z - rd 0 (map (evalQ yq) outer) i) <= tol * pow2 s)%Q.
Proof.
  intros Hi Hr. unfold strays in Hr.
  destruct (rd None (map (bound _ _ _) outer) i) as [a |] eqn:Hb; [| discriminate].
  apply andb_true_iff in Hr. destruct Hr as [Hr Hle].
  apply andb_true_iff in Hr. destruct Hr as [Hf Hsc].
  apply negb_true_iff in Hf. apply Z.leb_le in Hle.
  apply rd_map_inv in Hb. destruct Hb as (Hi0 & t & Ht & Hb).
  cbv zeta. rewrite (rd_map dflt (evalF y) outer i t Hi0 Ht).
  rewrite (rd_map 0%Q (evalQ yq) outer i t Hi0 Ht).
  destruct (outer_bound t a Hb) as (Hv & He & _).
  rewrite Hf in Hv. rewrite Hsc in He. cbn [scale_of] in He.
  split; [exact Hv |].
  eapply Qle_trans; [exact He |].
  apply Qmult_le_compat_r; [| apply Qlt_le_weak, pow2_pos].
  eapply Qle_trans; [apply fx_le, Hle | apply fix_down_le].
Qed.

(** Both checks together: the output [i], computed in IEEE arithmetic from
    inputs within [2 ^ s] of zero, is a finite [float] within
    [(tolF + tolQ) * 2 ^ s] of the input [i]. *)
Lemma round_trip_sound tolF tolQ i :
  rounded_round_trip n tolF (fun env => map (bound slo shi env) inner)
                     (fun env => map (bound slo shi env) outer) = true ->
  exact_round_trip n tolQ (fun env => map (linear env) inner)
                   (fun env => map (linear env) outer) = true ->
  0 <= i < n ->
  let z := rd dflt (map (evalF y) outer) i in
  valid32 z /\ (Qabs (B2Q z - B2Q (x i)) <= (tolF + tolQ) * pow2 s)%Q.
Proof.
  intros HF HQ Hi.
  unfold rounded_round_trip in HF. cbv zeta in HF. rewrite forallb_forall in HF.
  destruct (strays_sound tolF i Hi (HF i (proj2 (In_upto i n) Hi))) as [Hv He].
  pose proof (exact_round_trip_sound n tolQ inner outer xq (pow2 s) i HQ
                (fun k Hk => proj2 (Hx k Hk)) Hi) as Hdev.
  cbv zeta. split; [exact Hv |].
  set (z := rd dflt (map (evalF y) outer) i) in *.
  set (q := rd 0%Q (map (evalQ yq) outer) i) in *.
  assert (E : (B2Q z - B2Q (x i) == (B2Q z - q) + (q - B2Q (x i)))%Q) by ring.
  rewrite E. eapply Qle_trans; [apply Qabs_triangle |].
  rewrite Qmult_plus_distr_l. now apply Qplus_le_compat.
Qed.

End RoundTrip.

(** ** The transforms in IEEE and in exact arithmetic *)

(** A routine run on an instance computes what the terms that it yields on
    the free instance evaluate to: both sides unfold to the same
    expression. *)
Ltac same_expression :=
  cbv beta iota zeta delta
    [fdct8_line idct8_line fdct16_line idct16_line
     fdct8_terms idct8_terms fdct16_terms idct16_terms
     List.map evalF evalQ bound linear
     IEEE.arith Exact.arith Sym.arith Abs.arith Lin.arith
     float double f_lit d_lit f_of_int d_of_int d_of_f f_of_d
     f_add f_sub f_mul f_neg d_add d_sub d_mul d_div];
  reflexivity.

Lemma fdct8_line_evalF x : @fdct8_line IEEE.arith x = map (evalF x) fdct8_terms.
Proof. same_expression. Qed.

Lemma idct8_line_evalF y :
  @idct8_line IEEE.arith (fun _ => f_of_int 0) y = map (evalF y) idct8_terms.
Proof. same_expression. Qed.

Lemma fdct16_line_evalF x : @fdct16_line IEEE.arith x = map (evalF x) fdct16_terms.
Proof. same_expression. Qed.

Lemma idct16_line_evalF y :
  @idct16_line IEEE.arith (fun _ => f_of_int 0) y = map (evalF y) idct16_terms.
Proof. same_expression. Qed.

Lemma fdct8_line_evalQ x : @fdct8_line Exact.arith x = map (evalQ x) fdct8_terms.
Proof. same_expression. Qed.

Lemma idct8_line_evalQ y :
  @idct8_line Exact.arith (fun _ => f_of_int 0) y = map (evalQ y) idct8_terms.
Proof. same_expression. Qed.

Lemma fdct16_line_evalQ x : @fdct16_line Exact.arith x = map (evalQ x) fdct16_terms.
Proof. same_expression. Qed.

Lemma idct16_line_evalQ y :
  @idct16_line Exact.arith (fun _ => f_of_int 0) y = map (evalQ y) idct16_terms.
Proof. same_expression. Qed.

Lemma fdct8_line_bound slo shi env :
  @fdct8_line (Abs.arith slo shi) env = map (bound slo shi env) fdct8_terms.
Proof. same_expression. Qed.

Lemma idct8_line_bound slo shi env :
  @idct8_line (Abs.arith slo shi) (fun _ => f_of_int 0) env =
  map (bound slo shi env) idct8_terms.
Proof. same_expression. Qed.

Lemma fdct16_line_bound slo shi env :
  @fdct16_line (Abs.arith slo shi) env = map (bound slo shi env) fdct16_terms.
Proof. same_expression. Qed.

Lemma idct16_line_bound slo shi env :
  @idct16_line (Abs.arith slo shi) (fun _ => f_of_int 0) env =
  map (bound slo shi env) idct16_terms.
Proof. same_expression. Qed.

Lemma fdct8_line_linear env :
  @fdct8_line Lin.arith env = map (linear env) fdct8_terms.
Proof. same_expression. Qed.

Lemma idct8_line_linear env :
  @idct8_line Lin.arith (fun _ => f_of_int 0) env = map (linear env) idct8_terms.
Proof. same_expression. Qed.

Lemma fdct16_line_linear env :
  @fdct16_line Lin.arith env = map (linear env) fdct16_terms.
Proof. same_expression. Qed.

Lemma idct16_line_linear env :
  @idct16_line Lin.arith (fun _ => f_of_int 0) env = map (linear env) idct16_terms.
Proof. same_expression. Qed.

Lemma rounded_round_trip_ext n tol innerA outerA innerA' outerA' :
  (forall env, innerA env = innerA' env) ->
  (forall env, outerA env = outerA' env) ->
  rounded_round_trip n tol innerA outerA = rounded_round_trip n tol innerA' outerA'.
Proof. intros Hi Ho. unfold rounded_round_trip. now rewrite Hi, Ho. Qed.

Lemma exact_round_trip_ext n tol innerL outerL innerL' outerL' :
  (forall env, innerL env = innerL' env) ->
  (forall env, outerL env = outerL' env) ->
  exact_round_trip n tol innerL outerL = exact_round_trip n tol innerL' outerL'.
Proof. intros Hi Ho. unfold exact_round_trip. now rewrite Hi, Ho. Qed.

Lemma dct8_rounding :
  rounded_round_trip 8 0.000019
    (@fdct8_line (Abs.arith (-120) 120))
    (@idct8_line (Abs.arith (-120) 120) (fun _ => f_of_int 0)) = true.
Proof. vm_compute. reflexivity. Qed.

Lemma dct16_rounding :
  rounded_round_trip 16 0.000049
    (@fdct16_line (Abs.arith (-120) 120))
    (@idct16_line (Abs.arith (-120) 120) (fun _ => f_of_int 0)) = true.
Proof. vm_compute. reflexivity. Qed.

Lemma dct8_back :
  exact_round_trip 8 (1 # 100000000000000)
    (@fdct8_line Lin.arith) (@idct8_line Lin.arith (fun _ => f_of_int 0)) = true.
Proof. vm_compute. reflexivity. Qed.

Lemma dct8_forth :
  exact_round_trip 8 (1 # 100000000000000)
    (@idct8_line Lin.arith (fun _ => f_of_int 0)) (@fdct8_line Lin.arith) = true.
Proof. vm_compute. reflexivity. Qed.

Lemma dct16_back :
  exact_round_trip 16 (2 # 100000000000000)
    (@fdct16_line Lin.arith) (@idct16_line Lin.arith (fun _ => f_of_int 0)) = true.
Proof. vm_compute. reflexivity. Qed.

Lemma dct16_forth :
  exact_round_trip 16 (2 # 100000000000000)
    (@idct16_line Lin.arith (fun _ => f_of_int 0)) (@fdct16_line Lin.arith) = true.
Proof. vm_compute. reflexivity. Qed.

(** In IEEE arithmetic, on eight finite [float]s within [2 ^ s] of zero,
    [s] from -120 to 120: the butterfly of [fdct8_1d] followed by that of
    [idct8_1d] without accumulation yields finite [float]s, each within
    [0.00002 * 2 ^ s] of the input of its index. *)
Theorem dct8_round_trip (x : Z -> spec_float) (s i : Z) :
  -120 <= s <= 120 ->
  (forall k, 0 <= k < 8 -> valid32 (x k) /\ (Qabs (B2Q (x k)) <= pow2 s)%Q) ->
  0 <= i < 8 ->
  let y := @fdct8_line IEEE.arith x in
  let z := @idct8_line IEEE.arith (fun _ => f_of_int 0) (fun k => rd fzero y k) in
  valid32 (rd fzero z i) /\
  (Qabs (B2Q (rd fzero z i) - B2Q (x i)) <= 0.00002 * pow2 s)%Q.
Proof.
  intros Hs Hx Hi. cbv zeta.
  rewrite idct8_line_evalF, fdct8_line_evalF.
  pose proof dct8_rounding as HF.
  rewrite (rounded_round_trip_ext _ _ _ _ _ _
             (fdct8_line_bound _ _) (idct8_line_bound _ _)) in HF.
  pose proof dct8_back as HQ.
  rewrite (exact_round_trip_ext _ _ _ _ _ _
             fdct8_line_linear idct8_line_linear) in HQ.
  destruct (round_trip_sound (-120) 120 8 fdct8_terms idct8_terms x s
              (@fzero IEEE.arith) Hs Hx _ _ i HF HQ Hi) as [Hv He].
  split; [exact Hv |]. eapply Qle_trans; [exact He |].
  apply Qmult_le_compat_r; [discriminate | apply Qlt_le_weak, pow2_pos].
Qed.

(** The same for the sixteen-point butterflies of [fdct16_1d] and
    [idct16_1d], within [0.00005 * 2 ^ s]. *)
Theorem dct16_round_trip (x : Z -> spec_float) (s i : Z) :
  -120 <= s <= 120 ->
  (forall k, 0 <= k < 16 -> valid32 (x k) /\ (Qabs (B2Q (x k)) <= pow2 s)%Q) ->
  0 <= i < 16 ->
  let y := @fdct16_line IEEE.arith x in
  let z := @idct16_line IEEE.arith (fun _ => f_of_int 0) (fun k => rd fzero y k) in
  valid32 (rd fzero z i) /\
  (Qabs (B2Q (rd fzero z i) - B2Q (x i)) <= 0.00005 * pow2 s)%Q.
Proof.
  intros Hs Hx Hi. cbv zeta.
  rewrite idct16_line_evalF, fdct16_line_evalF.
  pose proof dct16_rounding as HF.
  rewrite (rounded_round_trip_ext _ _ _ _ _ _
             (fdct16_line_bound _ _) (idct16_line_bound _ _)) in HF.
  pose proof dct16_back as HQ.
  rewrite (exact_round_trip_ext _ _ _ _ _ _
             fdct16_line_linear idct16_line_linear) in HQ.
  destruct (round_trip_sound (-120) 120 16 fdct16_terms idct16_terms x s
              (@fzero IEEE.arith) Hs Hx _ _ i HF HQ Hi) as [Hv He].
  split; [exact Hv |]. eapply Qle_trans; [exact He |].
  apply Qmult_le_compat_r; [discriminate | apply Qlt_le_weak, pow2_pos].
Qed.

(** In exact arithmetic, with the decimal constants as written: the
    butterflies of [fdct8_1d] and of [idct8_1d] without accumulation undo
    each other, in either order, to within [10 ^ -14] times a bound [M] of
    the eight inputs. *)
Theorem dct8_exact_inverse (x : Z -> Q) (M : Q) (i : Z) :
  (forall k, 0 <= k < 8 -> (Qabs (x k) <= M)%Q) -> 0 <= i < 8 ->
  let fwd := @fdct8_line Exact.arith x in
  let inv := @idct8_line Exact.arith (fun _ => f_of_int 0) x in
  let back := @idct8_line Exact.arith (fun _ => f_of_int 0) (fun k => rd 0%Q fwd k) in
  let forth := @fdct8_line Exact.arith (fun k => rd 0%Q inv k) in
  (Qabs (rd 0 back i - x i) <= (1 # 100000000000000) * M)%Q /\
  (Qabs (rd 0 forth i - x i) <= (1 # 100000000000000) * M)%Q.
Proof.
  intros Hx Hi. cbv zeta.
  rewrite !idct8_line_evalQ, !fdct8_line_evalQ.
  pose proof dct8_back as Hb1.
  rewrite (exact_round_trip_ext _ _ _ _ _ _
             fdct8_line_linear idct8_line_linear) in Hb1.
  pose proof dct8_forth as Hb2.
  rewrite (exact_round_trip_ext _ _ _ _ _ _
             idct8_line_linear fdct8_line_linear) in Hb2.
  split.
  - exact (exact_round_trip_sound 8 _ fdct8_terms idct8_terms x M i Hb1 Hx Hi).
  - exact (exact_round_trip_sound 8 _ idct8_terms fdct8_terms x M i Hb2 Hx Hi).
Qed.

(** The same for the sixteen-point butterflies of [fdct16_1d] and
    [idct16_1d], to within [2 * 10 ^ -14] times the bound. *)
Theorem dct16_exact_inverse (x : Z -> Q) (M : Q) (i : Z) :
  (forall k, 0 <= k < 16 -> (Qabs (x k) <= M)%Q) -> 0 <= i < 16 ->
  let fwd := @fdct16_line Exact.arith x in
  let inv := @idct16_line Exact.arith (fun _ => f_of_int 0) x in
  let back := @idct16_line Exact.arith (fun _ => f_of_int 0) (fun k => rd 0%Q fwd k) in
  let forth := @fdct16_line Exact.arith (fun k => rd 0%Q inv k) in
  (Qabs (rd 0 back i - x i) <= (2 # 100000000000000) * M)%Q /\
  (Qabs (rd 0 forth i - x i) <= (2 # 100000000000000) * M)%Q.
Proof.
  intros Hx Hi. cbv zeta.
  rewrite !idct16_line_evalQ, !fdct16_line_evalQ.
  pose proof dct16_back as Hb1.
  rewrite (exact_round_trip_ext _ _ _ _ _ _
             fdct16_line_linear idct16_line_linear) in Hb1.
  pose proof dct16_forth as Hb2.
  rewrite (exact_round_trip_ext _ _ _ _ _ _
             idct16_line_linear fdct16_line_linear) in Hb2.
  split.
  - exact (exact_round_trip_sound 16 _ fdct16_terms idct16_terms x M i Hb1 Hx Hi).
  - exact (exact_round_trip_sound 16 _ idct16_terms fdct16_terms x M i Hb2 Hx Hi).
Qed.

(** ** The colour transforms in IEEE arithmetic *)

(** The conversion of a byte to [float] is exact. *)
Lemma byte_exact (p : Z) :
  0 <= p <= 255 ->
  valid32 (IEEE.of_Z IEEE.prec32 IEEE.emax32 p) /\
  (B2Q (IEEE.of_Z IEEE.prec32 IEEE.emax32 p) == inject_Z p)%Q.
Proof.
  intros Hp.
  assert (Hall : forallb (fun p =>
            validb IEEE.prec32 IEEE.emax32 (IEEE.of_Z IEEE.prec32 IEEE.emax32 p) &&
            Qeq_bool (B2Q (IEEE.of_Z IEEE.prec32 IEEE.emax32 p)) (inject_Z p))
          (seqZ 0 256) = true) by (vm_compute; reflexivity).
  rewrite forallb_forall in Hall. specialize (Hall p).
  rewrite andb_true_iff in Hall. destruct Hall as [Hv He].
  - apply list_elem_of_In, elem_of_seqZ. lia.
  - split; [now apply validb_valid | now apply Qeq_bool_eq].
Qed.

(** [av_clip_uint8] leaves a byte as it is. *)
Lemma av_clip_uint8_byte (a : Z) : 0 <= a <= 255 -> av_clip_uint8 a = a.
Proof.
  intros Ha.
  assert (Hall : forallb (fun a => av_clip_uint8 a =? a) (seqZ 0 256) = true)
    by (vm_compute; reflexivity).
  rewrite forallb_forall in Hall. apply Z.eqb_eq, Hall.
  apply list_elem_of_In, elem_of_seqZ. lia.
Qed.

(** The integer part of a positive number given by mantissa and exponent. *)
Lemma shiftl_floor (m : positive) (e : Z) :
  (inject_Z (Z.shiftl (Zpos m) e) <= inject_Z (Zpos m) * pow2 e)%Q /\
  (inject_Z (Zpos m) * pow2 e < inject_Z (Z.shiftl (Zpos m) e) + 1)%Q.
Proof.
  destruct (Z.le_gt_cases 0 e) as [He | He].
  - rewrite Z.shiftl_mul_pow2 by lia.
    rewrite inject_Z_mult, pow2_inject by lia. split; [apply Qle_refl | lra].
  - rewrite Z.shiftl_div_pow2 by lia.
    set (d := 2 ^ (- e)).
    assert (Hd : 0 < d) by (apply Z.pow_pos_nonneg; lia).
    pose proof (Z.div_mod (Zpos m) d ltac:(lia)) as Hdm.
    pose proof (Z.mod_pos_bound (Zpos m) d Hd) as Hm.
    assert (Hp : (pow2 e * inject_Z d == 1)%Q).
    { unfold d. rewrite pow2_inject by lia. rewrite <- pow2_add.
      replace (e + - e) with 0 by ring. reflexivity. }
    assert (Hd' : (0 < inject_Z d)%Q)
      by (change 0%Q with (inject_Z 0); rewrite <- Zlt_Qlt; lia).
    split.
    + apply (Qmult_le_r _ _ (inject_Z d) Hd').
      assert (E : (inject_Z (Zpos m) * pow2 e * inject_Z d == inject_Z (Zpos m))%Q).
      { rewrite <- Qmult_assoc, Hp. ring. }
      rewrite E, <- inject_Z_mult, <- Zle_Qle. nia.
    + apply (Qmult_lt_r _ _ (inject_Z d) Hd').
      assert (E : (inject_Z (Zpos m) * pow2 e * inject_Z d == inject_Z (Zpos m))%Q).
      { rewrite <- Qmult_assoc, Hp. ring. }
      rewrite E.
      assert (E1 : ((inject_Z (Zpos m / d) + 1) * inject_Z d ==
                    inject_Z ((Zpos m / d + 1) * d))%Q).
      { rewrite inject_Z_mult, inject_Z_plus. reflexivity. }
      rewrite E1, <- Zlt_Qlt. nia.
Qed.

(** The conversion to [int] of a [float] less than 1 away from a byte [p]
    truncates it to [p] or to [p - 1]. *)
Lemma to_int_near (f : spec_float) (p : Z) :
  valid32 f -> 0 <= p <= 255 -> (Qabs (B2Q f - inject_Z p) < 1)%Q ->
  Z.max 0 (p - 1) <= IEEE.to_int f <= p.
Proof.
  intros Hv Hp Hn.
  assert (Hn' : (inject_Z p - 1 < B2Q f)%Q /\ (B2Q f < inject_Z p + 1)%Q).
  { apply Qabs_diff_Qlt_condition in Hn. unfold Qminus in *. lra. }
  destruct Hn' as [Hlo Hhi].
  destruct f as [sg | sg | | sg m e]; try contradiction.
  - change (B2Q (S754_zero sg)) with 0%Q in Hlo, Hhi.
    assert (Hp1 : (inject_Z p < inject_Z 1)%Q)
      by (change (inject_Z 1) with 1%Q; lra).
    rewrite <- Zlt_Qlt in Hp1. cbn [IEEE.to_int]. lia.
  - rewrite B2Q_finite in Hlo, Hhi.
    destruct (shiftl_floor m e) as [Hf1 Hf2].
    set (t := Z.shiftl (Zpos m) e) in *.
    assert (Ht0 : 0 <= t) by (apply Z.shiftl_nonneg; lia).
    unfold IEEE.to_int. fold t.
    destruct sg; unfold sign_Q in Hlo, Hhi; cbn [cond_Zopp].
    + assert (Hp0 : (inject_Z p < inject_Z 1)%Q).
      { assert (Hpos : (0 < inject_Z (Zpos m) * pow2 e)%Q).
        { apply Qmult_lt_0_compat; [reflexivity | apply pow2_pos]. }
        change (inject_Z 1) with 1%Q. lra. }
      rewrite <- Zlt_Qlt in Hp0.
      assert (Ht : (inject_Z t < inject_Z 1)%Q).
      { assert (E : (inject_Z p == 0)%Q) by (replace p with 0 by lia; reflexivity).
        rewrite E in Hlo. change (inject_Z 1) with 1%Q. lra. }
      rewrite <- Zlt_Qlt in Ht.
      replace t with 0 by lia. simpl. lia.
    + assert (H1 : (inject_Z t < inject_Z (p + 1))%Q).
      { rewrite inject_Z_plus. change (inject_Z 1) with 1%Q. lra. }
      assert (H2 : (inject_Z (p - 2) < inject_Z t)%Q).
      { unfold Z.sub. rewrite inject_Z_plus. change (inject_Z (- (2))) with (-2 # 1)%Q. lra. }
      rewrite <- Zlt_Qlt in H1, H2.
      assert (Hr : (CInt.INT_MIN <=? t) && (t <=? CInt.INT_MAX) = true).
      { apply andb_true_iff. split; apply Z.leb_le;
          unfold CInt.INT_MIN, CInt.INT_MAX; lia. }
      rewrite Hr. lia.
Qed.

Lemma decorrelate_pixel_evalF (pr pg pb : Z) :
  let '(a, b, c) := @decorrelate_pixel IEEE.arith pr pg pb in
  [a; b; c] =
  map (evalF (fun k => IEEE.of_Z IEEE.prec32 IEEE.emax32 (rd 0 [pr; pg; pb] k)))
      decorrelate_terms.
Proof. reflexivity. Qed.

Lemma correlate_floats_evalF (y : Z -> spec_float) :
  @correlate_floats IEEE.arith (y 0) (y 1) (y 2) = map (evalF y) correlate_terms.
Proof. reflexivity. Qed.

(** [correlate_pixel] converts and clips the three expressions. *)
Lemma correlate_pixel_floats `{CFloat} (sr sg sb : float) :
  correlate_pixel sr sg sb =
  let v := correlate_floats sr sg sb in
  (av_clip_uint8 (f_to_int (rd fzero v 0)), av_clip_uint8 (f_to_int (rd fzero v 1)),
   av_clip_uint8 (f_to_int (rd fzero v 2))).
Proof. reflexivity. Qed.

Lemma colour_rounding :
  rounded_round_trip 3 0.000009
    (fun env => map (bound 8 8 env) decorrelate_terms)
    (fun env => map (bound 8 8 env) correlate_terms) = true.
Proof. vm_compute. reflexivity. Qed.

Lemma colour_exact :
  exact_round_trip 3 0.000001
    (fun env => map (linear env) decorrelate_terms)
    (fun env => map (linear env) correlate_terms) = true.
Proof. vm_compute. reflexivity. Qed.

(** In IEEE arithmetic, for every pixel of three bytes: the three values
    of [color_decorrelation], taken through [color_correlation], give back
    each byte [p] as [p] or as [p - 1]; the expression that
    [av_clip_uint8] receives is within 0.00256 of [p], and its conversion to
    [int] truncates it. *)
Theorem colour_round_trip (pr pg pb : Z) :
  0 <= pr <= 255 -> 0 <= pg <= 255 -> 0 <= pb <= 255 ->
  let '(a, b, c) := @decorrelate_pixel IEEE.arith pr pg pb in
  let '(r', g', b') := @correlate_pixel IEEE.arith a b c in
  Z.max 0 (pr - 1) <= r' <= pr /\
  Z.max 0 (pg - 1) <= g' <= pg /\
  Z.max 0 (pb - 1) <= b' <= pb.
Proof.
  intros Hr Hg Hb.
  pose proof (decorrelate_pixel_evalF pr pg pb) as Hd.
  destruct (@decorrelate_pixel IEEE.arith pr pg pb) as [[a b] c].
  set (x := fun k => IEEE.of_Z IEEE.prec32 IEEE.emax32 (rd 0 [pr; pg; pb] k)) in *.
  set (y := fun k => rd (S754_zero false) (map (evalF x) decorrelate_terms) k).
  assert (Ha : a = y 0) by (unfold y; rewrite <- Hd; reflexivity).
  assert (Hb' : b = y 1) by (unfold y; rewrite <- Hd; reflexivity).
  assert (Hc : c = y 2) by (unfold y; rewrite <- Hd; reflexivity).
  rewrite Ha, Hb', Hc, correlate_pixel_floats, (correlate_floats_evalF y).
  cbv zeta. cbn [f_to_int IEEE.arith].
  change (@fzero IEEE.arith) with (S754_zero false).
  assert (Hin : forall k, 0 <= k < 3 -> 0 <= rd 0 [pr; pg; pb] k <= 255).
  { intros k Hk. assert (E : k = 0 \/ k = 1 \/ k = 2) by lia.
    destruct E as [-> | [-> | ->]]; assumption. }
  assert (Hx : forall k, 0 <= k < 3 ->
             valid32 (x k) /\ (Qabs (B2Q (x k)) <= pow2 8)%Q).
  { intros k Hk. destruct (byte_exact _ (Hin k Hk)) as [Hv He].
    split; [exact Hv |]. unfold x.
    rewrite He, Qabs_inject. change (pow2 8) with (inject_Z 256).
    rewrite <- Zle_Qle. specialize (Hin k Hk). lia. }
  assert (Hout : forall i, 0 <= i < 3 ->
            let z := rd (S754_zero false) (map (evalF y) correlate_terms) i in
            Z.max 0 (rd 0 [pr; pg; pb] i - 1) <= av_clip_uint8 (IEEE.to_int z)
              <= rd 0 [pr; pg; pb] i).
  { intros i Hi z.
    destruct (round_trip_sound 8 8 3 decorrelate_terms correlate_terms x 8
                (S754_zero false) ltac:(lia) Hx _ _ i colour_rounding colour_exact Hi)
      as [Hv He].
    destruct (byte_exact _ (Hin i Hi)) as [_ Hxi].
    change (x i) with (IEEE.of_Z IEEE.prec32 IEEE.emax32 (rd 0 [pr; pg; pb] i)) in He.
    rewrite Hxi in He.
    assert (Hlt : (Qabs (B2Q z - inject_Z (rd 0%Z [pr; pg; pb] i)) < 1)%Q).
    { eapply Qle_lt_trans; [exact He |]. reflexivity. }
    pose proof (to_int_near z _ Hv (Hin i Hi) Hlt) as Ht.
    specialize (Hin i Hi).
    rewrite av_clip_uint8_byte by lia. exact Ht. }
  split; [exact (Hout 0 ltac:(lia)) |].
  split; [exact (Hout 1 ltac:(lia)) | exact (Hout 2 ltac:(lia))].
Qed.
(** * The claims on concrete inputs *)

(** C4, on sigma = 0.5.  [init] stores the threshold 1.5; the entry point
    for the sigma mode passes it to a parameter of type [int], so the filter
    compares with 1: the coefficient 1.25, below three times sigma, is kept
    where the threshold 1.5 as stored would have it set to zero. *)
Theorem sigma_threshold_is_truncated :
  let s0 := Example.options 0.5 (-1) None 3 in
  let s := Example.after (init Example.reject s0) s0 in
  let c := Example.f32 1.25 in
  init Example.reject s0 = Ret 0 s /\
  filter_freq_func s = Some filter_freq_sigma_8 /\
  (B2Q (sigma s) == 0.5)%Q /\ (B2Q (th s) == 1.5)%Q /\ (B2Q c == 1.25)%Q /\
  f_to_int (th s) = 1 /\
  f_ltb (FFABS c) (th s) = true /\
  filter_coeff Example.half None (f_to_int (th s)) c = c /\
  forall src soff sl dst doff dl,
    call_filter_freq_func Example.half filter_freq_sigma_8 s src soff sl dst doff dl =
    filter_freq Example.half BS8 src soff sl dst doff dl None 1.
Proof.
  cbv zeta. repeat split; try reflexivity.
Qed.

(** C1, on a 5 by 5 picture with the default block size 8 and overlap 7.
    [config_input] keeps the size 5 by 5; no block fits, no counter is
    incremented, and the weight stored for every pixel is the quotient of 1
    by 0, an infinity. *)
Theorem small_frame_weights_divide_by_zero :
  let s0 := Example.options 0 (-1) None 3 in
  let s := Example.after (init Example.reject s0) s0 in
  let inlink := Example.rgb 5 5 in
  let s' := Example.after (config_input inlink s) s in
  init Example.reject s0 = Ret 0 s /\ config_input inlink s = Ret 0 s' /\
  pr_width s' = 5 /\ pr_height s' = 5 /\ p_linesize s' = 32 /\
  Forall (fun i =>
            rd 0 (count_blocks (bsize s) (step s) 5 5 32 (av_malloc 0 (5 * 32))) i = 0 /\
            rd fzero (weights s') i = S754_infinity false)
         (region_indices 5 5 32).
Proof.
  cbv zeta. repeat split; try reflexivity.
  apply List.Forall_forall. intros i Hi.
  assert (Hb : forallb (fun i =>
            (rd 0 (count_blocks 8 1 5 5 32 (av_malloc 0 (5 * 32))) i =? 0) &&
            match rd (S754_zero false)
                    (weights (Example.after
                       (config_input (Example.rgb 5 5)
                          (Example.after (init Example.reject (Example.options 0 (-1) None 3))
                                         (Example.options 0 (-1) None 3)))
                       (Example.options 0 (-1) None 3))) i with
            | S754_infinity false => true | _ => false end)
         (region_indices 5 5 32) = true) by (vm_compute; reflexivity).
  rewrite forallb_forall in Hb. specialize (Hb i Hi).
  apply andb_true_iff in Hb. destruct Hb as [H1 H2]. apply Z.eqb_eq in H1.
  split; [exact H1 |].
  match type of H2 with match ?x with _ => _ end = true => 
    change (x = S754_infinity false); destruct x as [| [] | |]; try discriminate; reflexivity end.
Qed.

(** C7, on a 5 by 9 picture with block size 8 and overlap 6 (step 2).  The
    remainder of [5 - 8] by 2 is -1 in C, so [config_input] takes the width
    6 for the region; in [filter_frame] the width of the right margin is
    then negative, and on the path through a new buffer [memcpy] is called
    with the length -3. *)
Theorem small_frame_copy_is_undefined :
  let s0 := Example.options 0 6 None 3 in
  let inlink := Example.rgb 5 9 in
  let s := Example.after (init Example.reject s0) s0 in
  let s' := Example.after (config_input inlink s) s in
  let in_ := Example.flat 9 32 7 false in
  let fresh := Example.flat 9 32 0 true in
  init Example.reject s0 = Ret 0 s /\ config_input inlink s = Ret 0 s' /\
  pr_width s' = 6 /\ pr_height s' = 8 /\
  CInt.mul (CInt.sub (w inlink) (pr_width s')) 3 = -3 /\
  memcpy (data fresh) (pr_width s' * 3) (data in_) (pr_width s' * 3) (-3) = None /\
  filter_frame Example.half inlink s' in_ (Some fresh) = Undefined.
Proof.
  cbv zeta. repeat split; vm_compute; reflexivity.
Qed.

(** C9: a configuration that [init] refuses with [AVERROR(EINVAL)] although
    its overlap is within range, the parser having refused the expression;
    and a configuration refused for its overlap, which [init] leaves with
    the field [bsize] written. *)
Lemma init_refuses_overlap_in_range :
  let s0 := Example.options 0 0 (Some "("%string) 3 in
  let s1 := Example.options 0 8 None 3 in
  (effective_overlap s0 <= 2 ^ n s0 - 1 /\
   init Example.reject s0 = Ret (AVERROR EINVAL) (set_bsize 8 s0)) /\
  (init Example.reject s1 = Ret (AVERROR EINVAL) (set_bsize 8 s1) /\
   bsize s1 = 0 /\ bsize (set_bsize 8 s1) = 8).
Proof.
  cbv zeta. repeat split; vm_compute; try reflexivity. discriminate.
Qed.

(** [init_overlap_check] on the default options: overlap 7, step 1. *)
Lemma init_overlap_check_default :
  let s0 := Example.options 0 (-1) None 3 in
  exists s, init Example.accept s0 = Ret 0 s /\
    is_Some (filter_freq_func s) /\ step s = 1.
Proof.
  cbv zeta.
  destruct (init_overlap_check (H := IEEE.arith) Example.accept
              (Example.options 0 (-1) None 3)) as [_ Hin];
    [left; reflexivity | simpl; lia |].
  specialize (Hin ltac:(vm_compute; discriminate)). simpl in Hin.
  destruct Hin as (s & Hi & Hf & Hs & _).
  exists s. split; [exact Hi |]. split; [exact Hf |]. exact Hs.
Defined.


(** [processable_needs_one_block] on the dimension 20 with block size and
    step 16. *)
Lemma processable_20 :
  processable 20 16 16 = 16 /\ 16 <= processable 20 16 16 <= 20 /\
  (16 | processable 20 16 16 - 16).
Proof.
  destruct (proj1 processable_needs_one_block 20 16 16) as (H1 & H2 & H3);
    [lia | unfold CInt.INT_MAX; lia |].
  split; [reflexivity |]. split; [exact H2 | exact H3].
Defined.

(** [expr_output_independent_of_sigma] on an 8 by 8 picture, with sigma 0
    and sigma 3. *)
Lemma expr_output_sigma_0_3 :
  let inlink := Example.rgb 8 8 in
  let in_ := Example.flat 8 32 100 true in
  process Example.accept Example.half
    (Example.options 0 0 (Some "c"%string) 3) inlink in_ None =
  process Example.accept Example.half
    (Example.options 3 0 (Some "c"%string) 3) inlink in_ None.
Proof.
  cbv zeta.
  apply (expr_output_independent_of_sigma (H := IEEE.arith)).
  - unfold agree_but_sigma. simpl. repeat split; reflexivity.
  - simpl. congruence.
Defined.

(** Witnesses on concrete pictures *)

(** [weights_normalise_overlap] on a 12 by 8 picture with block size 8 and
    overlap 6: the pixel (4, 0) lies in three blocks, and its weight is the
    binary32 number nearest to one third, not one third. *)
Lemma weights_12_by_8 :
  let s0 := Example.options 0 6 None 3 in
  let s := Example.after (init Example.reject s0) s0 in
  let s' := Example.after (config_input (Example.rgb 12 8) s) s in
  covering (block_positions (pr_width s' - 8 + 1) (step s')) 8 4 *
  covering (block_positions (pr_height s' - 8 + 1) (step s')) 8 0 = 3 /\
  rd (S754_zero false) (weights s') 4 = S754_finite false 11184811 (-25) /\
  (Qabs (3 * B2Q (S754_finite false 11184811 (-25)) - 1) <= pow2 (-24))%Q.
Proof.
  cbv zeta.
  destruct (weights_normalise_overlap Example.reject
              (Example.options 0 6 None 3)
              (Example.after (init Example.reject (Example.options 0 6 None 3))
                             (Example.options 0 6 None 3))
              (Example.after
                 (config_input (Example.rgb 12 8)
                    (Example.after (init Example.reject (Example.options 0 6 None 3))
                                   (Example.options 0 6 None 3)))
                 (Example.options 0 6 None 3))
              (Example.rgb 12 8) [] 0 4 0)
    as (Hc & _ & Hw & _ & He);
    [ reflexivity | simpl; lia | reflexivity
    | vm_compute; split; discriminate | vm_compute; split; discriminate
    | vm_compute; split; [discriminate | reflexivity]
    | vm_compute; split; [discriminate | reflexivity] |].
  split; [vm_compute; reflexivity |].
  split; [vm_compute; reflexivity |].
  exact He.
Defined.


(** [filter_frame_margin] on an 11 by 9 picture with block size 8 and
    overlap 6, through a new buffer: the region is 10 by 8, and the last
    column and the last line of the output are those of the input. *)
Lemma filter_frame_margin_11_by_9 :
  let s0 := Example.options 0 6 None 3 in
  let inlink := Example.rgb 11 9 in
  let s := Example.setup Example.reject inlink s0 in
  let in_ := Example.flat 9 64 7 false in
  let fresh := Example.flat 9 64 0 true in
  pr_width s = 10 /\ pr_height s = 8 /\
  exists out s', filter_frame Example.half inlink s in_ (Some fresh) = Output out s' /\
    forall X Y k, 0 <= X < 11 -> 0 <= Y < 9 -> 10 <= X \/ 8 <= Y -> 0 <= k < 3 ->
      rd 0 (data out) (Y * linesize out + 3 * X + k) =
      rd 0 (data in_) (Y * linesize in_ + 3 * X + k).
Proof.
  cbv zeta. split; [reflexivity |]. split; [reflexivity |].
  apply (filter_frame_margin (H := IEEE.arith) Example.half (Example.rgb 11 9)
           (Example.setup Example.reject (Example.rgb 11 9) (Example.options 0 6 None 3))
           (Example.flat 9 64 7 false) (Some (Example.flat 9 64 0 true))).
  - repeat split; eexists; reflexivity.
  - vm_compute; split; discriminate.
  - vm_compute; split; discriminate.
  - vm_compute; discriminate.
  - vm_compute. repeat split; discriminate.
  - intros _. eexists. split; [reflexivity |].
    vm_compute. repeat split; discriminate.
Defined.

(** [colour_round_trip] on the pixel (0, 0, 1), which comes back as
    (0, 0, 0): the third expression is below 1 and is truncated. *)
Lemma colour_round_trip_0_0_1 :
  (let '(a, b, c) := @decorrelate_pixel IEEE.arith 0 0 1 in
   @correlate_pixel IEEE.arith a b c = (0, 0, 0)) /\
  (let '(a, b, c) := @decorrelate_pixel IEEE.arith 0 0 1 in
   let '(r', g', b') := @correlate_pixel IEEE.arith a b c in
   Z.max 0 (0 - 1) <= r' <= 0 /\ Z.max 0 (0 - 1) <= g' <= 0 /\
   Z.max 0 (1 - 1) <= b' <= 1).
Proof.
  split; [vm_compute; reflexivity |].
  apply (colour_round_trip 0 0 1); lia.
Defined.

(** The ramp 0, 1, 2, ... as [float]s. *)
Lemma ramp_valid (n k : Z) :
  0 <= k < n -> n <= 16 ->
  valid32 (IEEE.of_Z IEEE.prec32 IEEE.emax32 k) /\
  (Qabs (B2Q (IEEE.of_Z IEEE.prec32 IEEE.emax32 k)) <= pow2 4)%Q.
Proof.
  intros Hk Hn. destruct (byte_exact k ltac:(lia)) as [Hv He].
  split; [exact Hv |]. rewrite He, Qabs_inject.
  change (pow2 4) with (inject_Z 16). rewrite <- Zle_Qle. lia.
Qed.

(** [dct8_round_trip] on the ramp 0, 1, ..., 7 with [s = 4], at the
    index 5. *)
Lemma dct8_round_trip_ramp :
  let x := fun k => IEEE.of_Z IEEE.prec32 IEEE.emax32 k in
  let y := @fdct8_line IEEE.arith x in
  let z := @idct8_line IEEE.arith (fun _ => f_of_int 0) (fun k => rd fzero y k) in
  valid32 (rd fzero z 5) /\
  (Qabs (B2Q (rd fzero z 5%Z) - B2Q (x 5%Z)) <= 0.00002 * pow2 4)%Q.
Proof.
  apply (dct8_round_trip (fun k => IEEE.of_Z IEEE.prec32 IEEE.emax32 k) 4 5);
    [lia | intros k Hk; apply (ramp_valid 8); lia | lia].
Defined.

(** [dct16_round_trip] on the ramp 0, 1, ..., 15 with [s = 4], at the
    index 11. *)
Lemma dct16_round_trip_ramp :
  let x := fun k => IEEE.of_Z IEEE.prec32 IEEE.emax32 k in
  let y := @fdct16_line IEEE.arith x in
  let z := @idct16_line IEEE.arith (fun _ => f_of_int 0) (fun k => rd fzero y k) in
  valid32 (rd fzero z 11) /\
  (Qabs (B2Q (rd fzero z 11%Z) - B2Q (x 11%Z)) <= 0.00005 * pow2 4)%Q.
Proof.
  apply (dct16_round_trip (fun k => IEEE.of_Z IEEE.prec32 IEEE.emax32 k) 4 11);
    [lia | intros k Hk; apply (ramp_valid 16); lia | lia].
Defined.

Lemma ramp_bound (n k : Z) : 0 <= k < n -> (Qabs (inject_Z k) <= inject_Z n)%Q.
Proof. intros Hk. rewrite Qabs_inject, <- Zle_Qle. lia. Qed.

(** [dct8_exact_inverse] on the ramp 0, 1, ..., 7, at the index 5. *)
Lemma dct8_exact_inverse_ramp :
  let x := inject_Z in
  let fwd := @fdct8_line Exact.arith x in
  let inv := @idct8_line Exact.arith (fun _ => f_of_int 0) x in
  let back := @idct8_line Exact.arith (fun _ => f_of_int 0) (fun k => rd 0%Q fwd k) in
  let forth := @fdct8_line Exact.arith (fun k => rd 0%Q inv k) in
  (Qabs (rd 0 back 5%Z - x 5%Z) <= (1 # 100000000000000) * inject_Z 8)%Q /\
  (Qabs (rd 0 forth 5%Z - x 5%Z) <= (1 # 100000000000000) * inject_Z 8)%Q.
Proof.
  apply (dct8_exact_inverse inject_Z (inject_Z 8) 5);
    [intros k Hk; now apply ramp_bound | lia].
Defined.

(** [dct16_exact_inverse] on the ramp 0, 1, ..., 15, at the index 11. *)
Lemma dct16_exact_inverse_ramp :
  let x := inject_Z in
  let fwd := @fdct16_line Exact.arith x in
  let inv := @idct16_line Exact.arith (fun _ => f_of_int 0) x in
  let back := @idct16_line Exact.arith (fun _ => f_of_int 0) (fun k => rd 0%Q fwd k) in
  let forth := @fdct16_line Exact.arith (fun k => rd 0%Q inv k) in
  (Qabs (rd 0 back 11%Z - x 11%Z) <= (2 # 100000000000000) * inject_Z 16)%Q /\
  (Qabs (rd 0 forth 11%Z - x 11%Z) <= (2 # 100000000000000) * inject_Z 16)%Q.
Proof.
  apply (dct16_exact_inverse inject_Z (inject_Z 16) 11);
    [intros k Hk; now apply ramp_bound | lia].
Defined.
